(** * Orb deformation and interaction core of the portfolio front-end

    A shallow embedding of [js/harmonics.js], [js/orbs.js],
    [js/interaction.js], [js/nav.js] and [js/sound.js], and the properties
    of the spherical-harmonics evaluator, the morph engine, the wave ripple
    state machine, the hover resolver, the keyboard, click and tap
    listeners, and the sound module.

    Conventions of the embedding:
    - a JavaScript number is a real number or [NaN] (type [jsnum]); rounding,
      overflow and the infinities of IEEE doubles are not modelled there;
    - the range statement about [shDeform] uses a second embedding of
      [js/harmonics.js] over the type [double], which adds the two
      infinities and overflow at [Number.MAX_VALUE] (rounding inside the
      range stays unmodelled);
    - an array read outside the array yields [undefined], which arithmetic
      turns into [NaN];
    - [Math.random] reads the next draw of an explicit stream;
    - code that can throw runs in the monad [JS], where a thrown exception
      keeps the mutations made so far;
    - objects held in the global [blobs] array are referred to by their
      index in that array. *)

From Stdlib Require Import Reals Lra Lia List String Ascii.
From stdpp Require Import base list.
Import ListNotations.

Set Default Proof Using "Type".

(* ================================================================== *)
(** * JavaScript numbers *)
(* ================================================================== *)

Module JsNum.

Inductive jsnum : Type :=
| Num (r : R)
| NaN.

Definition lift1 (f : R -> R) (a : jsnum) : jsnum :=
  match a with
  | Num x => Num (f x)
  | NaN => NaN
  end.

Definition lift2 (f : R -> R -> R) (a b : jsnum) : jsnum :=
  match a, b with
  | Num x, Num y => Num (f x y)
  | _, _ => NaN
  end.

Definition jsadd : jsnum -> jsnum -> jsnum := lift2 Rplus.
Definition jssub : jsnum -> jsnum -> jsnum := lift2 Rminus.
Definition jsmul : jsnum -> jsnum -> jsnum := lift2 Rmult.
(** [a ** n] for a literal exponent [n]. *)
Definition jspow (a : jsnum) (n : nat) : jsnum := lift1 (fun x => pow x n) a.
Definition Math_sin : jsnum -> jsnum := lift1 sin.
Definition Math_cos : jsnum -> jsnum := lift1 cos.
Definition Math_sqrt (a : jsnum) : jsnum :=
  match a with
  | Num x => if Rle_dec 0 x then Num (sqrt x) else NaN
  | NaN => NaN
  end.

(** [a[i]] used as a number: [undefined] becomes [NaN]. *)
Definition aget (a : list jsnum) (i : nat) : jsnum :=
  match a !! i with
  | Some x => x
  | None => NaN
  end.

End JsNum.

Export JsNum.

Declare Scope js_scope.
Delimit Scope js_scope with js.
Infix "+" := jsadd : js_scope.
Infix "-" := jssub : js_scope.
Infix "*" := jsmul : js_scope.
Infix "**" := jspow (at level 30, right associativity) : js_scope.

(* ================================================================== *)
(** * Effects: state and exceptions *)
(* ================================================================== *)

Module Js.

Inductive Exn : Type :=
| TypeError (msg : string).

(** A computation over the mutable state [S]: it returns a value or throws,
    and in both cases leaves a state behind. *)
Definition JS (S A : Type) : Type := S -> (Exn + A) * S.

Definition ret {S A} (a : A) : JS S A := fun s => (inr a, s).

Definition bind {S A B} (m : JS S A) (k : A -> JS S B) : JS S B :=
  fun s =>
    match m s with
    | (inr a, s') => k a s'
    | (inl e, s') => (inl e, s')
    end.

Definition throw {S A} (e : Exn) : JS S A := fun s => (inl e, s).
Definition get {S} : JS S S := fun s => (inr s, s).
Definition modify {S} (f : S -> S) : JS S unit := fun s => (inr tt, f s).

(** Run a computation on a component of the state. *)
Definition zoom {S T A} (proj : S -> T) (upd : T -> S -> S) (m : JS T A) : JS S A :=
  fun s => let '(r, t) := m (proj s) in (r, upd t s).

(** [for (let i = lo; i < hi; i++) acc = body(i, acc)] *)
Fixpoint for_loop {S A} (n i : nat) (body : nat -> A -> JS S A) (acc : A) : JS S A :=
  match n with
  | O => ret acc
  | Datatypes.S n' => bind (body i acc) (for_loop n' (Datatypes.S i) body)
  end.

Definition for_range {S A} (lo hi : nat) (body : nat -> A -> JS S A) (acc : A) : JS S A :=
  for_loop (hi - lo) lo body acc.

(** The state a computation leaves, whether it returned or threw. *)
Definition exec {S A} (m : JS S A) (s : S) : S := snd (m s).
Definition result {S A} (m : JS S A) (s : S) : Exn + A := fst (m s).

End Js.

Export Js.

Declare Scope jsm_scope.
Delimit Scope jsm_scope with jsm.
Notation "'let*' x ':=' m 'in' k" := (bind m (fun x => k))
  (at level 10, x name, m at level 100, k at level 200) : jsm_scope.

(* ================================================================== *)
(** * harmonics.js *)
(* ================================================================== *)

Module Harmonics.

Local Open Scope R_scope.

(** The source of [Math.random]: a stream of draws and a cursor. *)
Record Rng : Type := mkRng { draws : nat -> R; cursor : nat }.

Definition Math_random : JS Rng R :=
  fun g => (inr (draws g (cursor g)), mkRng (draws g) (S (cursor g))).

Local Open Scope js_scope.

(** Array of Y_l^m(θ, φ) functions for l = 0 … 3 *)
Definition Y : list (jsnum -> jsnum -> jsnum) :=
  [ (* Y_0^0  *) fun _ _ => Num 0.2820947917
  ; (* Y_1^-1 *) fun t p => Num 0.4886025119 * Math_sin t * Math_sin p
  ; (* Y_1^0  *) fun t _ => Num 0.4886025119 * Math_cos t
  ; (* Y_1^1  *) fun t p => Num 0.4886025119 * Math_sin t * Math_cos p
  ; (* Y_2^-2 *) fun t p => Num 0.5462742153 * Math_sin t ** 2 * Math_sin (Num 2 * p)
  ; (* Y_2^-1 *) fun t p => Num 0.5462742153 * Math_sin t * Math_cos t * Math_sin p
  ; (* Y_2^0  *) fun t _ => Num 0.3153915653 * (Num 3 * Math_cos t ** 2 - Num 1)
  ; (* Y_2^1  *) fun t p => Num 0.5462742153 * Math_sin t * Math_cos t * Math_cos p
  ; (* Y_2^2  *) fun t p => Num 0.5462742153 * Math_sin t ** 2 * Math_cos (Num 2 * p)
  ; (* Y_3^-1 *) fun t p => Num 0.4570457995 * Math_sin t * (Num 5 * Math_cos t ** 2 - Num 1) * Math_sin p
  ; (* Y_3^0  *) fun t _ => Num 0.3731763326 * (Num 5 * Math_cos t ** 3 - Num 3 * Math_cos t)
  ; (* Y_3^1  *) fun t p => Num 0.4570457995 * Math_sin t * (Num 5 * Math_cos t ** 2 - Num 1) * Math_cos p
  ].

Definition N_COEFFS : nat := length Y.

(** [Y[i](theta, phi)]; the loop of [shDeform] keeps [i] below [Y.length]. *)
Definition Y_call (i : nat) (theta phi : jsnum) : jsnum :=
  match Y !! i with
  | Some f => f theta phi
  | None => NaN
  end.

(** Evaluate radial displacement from SH coefficients:
    [let r = 0; for (i = 0; i < N_COEFFS; i++) r += coeffs[i] * Y[i](theta, phi)]. *)
Definition shDeform (theta phi : jsnum) (coeffs : list jsnum) : jsnum :=
  fold_left (fun r i => r + aget coeffs i * Y_call i theta phi) (seq 0 N_COEFFS) (Num 0).

Local Open Scope jsm_scope.

(** One band of [randomCoeffs]:
    [for (i = lo; i < hi; i++) c[i] = (Math.random() - 0.5) * amp * k]. *)
Definition fill_band (lo hi : nat) (amp : jsnum) (k : R) (c : list jsnum)
  : JS Rng (list jsnum) :=
  for_range lo hi
    (fun i c => let* u := Math_random in
                ret (<[i := ((Num u - Num 0.5) * amp * Num k)%js]> c))
    c.

(** Generate a random set of 12 SH coefficients. *)
Definition randomCoeffs (base amp : jsnum) : JS Rng (list jsnum) :=
  let c := repeat (Num 0) N_COEFFS in
  let c := <[0%nat := base]> c in
  let* c := fill_band 1 4 amp 0.45 c in
  let* c := fill_band 4 9 amp 0.60 c in
  let* c := fill_band 9 12 amp 0.35 c in
  ret c.

End Harmonics.

Export Harmonics.

(* ================================================================== *)
(** * orbs.js *)
(* ================================================================== *)

Module Orbs.

Local Open Scope R_scope.

(** [THREE.Vector3] with finite components. *)
Definition Vector3 : Type := (R * R * R)%type.

(** One vertex of a position buffer (three consecutive numbers). *)
Definition Vertex : Type := (jsnum * jsnum * jsnum)%type.

(** [THREE.BufferAttribute] of item size 3; [count] is the number of
    vertices it holds. *)
Record BufferAttribute : Type := mkAttr { verts : list Vertex; needsUpdate : bool }.

Definition count (a : BufferAttribute) : nat := length (verts a).

Definition setXYZ (i : nat) (x y z : jsnum) (a : BufferAttribute) : BufferAttribute :=
  mkAttr (<[i := (x, y, z)]> (verts a)) (needsUpdate a).

Definition set_needsUpdate (v : bool) (a : BufferAttribute) : BufferAttribute :=
  mkAttr (verts a) v.

(** [THREE.BufferGeometry]; [position] stands for [attributes.position]. *)
Record BufferGeometry : Type := mkGeo { position : BufferAttribute }.

(** What the code uses of its surroundings: the vertices of
    [new THREE.SphereGeometry(radius, widthSegments, heightSegments)], the
    number of opaque pixels the label canvas samples for a text, and the
    [worldToLocal] of a group placed at a given position. *)
Record Host : Type := mkHost {
  SphereGeometry : R -> nat -> nat -> list Vector3;
  canvasDots : string -> nat;
  worldToLocalAt : Vector3 -> Vector3 -> Vector3
}.

Definition geometry_of (vs : list Vector3) : BufferGeometry :=
  mkGeo (mkAttr (map (fun '(x, y, z) => (Num x, Num y, Num z)) vs) false).

(** The position the loop of [morphGeo] writes for vertex [i]. *)
Definition morph_vertex (unitAngles coeffs : list jsnum) (baseR : jsnum) (i : nat) : Vertex :=
  let theta := aget unitAngles (i * 2) in
  let phi := aget unitAngles (i * 2 + 1) in
  let r := (baseR + shDeform theta phi coeffs)%js in
  ((r * Math_sin theta * Math_cos phi)%js,
   (r * Math_cos theta)%js,
   (r * Math_sin theta * Math_sin phi)%js).

(** The loop of [morphGeo] over the [n] vertices from index [a] on:
    [for (i = a; i < a + n; i++) pos.setXYZ(i, ...)]. *)
Definition morph_loop (unitAngles coeffs : list jsnum) (baseR : jsnum)
    (a n : nat) (pos : BufferAttribute) : BufferAttribute :=
  fold_left
    (fun pos i =>
       let '(x, y, z) := morph_vertex unitAngles coeffs baseR i in
       setXYZ i x y z pos)
    (seq a n) pos.

(** Write deformed positions into a geometry using cached unit-sphere angles. *)
Definition morphGeo (geo : BufferGeometry) (unitAngles coeffs : list jsnum) (baseR : jsnum)
  : BufferGeometry :=
  let pos := position geo in
  let pos := morph_loop unitAngles coeffs baseR 0 (count pos) pos in
  mkGeo (set_needsUpdate true pos).

(** ** The blob objects *)

Record Shape : Type := mkShape {
  geo : BufferGeometry;
  hitGeo : BufferGeometry;
  unitAngles : list jsnum;
  coeffs : list jsnum;
  coeffsTarget : list jsnum;
  baseR : R;
  ampHi : R;
  seg : nat;
  lerpT : R;
  morphSpeed : R
}.

Record Motion : Type := mkMotion {
  origin : Vector3;
  swayPh : Vector3;
  swayAmp : Vector3;
  swayFrq : Vector3;
  brPh : R;
  brSpd : R;
  brAmp : R;
  rotSpd : Vector3;
  pulseFreq1 : R;
  pulseFreq2 : R;
  pulseMix : R;
  pulsePhase : R;
  pulseAmp : R
}.

(** [labelPts] is the point cloud; it is represented by the text it spells. *)
Record Label : Type := mkLabel {
  labelPts : string;
  labelTotalDots : nat;
  labelRevealed : nat;
  labelRevealDone : bool
}.

(** One entry of [blobs].  [worldToLocal] is [mesh.worldToLocal], [hitMesh]
    the identity of the invisible raycast mesh, [uHitPoint] and [uWaveTime]
    the values of [mat.uniforms.uHitPoint] and [mat.uniforms.uWaveTime]. *)
Record Blob : Type := mkBlob {
  worldToLocal : Vector3 -> Vector3;
  hitMesh : nat;
  uHitPoint : Vector3;
  uWaveTime : R;
  shape : Shape;
  motion : Motion;
  hovered : bool;
  hoverT : R;
  hitLocal : option Vector3;
  projectIdx : nat;
  waveActive : bool;
  waveElapsed : R;
  waveFade : R;
  label : Label
}.

Definition set_uHitPoint (v : Vector3) (b : Blob) : Blob :=
  mkBlob (worldToLocal b) (hitMesh b) v (uWaveTime b) (shape b) (motion b)
         (hovered b) (hoverT b) (hitLocal b) (projectIdx b)
         (waveActive b) (waveElapsed b) (waveFade b) (label b).

Definition set_uWaveTime (v : R) (b : Blob) : Blob :=
  mkBlob (worldToLocal b) (hitMesh b) (uHitPoint b) v (shape b) (motion b)
         (hovered b) (hoverT b) (hitLocal b) (projectIdx b)
         (waveActive b) (waveElapsed b) (waveFade b) (label b).

Definition set_hovered (v : bool) (b : Blob) : Blob :=
  mkBlob (worldToLocal b) (hitMesh b) (uHitPoint b) (uWaveTime b) (shape b) (motion b)
         v (hoverT b) (hitLocal b) (projectIdx b)
         (waveActive b) (waveElapsed b) (waveFade b) (label b).

Definition set_hitLocal (v : option Vector3) (b : Blob) : Blob :=
  mkBlob (worldToLocal b) (hitMesh b) (uHitPoint b) (uWaveTime b) (shape b) (motion b)
         (hovered b) (hoverT b) v (projectIdx b)
         (waveActive b) (waveElapsed b) (waveFade b) (label b).

Definition set_waveActive (v : bool) (b : Blob) : Blob :=
  mkBlob (worldToLocal b) (hitMesh b) (uHitPoint b) (uWaveTime b) (shape b) (motion b)
         (hovered b) (hoverT b) (hitLocal b) (projectIdx b)
         v (waveElapsed b) (waveFade b) (label b).

Definition set_waveElapsed (v : R) (b : Blob) : Blob :=
  mkBlob (worldToLocal b) (hitMesh b) (uHitPoint b) (uWaveTime b) (shape b) (motion b)
         (hovered b) (hoverT b) (hitLocal b) (projectIdx b)
         (waveActive b) v (waveFade b) (label b).

(** ** Wave ripple *)

(** [x > y] on numbers. *)
Definition js_gt (x y : R) : bool := if Rlt_dec y x then true else false.

(** [uniforms.uHitPoint.value.copy(b.hitLocal)] guarded by [if (b.hitLocal)]. *)
Definition copy_hit_point (b : Blob) : Blob :=
  match hitLocal b with
  | Some p => set_uHitPoint p b
  | None => b
  end.

(** Update wave ripple uniforms for a blob. *)
Definition updateWaveRipple (b : Blob) (dt : R) : Blob :=
  if negb (waveActive b) then b
  else
    let b := set_waveElapsed (waveElapsed b + dt) b in
    let b := set_uWaveTime (waveElapsed b) b in
    (* Update hit point continuously while hovering *)
    let b := copy_hit_point b in
    (* Fade out wave after mouse leaves (waveElapsed keeps going) *)
    if negb (hovered b) && js_gt (waveElapsed b) 2.5
    then set_uWaveTime (-10.0) (set_waveActive false b)
    else b.

(** Start or refresh the wave ripple on a blob. *)
Definition startWave (b : Blob) : Blob :=
  let b := set_waveActive true b in
  let b := set_waveElapsed 0 b in
  copy_hit_point b.

End Orbs.

Export Orbs.

(* ================================================================== *)
(** * The page: configuration, mutable state, observable effects *)
(* ================================================================== *)

Module Page.

(** A project descriptor of [config.js]; [name] is [None] when the field is
    missing ([undefined]).  The other fields are not read by the code below. *)
Record Project : Type := mkProject { name : option string }.

Record Config : Type := mkConfig {
  PROJECTS : list Project;
  ORB_ORIGINS : list Vector3
}.

(** [state] of [panel.js], as [interaction.js] reads it; while the panel is
    open [focusedIdx] is the index of the orb it shows. *)
Record PanelState : Type := mkPanelState { panelOpen : bool; focusedIdx : nat }.

(** Calls into the audio and DOM collaborators, in the order they are made. *)
Inductive Effect : Type :=
| PlayHover                          (* playHover() of sound.js *)
| LabelText (text : option string)   (* orbLabel.textContent = ... *)
| LabelShow (shown : bool)           (* orbLabel.classList add/remove 'show' *)
| LabelAt (left top : R)             (* orbLabel.style.left/top *)
| CursorNone                         (* renderer.domElement.style.cursor = 'none' *)
| NavSync (active : option nat)      (* toggle 'active' on every .nav-item *)
| NavItemActive (idx : nat) (on : bool). (* one nav item's 'active' class *)

(** The mutable state of the page: [blobs] of [orbs.js], [hoveredBlob] and
    [navIdx] of [interaction.js], [state] of [panel.js], the random source,
    and the trace of effects. *)
Record World : Type := mkWorld {
  rng : Rng;
  blobs : list Blob;
  hoveredBlob : option nat;
  navIdx : nat;
  panelState : PanelState;
  effects : list Effect
}.

Definition set_rng (g : Rng) (w : World) : World :=
  mkWorld g (blobs w) (hoveredBlob w) (navIdx w) (panelState w) (effects w).

Definition set_blobs (bs : list Blob) (w : World) : World :=
  mkWorld (rng w) bs (hoveredBlob w) (navIdx w) (panelState w) (effects w).

Definition set_hoveredBlob (h : option nat) (w : World) : World :=
  mkWorld (rng w) (blobs w) h (navIdx w) (panelState w) (effects w).

Definition set_effects (es : list Effect) (w : World) : World :=
  mkWorld (rng w) (blobs w) (hoveredBlob w) (navIdx w) (panelState w) es.

Definition emit (e : Effect) : JS World unit :=
  modify (fun w => set_effects (effects w ++ [e]) w).

(** Mutate the blob object at index [i]. *)
Definition update_blob (i : nat) (f : Blob -> Blob) : JS World unit :=
  modify (fun w => set_blobs (alter f i (blobs w)) w).

Definition rand : JS World R := zoom rng set_rng Math_random.

(** [l.forEach((x, idx) => f(x, idx))] *)
Fixpoint forEach {S A} (l : list A) (idx : nat) (f : A -> nat -> JS S unit) : JS S unit :=
  match l with
  | [] => ret tt
  | x :: l' => bind (f x idx) (fun _ => forEach l' (Datatypes.S idx) f)
  end.

End Page.

Export Page.

(* ================================================================== *)
(** * orbs.js: construction *)
(* ================================================================== *)

Module Factory.

Local Open Scope R_scope.
Local Open Scope jsm_scope.

(** [String.prototype.toUpperCase] on ASCII letters; other bytes are kept. *)
Definition upper_ascii (c : ascii) : ascii :=
  let n := nat_of_ascii c in
  if (97 <=? n)%nat && (n <=? 122)%nat then ascii_of_nat (n - 32) else c.

Fixpoint toUpperCase (s : string) : string :=
  match s with
  | EmptyString => EmptyString
  | String c s' => String (upper_ascii c) (toUpperCase s')
  end.

(** [v.toUpperCase()] on a value that may be [undefined]. *)
Definition call_toUpperCase {S} (v : option string) : JS S string :=
  match v with
  | Some s => ret (toUpperCase s)
  | None => throw (TypeError "Cannot read properties of undefined (reading 'toUpperCase')")
  end.

(** [x || d] on numbers. *)
Definition js_or (x d : R) : R := if Req_dec_T x 0 then d else x.

(** [Math.atan2(y, x)] (the sign of zero is not modelled). *)
Definition Math_atan2 (y x : R) : R :=
  if Rlt_dec 0 x then atan (y / x)
  else if Rlt_dec x 0 then
         if Rle_dec 0 y then atan (y / x) + PI else atan (y / x) - PI
  else if Rlt_dec 0 y then PI / 2
  else if Rlt_dec y 0 then - PI / 2
  else 0.

(** [Math.floor] of a number that is not negative. *)
Definition Math_floor (x : R) : nat := Z.to_nat (Int_part x).

(** Pre-compute unit-sphere angles for the vertices [up]; the source has this
    loop twice, for the point cloud and for the hit mesh. *)
Definition computeUnitAngles (up : list Vector3) : list jsnum :=
  fold_left
    (fun ua i =>
       match up !! i with
       | Some (x, y, z) =>
           let r0 := js_or (sqrt (x * x + y * y + z * z)) 1e-8 in
           let ua := <[(i * 2)%nat := Num (acos (Rmax (-1) (Rmin 1 (y / r0))))]> ua in
           <[(i * 2 + 1)%nat := Num (Math_atan2 z x)]> ua
       | None => ua
       end)
    (seq 0 (length up)) (repeat (Num 0) (length up * 2)).

(** Render text as a point cloud of dots: one draw of [Math.random] per dot
    (its depth jitter); the typewriter starts with no dot revealed. *)
Definition makeDottedLabel (host : Host) (text : string) : JS World Label :=
  let dotCount := canvasDots host text in
  let* _ := for_range 0 dotCount (fun _ acc => let* _ := rand in ret acc) tt in
  ret (mkLabel text dotCount 0 false).

Definition rand3 (f : R -> R) (g : R -> R) (h : R -> R) : JS World Vector3 :=
  let* a := rand in
  let* b := rand in
  let* c := rand in
  ret (f a, g b, h c).

(** The body of the [forEach] of [createOrbs].  The scene graph, the
    materials and the inner core are THREE objects that nothing below reads;
    of the new hit mesh the blob keeps the identity, which is the number of
    blobs built before it. *)
Definition createOrb (host : Host) (cfg : Config) (proj : Project) (idx : nat)
  : JS World unit :=
  let* u := rand in
  let seg := (44 + Math_floor (u * 12))%nat in
  let* u := rand in
  let baseR := 1.0 + u * 0.7 in
  let ampHi := baseR * 0.35 in
  let* coeffs := zoom rng set_rng (randomCoeffs (Num baseR) (Num ampHi)) in
  let unitAngles := computeUnitAngles (SphereGeometry host 1 seg seg) in
  let geo := geometry_of (SphereGeometry host 1 seg seg) in
  let hitGeo := geometry_of (SphereGeometry host 1 16 16) in
  (* Dotted text label above the orb *)
  let* text := call_toUpperCase (name proj) in
  let* label := makeDottedLabel host text in
  let* o :=
    match ORB_ORIGINS cfg !! idx with
    | Some o => ret o
    | None => rand3 (fun u => (u - 0.5) * 10) (fun u => (u - 0.5) * 6) (fun u => (u - 0.5) * 4)
    end in
  let geo := morphGeo geo unitAngles coeffs (Num baseR) in
  let hitGeo :=
    morphGeo hitGeo (computeUnitAngles (SphereGeometry host 1 16 16)) coeffs (Num baseR) in
  let* coeffsTarget := zoom rng set_rng (randomCoeffs (Num baseR) (Num ampHi)) in
  let* lerpT := rand in
  let* u := rand in
  let morphSpeed := 0.07 + u * 0.07 in
  let* swayPh := rand3 (fun u => u * 6.28) (fun u => u * 6.28) (fun u => u * 6.28) in
  let* swayAmp :=
    rand3 (fun u => 0.18 + u * 0.22) (fun u => 0.12 + u * 0.18) (fun u => 0.10 + u * 0.14) in
  let* swayFrq :=
    rand3 (fun u => 0.20 + u * 0.14) (fun u => 0.24 + u * 0.18) (fun u => 0.17 + u * 0.12) in
  let* u := rand in
  let brPh := u * 6.28 in
  let* u := rand in
  let brSpd := 0.3 + u * 0.6 in
  let* u := rand in
  let brAmp := 0.02 + u * 0.04 in
  let* rotSpd :=
    rand3 (fun u => (u - 0.5) * 0.003) (fun u => (u - 0.5) * 0.004) (fun u => (u - 0.5) * 0.002) in
  let* u := rand in
  let pulseFreq1 := 1.0 + u * 2.0 in
  let* u := rand in
  let pulseFreq2 := 2.5 + u * 3.5 in
  let* u := rand in
  let pulseMix := 0.1 + u * 0.35 in
  let* u := rand in
  let pulsePhase := u * 6.2832 in
  let* u := rand in
  let pulseAmp := 0.15 + u * 0.25 in
  modify (fun w =>
    set_blobs
      (blobs w ++
       [ mkBlob (worldToLocalAt host o) (length (blobs w)) (0, 0, 0) (-10.0)
           (mkShape geo hitGeo unitAngles coeffs coeffsTarget baseR ampHi seg lerpT morphSpeed)
           (mkMotion o swayPh swayAmp swayFrq brPh brSpd brAmp rotSpd
              pulseFreq1 pulseFreq2 pulseMix pulsePhase pulseAmp)
           false 0 None idx
           false 0 0
           label ])
      w).

(** Instantiate one orb per project entry. *)
Definition createOrbs (host : Host) (cfg : Config) : JS World unit :=
  forEach (PROJECTS cfg) 0 (createOrb host cfg).

End Factory.

Export Factory.

(* ================================================================== *)
(** * interaction.js: raycaster hover *)
(* ================================================================== *)

Module Interaction.

Local Open Scope R_scope.
Local Open Scope jsm_scope.

(** One intersection reported by the raycaster: the mesh that was hit and
    the world-space point. *)
Record Hit : Type := mkHit { object : nat; point : Vector3 }.

(** A pointer-move event together with what
    [rc.intersectObjects(blobs.map(b => b.hitMesh))] returns for it, nearest
    intersection first. *)
Record PointerEvent : Type := mkPointerEvent {
  clientX : R;
  clientY : R;
  hits : list Hit
}.

(** [blobs.find(b => b.hitMesh === obj)]: the blob found and its index. *)
Definition find_blob (obj : nat) (bs : list Blob) : option (nat * Blob) :=
  list_find (fun b => hitMesh b = obj) bs.

(** [if (b.hitLocal) b.hitLocal = null] *)
Definition clear_hitLocal (b : Blob) : Blob :=
  match hitLocal b with
  | Some _ => set_hitLocal None b
  | None => b
  end.

(** [b.hitLocal = b.mesh.worldToLocal(hit.point.clone())] *)
Definition store_hit (hit : Hit) (b : Blob) : Blob :=
  set_hitLocal (Some (worldToLocal b (point hit))) b.

(** [hoveredBlob.hovered = false; hoveredBlob.hitLocal = null] *)
Definition unhover (b : Blob) : Blob := set_hitLocal None (set_hovered false b).

(** [PROJECTS[i].name] *)
Definition project_name (cfg : Config) (i : nat) : JS World (option string) :=
  match PROJECTS cfg !! i with
  | Some proj => ret (name proj)
  | None => throw (TypeError "Cannot read properties of undefined (reading 'name')")
  end.

(** [hoveredBlob === b], for the blob [b] at index [j] *)
Definition is_hoveredBlob (w : World) (j : nat) : bool :=
  match hoveredBlob w with
  | Some p => Nat.eqb p j
  | None => false
  end.

(** The branch of [onPointerMove] taken while the panel is open: only allow
    hover on the focused orb. *)
Definition pointerMove_focus (e : PointerEvent) : JS World unit :=
  let* w := get in
  let k := focusedIdx (panelState w) in
  match blobs w !! k with
  | Some focusedBlob =>
      match hits e with
      | hit :: _ =>
          if Nat.eqb (object hit) (hitMesh focusedBlob)
          then update_blob k (fun b => set_hovered true (store_hit hit b))
          else update_blob k clear_hitLocal
      | [] => update_blob k clear_hitLocal
      end
  | None => ret tt
  end.

(** The hover transition inside [if (hoveredBlob !== b)], for the blob [b]
    found at index [j]. *)
Definition hover_transition (cfg : Config) (j : nat) (b : Blob) : JS World unit :=
  let* w := get in
  let* _ :=
    match hoveredBlob w with
    | Some p => update_blob p unhover
    | None => ret tt
    end in
  let* _ := update_blob j (set_hovered true) in
  let* _ := modify (set_hoveredBlob (Some j)) in
  let* text := project_name cfg (projectIdx b) in
  let* _ := emit (LabelText text) in
  let* _ := emit (LabelShow true) in
  let* _ := emit CursorNone in
  let* _ := emit PlayHover in
  (* Sync nav highlight *)
  emit (NavSync (Some (projectIdx b))).

(** The branch of [onPointerMove] taken while no panel is open. *)
Definition pointerMove_browse (cfg : Config) (e : PointerEvent) : JS World unit :=
  let* w := get in
  match hits e with
  | hit :: _ =>
      let* _ :=
        match find_blob (object hit) (blobs w) with
        | Some (j, b) =>
            (* Store hit point in the mesh's local space for vertex displacement *)
            let* _ := update_blob j (store_hit hit) in
            if is_hoveredBlob w j then ret tt else hover_transition cfg j b
        | None => ret tt
        end in
      emit (LabelAt (clientX e + 18) (clientY e - 14))
  | [] =>
      match hoveredBlob w with
      | Some p =>
          let* _ := update_blob p unhover in
          let* _ := modify (set_hoveredBlob None) in
          let* _ := emit (LabelShow false) in
          let* _ := emit CursorNone in
          emit (NavSync None)
      | None => ret tt
      end
  end.

(** The [pointermove] listener.  The ray itself is cast by THREE; its result
    comes with the event. *)
Definition onPointerMove (cfg : Config) (e : PointerEvent) : JS World unit :=
  let* w := get in
  if panelOpen (panelState w) then pointerMove_focus e
  else pointerMove_browse cfg e.

(** The browser delivers events one after the other; an exception thrown by
    a listener ends that listener only. *)
Definition deliver {E} (handler : E -> JS World unit) (es : list E) (w : World) : World :=
  fold_left (fun w e => exec (handler e) w) es w.

End Interaction.

Export Interaction.

(* ================================================================== *)
(** * nav.js: side navigation *)
(* ================================================================== *)

Module Nav.

Local Open Scope jsm_scope.

(** One [.nav-item] element with its listeners.  The [click] listener calls
    [openProject] of [panel.js] and is left out. *)
Record NavItem : Type := mkNavItem {
  dataset_idx : nat;
  nav_label : string;
  mouseenter : JS World unit;
  mouseleave : JS World unit
}.

(** [blobs[idx].hovered = v] *)
Definition assign_hovered (idx : nat) (v : bool) : JS World unit :=
  let* w := get in
  match blobs w !! idx with
  | Some _ => update_blob idx (set_hovered v)
  | None => throw (TypeError "Cannot set properties of undefined (setting 'hovered')")
  end.

(** [`${proj.name}`] *)
Definition template_name (proj : Project) : string :=
  match name proj with
  | Some s => s
  | None => "undefined"
  end.

(** Build one nav-item per project and wire up hover. *)
Definition initNav (cfg : Config) : list NavItem :=
  imap
    (fun idx proj =>
       mkNavItem idx (template_name proj)
         (let* _ := emit PlayHover in
          let* _ := assign_hovered idx true in
          emit (NavItemActive idx true))
         (let* _ := assign_hovered idx false in
          emit (NavItemActive idx false)))
    (PROJECTS cfg).

End Nav.

Export Nav.

(* ================================================================== *)
(** * The frame loop around the wave ripple *)
(* ================================================================== *)

Module Frames.

(** What happens to one blob between and at frames. *)
Inductive FrameEvent : Type :=
| HoverStart
| HoverEnd
| Tick (dt : R).

(** Modelled from the spec: the frame loop of [animation.js], which is not
    among the sources.  A hover start sets [hovered] and triggers
    [startWave]; a hover end clears [hovered]; every frame ticks
    [updateWaveRipple] with the frame's [dt]. *)
Definition frame_step (b : Blob) (ev : FrameEvent) : Blob :=
  match ev with
  | HoverStart => startWave (set_hovered true b)
  | HoverEnd => set_hovered false b
  | Tick dt => updateWaveRipple b dt
  end.

Definition run_frames (evs : list FrameEvent) (b : Blob) : Blob :=
  fold_left frame_step evs b.

(** A hover that starts, lasts the frames [during], ends, and is followed by
    the frames [after]. *)
Definition hover_episode (during after : list R) : list FrameEvent :=
  [HoverStart] ++ map Tick during ++ [HoverEnd] ++ map Tick after.

End Frames.

Export Frames.

(* ================================================================== *)
(** * Vocabulary of the statements *)
(* ================================================================== *)

Module Observe.

Local Open Scope R_scope.

(** Coefficients that are all zero except index 0. *)
Definition sphere_coeffs (c0 : R) : list jsnum := Num c0 :: repeat (Num 0) 11.

(** Distance of a vertex from the origin. *)
Definition norm3 (v : Vertex) : jsnum :=
  let '(x, y, z) := v in Math_sqrt (x * x + y * y + z * z)%js.

(** The point of the unit sphere with polar angle [theta] and azimuth [phi]. *)
Definition unit_point (theta phi : R) : Vector3 :=
  (sin theta * cos phi, cos theta, sin theta * sin phi).

Definition scale3 (k : R) (p : Vector3) : Vertex :=
  let '(x, y, z) := p in (Num (k * x), Num (k * y), Num (k * z)).

Definition sum_list (l : list R) : R := fold_right Rplus 0 l.

(** The [hovered] flag of the blob at index [i]. *)
Definition hovered_in (bs : list Blob) (i : nat) : bool :=
  match bs !! i with
  | Some b => hovered b
  | None => false
  end.

Definition hovered_at (w : World) (i : nat) : bool := hovered_in (blobs w) i.

Definition hitLocal_in (bs : list Blob) (i : nat) : option Vector3 :=
  match bs !! i with
  | Some b => hitLocal b
  | None => None
  end.

Definition hitLocal_at (w : World) (i : nat) : option Vector3 := hitLocal_in (blobs w) i.

(** [if (hoveredBlob) { hoveredBlob.hovered = false; hoveredBlob.hitLocal = null; }]
    as a change of [blobs]. *)
Definition unhover_previous (h : option nat) (bs : list Blob) : list Blob :=
  match h with
  | Some p => alter unhover p bs
  | None => bs
  end.

(** Every orb whose [hovered] flag is set is the resolver's [hoveredBlob]. *)
Definition resolver_tracks (w : World) : Prop :=
  forall i, hovered_at w i = true -> hoveredBlob w = Some i.

(** The resolver's [hoveredBlob] has its [hovered] flag set. *)
Definition resolver_sound (w : World) : Prop :=
  forall i, hoveredBlob w = Some i -> hovered_at w i = true.

(** Every blob names a project of the configuration. *)
Definition valid_projects (cfg : Config) (w : World) : Prop :=
  Forall (fun b => (projectIdx b < length (PROJECTS cfg))%nat) (blobs w).

(** The orb an event's nearest intersection belongs to, if any. *)
Definition nearest_orb (e : PointerEvent) (w : World) : option nat :=
  match hits e with
  | hit :: _ => fst <$> find_blob (object hit) (blobs w)
  | [] => None
  end.

Definition is_PlayHover (e : Effect) : bool :=
  match e with
  | PlayHover => true
  | _ => false
  end.

(** How often the hover cue is played in a trace. *)
Definition hover_cues (es : list Effect) : nat := length (List.filter is_PlayHover es).

(** How often a listener run from [w] to [w'] played the hover cue. *)
Definition cues_played (w w' : World) : nat :=
  (hover_cues (effects w') - hover_cues (effects w))%nat.

(** A descriptor whose [name] field is present. *)
Definition named (proj : Project) : Prop := name proj <> None.

(** ** Sample objects *)

Definition identity_host : Host :=
  mkHost (fun _ _ _ => []) (fun s => String.length s) (fun _ p => p).

(** A blob with index [i] in the state [createOrbs] gives it, without
    geometry. *)
Definition idle_blob (i : nat) : Blob :=
  mkBlob (fun p => p) i (0, 0, 0) (-10.0)
    (mkShape (geometry_of []) (geometry_of []) [] [] [] 1 0.35 44 0 0.07)
    (mkMotion (0, 0, 0) (0, 0, 0) (0, 0, 0) (0, 0, 0) 0 0.3 0.02 (0, 0, 0) 1 2.5 0.1 0 0.15)
    false 0 None i
    false 0 0
    (mkLabel "" 0 0 false).

Definition constant_rng : Rng := mkRng (fun _ => 0) 0.

(** The page before [createOrbs] runs. *)
Definition empty_world : World :=
  mkWorld constant_rng [] None 0 (mkPanelState false 0) [].

(** A page with two idle orbs. *)
Definition two_orbs : World :=
  mkWorld constant_rng [idle_blob 0; idle_blob 1] None 0 (mkPanelState false 0) [].

(** The same page with the detail panel open for orb 0. *)
Definition two_orbs_focused : World :=
  mkWorld constant_rng [idle_blob 0; idle_blob 1] None 0 (mkPanelState true 0) [].

Definition two_projects : Config :=
  mkConfig [mkProject (Some "About Me"%string); mkProject (Some "Flex Platform"%string)]
           [(0.0, 5.0, -1.5); (-8.5, 2.0, -1.5)].

End Observe.

Export Observe.


(* ================================================================== *)
(** * Numbers with the range of a double *)
(* ================================================================== *)

Module Double.

Local Open Scope R_scope.

(** A JavaScript number with its range: a real between [-MAX_VALUE] and
    [MAX_VALUE], an infinity, or NaN.  An arithmetic result outside the
    range overflows to an infinity; rounding inside the range is not
    modelled. *)
Inductive double : Type :=
| Fin (r : R)
| PosInf
| NegInf
| NotNum.

(** [Number.MAX_VALUE] *)
Definition MAX_VALUE : R := 1.7976931348623157e308.

Definition overflow (r : R) : double :=
  if Rlt_dec MAX_VALUE r then PosInf
  else if Rlt_dec r (- MAX_VALUE) then NegInf
  else Fin r.

Definition dneg (a : double) : double :=
  match a with
  | Fin x => Fin (- x)
  | PosInf => NegInf
  | NegInf => PosInf
  | NotNum => NotNum
  end.

Definition dadd (a b : double) : double :=
  match a, b with
  | Fin x, Fin y => overflow (x + y)
  | NotNum, _ | _, NotNum => NotNum
  | PosInf, NegInf | NegInf, PosInf => NotNum
  | PosInf, _ | _, PosInf => PosInf
  | NegInf, _ | _, NegInf => NegInf
  end.

Definition dsub (a b : double) : double := dadd a (dneg b).

(** An infinity times a finite number: by the sign, NaN for zero. *)
Definition scale_inf (positive : bool) (x : R) : double :=
  if Rlt_dec 0 x then (if positive then PosInf else NegInf)
  else if Rlt_dec x 0 then (if positive then NegInf else PosInf)
  else NotNum.

Definition dmul (a b : double) : double :=
  match a, b with
  | Fin x, Fin y => overflow (x * y)
  | NotNum, _ | _, NotNum => NotNum
  | PosInf, Fin y => scale_inf true y
  | NegInf, Fin y => scale_inf false y
  | Fin x, PosInf => scale_inf true x
  | Fin x, NegInf => scale_inf false x
  | PosInf, PosInf | NegInf, NegInf => PosInf
  | PosInf, NegInf | NegInf, PosInf => NegInf
  end.

(** [a ** n] for a literal exponent [n]. *)
Fixpoint dpow (a : double) (n : nat) : double :=
  match n with
  | O => Fin 1
  | S O => a
  | S n' => dmul a (dpow a n')
  end.

(** [Math.sin] and [Math.cos]: NaN at the infinities. *)
Definition dsin (a : double) : double :=
  match a with
  | Fin x => Fin (sin x)
  | _ => NotNum
  end.

Definition dcos (a : double) : double :=
  match a with
  | Fin x => Fin (cos x)
  | _ => NotNum
  end.

(** [a[i]] used as a number: [undefined] becomes NaN. *)
Definition dget (a : list double) (i : nat) : double :=
  match a !! i with
  | Some x => x
  | None => NotNum
  end.

End Double.

Export Double.

Declare Scope double_scope.
Delimit Scope double_scope with double.
Infix "+" := dadd : double_scope.
Infix "-" := dsub : double_scope.
Infix "*" := dmul : double_scope.
Infix "**" := dpow (at level 30, right associativity) : double_scope.

(* ================================================================== *)
(** * harmonics.js over numbers that overflow *)
(* ================================================================== *)

Module HarmonicsDouble.

Local Open Scope R_scope.
Local Open Scope double_scope.

(** Array of Y_l^m(θ, φ) functions for l = 0 … 3 *)
Definition Y : list (double -> double -> double) :=
  [ (* Y_0^0  *) fun _ _ => Fin 0.2820947917
  ; (* Y_1^-1 *) fun t p => Fin 0.4886025119 * dsin t * dsin p
  ; (* Y_1^0  *) fun t _ => Fin 0.4886025119 * dcos t
  ; (* Y_1^1  *) fun t p => Fin 0.4886025119 * dsin t * dcos p
  ; (* Y_2^-2 *) fun t p => Fin 0.5462742153 * dsin t ** 2 * dsin (Fin 2 * p)
  ; (* Y_2^-1 *) fun t p => Fin 0.5462742153 * dsin t * dcos t * dsin p
  ; (* Y_2^0  *) fun t _ => Fin 0.3153915653 * (Fin 3 * dcos t ** 2 - Fin 1)
  ; (* Y_2^1  *) fun t p => Fin 0.5462742153 * dsin t * dcos t * dcos p
  ; (* Y_2^2  *) fun t p => Fin 0.5462742153 * dsin t ** 2 * dcos (Fin 2 * p)
  ; (* Y_3^-1 *) fun t p => Fin 0.4570457995 * dsin t * (Fin 5 * dcos t ** 2 - Fin 1) * dsin p
  ; (* Y_3^0  *) fun t _ => Fin 0.3731763326 * (Fin 5 * dcos t ** 3 - Fin 3 * dcos t)
  ; (* Y_3^1  *) fun t p => Fin 0.4570457995 * dsin t * (Fin 5 * dcos t ** 2 - Fin 1) * dcos p
  ].

Definition N_COEFFS : nat := length Y.

(** [Y[i](theta, phi)]; the loop of [shDeform] keeps [i] below [Y.length]. *)
Definition Y_call (i : nat) (theta phi : double) : double :=
  match Y !! i with
  | Some f => f theta phi
  | None => NotNum
  end.

(** [let r = 0; for (i = 0; i < N_COEFFS; i++) r += coeffs[i] * Y[i](theta, phi)] *)
Definition shDeform (theta phi : double) (coeffs : list double) : double :=
  fold_left (fun r i => r + dget coeffs i * Y_call i theta phi) (seq 0 N_COEFFS) (Fin 0).

End HarmonicsDouble.

(* ================================================================== *)
(** * Vocabulary of the further statements *)
(* ================================================================== *)

Module Measure.

Local Open Scope R_scope.

(** A bound on the magnitude of each basis function of [Y], from
    [|sin| <= 1] and [|cos| <= 1]. *)
Definition Y_bounds : list R :=
  [ 0.2820947917;
    0.4886025119; 0.4886025119; 0.4886025119;
    0.5462742153; 0.5462742153; 0.6307831306; 0.5462742153; 0.5462742153;
    1.828183198; 2.9854106608; 1.828183198 ].

(** [sum of |c_i| * bound_i] *)
Fixpoint weighted_bound (cs bounds : list R) : R :=
  match cs, bounds with
  | c :: cs', k :: bounds' => Rabs c * k + weighted_bound cs' bounds'
  | _, _ => 0
  end.


(** The angles [createOrbs] caches for a vertex. *)
Definition polar_angle (v : Vector3) : R :=
  let '(x, y, z) := v in
  acos (Rmax (-1) (Rmin 1 (y / js_or (sqrt (x * x + y * y + z * z)) 1e-8))).

Definition azimuth_angle (v : Vector3) : R :=
  let '(x, y, z) := v in Math_atan2 z x.

(** A vector of length 1. *)
Definition on_unit_sphere (v : Vector3) : Prop :=
  let '(x, y, z) := v in x * x + y * y + z * z = 1.

Definition NaN3 : Vertex := (NaN, NaN, NaN).

End Measure.

Export Measure.


(* ================================================================== *)
(** * Writes to one blob, in any order *)
(* ================================================================== *)

Module BlobOps.

Local Open Scope R_scope.

(** What the sources do to the hover and wave fields of one blob object. *)
Inductive BlobOp : Type :=
| CallStartWave                        (* startWave(b) *)
| CallUpdateWave (dt : R)              (* updateWaveRipple(b, dt) *)
| WriteHovered (v : bool)              (* b.hovered = v *)
| WriteHitLocal (p : option Vector3).  (* b.hitLocal = p *)

Definition apply_op (b : Blob) (op : BlobOp) : Blob :=
  match op with
  | CallStartWave => startWave b
  | CallUpdateWave dt => updateWaveRipple b dt
  | WriteHovered v => set_hovered v b
  | WriteHitLocal p => set_hitLocal p b
  end.

Definition run_ops (ops : list BlobOp) (b : Blob) : Blob := fold_left apply_op ops b.

(** The time the ticks among [ops] add up to. *)
Fixpoint ticked (ops : list BlobOp) : R :=
  match ops with
  | [] => 0
  | CallUpdateWave dt :: ops' => dt + ticked ops'
  | _ :: ops' => ticked ops'
  end.

(** No tick goes back in time. *)
Definition forward_op (op : BlobOp) : Prop :=
  match op with
  | CallUpdateWave dt => 0 <= dt
  | _ => True
  end.

(** The shader's wave is switched off ([uWaveTime = -10]) whenever the wave
    is not active. *)
Definition wave_gated (b : Blob) : Prop :=
  waveActive b = false -> uWaveTime b = -10.0.

End BlobOps.

Export BlobOps.

(* ================================================================== *)
(** * Vocabulary of the further statements about the page *)
(* ================================================================== *)

Module PageFacts.

(** A blob that is neither hovered nor carries a hit point. *)
Definition idle (b : Blob) : Prop := hovered b = false /\ hitLocal b = None.

(** The page as [createOrbs] leaves it: no orb hovered, no hit point, and
    the resolver holds no blob. *)
Definition idle_page (w : World) : Prop :=
  hoveredBlob w = None /\ Forall idle (blobs w).

(** The blob [b0] while the pointer is over it at the local point [p]. *)
Definition hovering (p : Vector3) (b0 : Blob) : Blob :=
  set_hovered true (set_hitLocal (Some p) b0).

(** Relative to the blobs [bs0] the page started with, every blob of [w] is
    the blob it was, except that the resolver's [hoveredBlob] is hovered at
    some point. *)
Definition hover_only_differs (bs0 : list Blob) (w : World) : Prop :=
  length (blobs w) = length bs0 /\
  forall i b0, bs0 !! i = Some b0 ->
    (hoveredBlob w <> Some i /\ blobs w !! i = Some b0) \/
    (hoveredBlob w = Some i /\ exists p, blobs w !! i = Some (hovering p b0)).

(** The event's nearest intersection is with the mesh [m]. *)
Definition hits_mesh (m : nat) (e : PointerEvent) : Prop :=
  match hits e with
  | hit :: _ => object hit = m
  | [] => False
  end.

(** The event's ray meets no hit mesh. *)
Definition hits_nothing (e : PointerEvent) : Prop := hits e = [].

(** The random source only yields draws in [0, 1), as [Math.random] does. *)
Definition unit_draws (g : Rng) : Prop := forall n, (0 <= draws g n < 1)%R.

End PageFacts.

Export PageFacts.

(* ================================================================== *)
(** * Vocabulary of the statements about freshly built orbs *)
(* ================================================================== *)

Module Built.

Local Open Scope R_scope.

(** The coefficient array [cs] starts with [base] and its eleven higher
    entries weigh at most [2.3369 * amp], which the three bands of
    [randomCoeffs] guarantee. *)
Definition banded (base amp : R) (c : list jsnum) : Prop :=
  exists cs : list R,
    c = map Num (base :: cs) /\ length cs = 11%nat /\
    weighted_bound cs (tail Y_bounds) <= 2.3369 * amp.

(** The shape parameters of a blob are in the ranges [createOrbs] draws
    them from. *)
Definition shape_in_range (sh : Shape) : Prop :=
  1 <= baseR sh < 1.7 /\ (44 <= seg sh <= 55)%nat /\
  ampHi sh = baseR sh * 0.35 /\
  0 <= lerpT sh < 1 /\ 0.07 <= morphSpeed sh < 0.14 /\
  banded (baseR sh) (ampHi sh) (coeffs sh) /\
  banded (baseR sh) (ampHi sh) (coeffsTarget sh).

(** The point cloud of a blob is the unit sphere of its segment count,
    morphed by its coefficients. *)
Definition cloud_morphed (host : Host) (sh : Shape) : Prop :=
  let up := SphereGeometry host 1 (seg sh) (seg sh) in
  unitAngles sh = computeUnitAngles up /\
  geo sh = morphGeo (geometry_of up) (computeUnitAngles up) (coeffs sh) (Num (baseR sh)).

(** A host whose unit sphere has two vertices, a pole and a point of the
    equator. *)
Definition two_vertex_host : Host :=
  mkHost (fun _ _ _ => [(0, 1, 0); (1, 0, 0)]) (fun s => String.length s) (fun _ p => p).

End Built.

Export Built.

(* ================================================================== *)
(** * interaction.js: keyboard, click and tap *)
(* ================================================================== *)

Module Controls.

Local Open Scope R_scope.
Local Open Scope jsm_scope.

(** What [highlightOrb] reads of the window and the camera: the size of the
    window and, for the blob at an index, its world position after
    [wp.project(camera)]. *)
Record Viewport : Type := mkViewport {
  innerWidth : R;
  innerHeight : R;
  projected : nat -> Vector3
}.

(** Calls of the keyboard, click and tap listeners into the event, into
    [sound.js] and into [panel.js], in the order they are made.  The
    functions of [panel.js] are recorded, not run. *)
Inductive Call : Type :=
| PreventDefault                  (* e.preventDefault() *)
| PlayClick                       (* playClick() of sound.js *)
| OpenProject (idx : option nat)  (* openProject(idx) of panel.js; [None] is NaN *)
| ClosePanel.                     (* closePanel() of panel.js *)

(** The page as these listeners see it.  [navIdx] of [World] holds the
    keyboard-selected index while it is a number; [navNaN] is set once
    [% blobs.length] has made it NaN. *)
Record Desk : Type := mkDesk {
  page : World;
  navNaN : bool;
  calls : list Call
}.

Definition set_page (w : World) (d : Desk) : Desk := mkDesk w (navNaN d) (calls d).

Definition call (c : Call) : JS Desk unit :=
  modify (fun d => mkDesk (page d) (navNaN d) (calls d ++ [c])).

(** The value of [navIdx]. *)
Definition nav_number (d : Desk) : option nat :=
  if navNaN d then None else Some (navIdx (page d)).

(** [navIdx = v] *)
Definition assign_navIdx (v : option nat) : JS Desk unit :=
  modify (fun d =>
    match v with
    | Some i =>
        let w := page d in
        mkDesk (mkWorld (rng w) (blobs w) (hoveredBlob w) i (panelState w) (effects w))
               false (calls d)
    | None => mkDesk (page d) true (calls d)
    end).

(** [a % n] for an integer [a >= 0] or NaN and a length [n]. *)
Definition js_mod (a : option nat) (n : nat) : option nat :=
  match a, n with
  | Some a, S _ => Some (a mod n)
  | _, _ => None
  end.

(** [blobs[idx]] for a number [idx] *)
Definition blob_at (w : World) (idx : option nat) : option (nat * Blob) :=
  match idx with
  | Some i => match blobs w !! i with Some b => Some (i, b) | None => None end
  | None => None
  end.

(** Visually highlight an orb via keyboard (fake hover). *)
Definition highlightOrb (vp : Viewport) (cfg : Config) (idx : option nat) : JS World unit :=
  let* w := get in
  (* Un-hover previous *)
  let* _ :=
    match hoveredBlob w with
    | Some p => update_blob p unhover
    | None => ret tt
    end in
  let* w := get in
  match blob_at w idx with
  | None => throw (TypeError "Cannot set properties of undefined (setting 'hovered')")
  | Some (i, b) =>
      let* _ := update_blob i (set_hovered true) in
      let* _ := modify (set_hoveredBlob (Some i)) in
      let* _ := emit PlayHover in
      let* text := project_name cfg (projectIdx b) in
      let* _ := emit (LabelText text) in
      let* _ := emit (LabelShow true) in
      (* Position label at orb's screen-space position *)
      let '(wx, wy, _) := projected vp i in
      let* _ := emit (LabelAt ((wx * 0.5 + 0.5) * innerWidth vp + 18)
                              ((- wy * 0.5 + 0.5) * innerHeight vp - 14)) in
      (* Sync nav highlight *)
      emit (NavSync (Some i))
  end.

Record KeyEvent : Type := mkKeyEvent { key : string }.

Definition key_is (e : KeyEvent) (k : string) : bool := String.eqb (key e) k.

(** Keyboard orb navigation (when no panel is open). *)
Definition onKeyNav (vp : Viewport) (cfg : Config) (e : KeyEvent) : JS Desk unit :=
  let* d := get in
  if panelOpen (panelState (page d)) then ret tt
  else
    let n := length (blobs (page d)) in
    if key_is e "ArrowRight" || key_is e "ArrowDown" then
      let* _ := call PreventDefault in
      let next := js_mod (option_map (fun i => (i + 1)%nat) (nav_number d)) n in
      let* _ := assign_navIdx next in
      zoom page set_page (highlightOrb vp cfg next)
    else if key_is e "ArrowLeft" || key_is e "ArrowUp" then
      let* _ := call PreventDefault in
      let next := js_mod (option_map (fun i => (i + n - 1)%nat) (nav_number d)) n in
      let* _ := assign_navIdx next in
      zoom page set_page (highlightOrb vp cfg next)
    else if key_is e "Enter" then
      let* _ := call PreventDefault in
      let* _ := call PlayClick in
      call (OpenProject (nav_number d))
    else ret tt.

(** A click; [onPanel] is [panel.contains(e.target)]. *)
Record ClickEvent : Type := mkClickEvent { onPanel : bool }.

Definition onClick (e : ClickEvent) : JS Desk unit :=
  let* d := get in
  if panelOpen (panelState (page d)) then
    (* If panel is open and click is NOT on the panel itself, close it *)
    if negb (onPanel e) then call ClosePanel else ret tt
  else
    match hoveredBlob (page d) with
    | Some p =>
        match blobs (page d) !! p with
        | Some b =>
            let* _ := call PlayClick in
            call (OpenProject (Some (projectIdx b)))
        | None => ret tt  (* [hoveredBlob] is one of the objects in [blobs] *)
        end
    | None => ret tt
    end.

(** One entry of [e.changedTouches]: [touchOnPanel] is
    [panel.contains(document.elementFromPoint(...))], [touchHits] what the
    raycaster returns for the tap, nearest intersection first. *)
Record Touch : Type := mkTouch {
  touchOnPanel : bool;
  touchHits : list Hit
}.

(** [changedTouches] is [None] when the event has no such list. *)
Record TouchEvent : Type := mkTouchEvent { changedTouches : option (list Touch) }.

(** Touch handler for mobile: raycast on tap since there is no hover. *)
Definition onTouchTap (e : TouchEvent) : JS Desk unit :=
  match changedTouches e with
  | None | Some [] => ret tt
  | Some (touch :: _) =>
      let* d := get in
      (* Close panel if tapping outside it *)
      if panelOpen (panelState (page d)) then
        if negb (touchOnPanel touch) then call ClosePanel else ret tt
      else
        match touchHits touch with
        | hit :: _ =>
            match find_blob (object hit) (blobs (page d)) with
            | Some (_, b) =>
                let* _ := call PlayClick in
                call (OpenProject (Some (projectIdx b)))
            | None => ret tt
            end
        | [] => ret tt
        end
  end.

(** The events of the canvas and the window that reach these listeners. *)
Inductive InputEvent : Type :=
| PointerMove (e : PointerEvent)
| KeyDown (e : KeyEvent)
| Click (e : ClickEvent)
| TouchEnd (e : TouchEvent).

(** The listener [initInteraction] registers for an event.  [resumeOnce],
    which it also registers for the first click, key press or touch, only
    calls [resumeAudio] of [sound.js] and is not part of this. *)
Definition listener (vp : Viewport) (cfg : Config) (ev : InputEvent) : JS Desk unit :=
  match ev with
  | PointerMove e => zoom page set_page (onPointerMove cfg e)
  | KeyDown e => onKeyNav vp cfg e
  | Click e => onClick e
  | TouchEnd e => onTouchTap e
  end.

(** Events are handled one after the other; an exception ends the listener
    that threw it. *)
Definition handle (vp : Viewport) (cfg : Config) (evs : list InputEvent) (d : Desk) : Desk :=
  fold_left (fun d ev => exec (listener vp cfg ev) d) evs d.

End Controls.

Export Controls.

(* ================================================================== *)
(** * Vocabulary of the statements about keyboard, click and tap *)
(* ================================================================== *)

Module ControlFacts.

(** The keys [onKeyNav] steps forward and backward on. *)
Definition steps_forward (e : KeyEvent) : Prop :=
  key_is e "ArrowRight" || key_is e "ArrowDown" = true.

Definition steps_back (e : KeyEvent) : Prop :=
  key_is e "ArrowRight" || key_is e "ArrowDown" = false /\
  key_is e "ArrowLeft" || key_is e "ArrowUp" = true.

(** Pointer moves and key presses other than Enter: the events whose
    listeners do not call into [panel.js]. *)
Definition browsing (ev : InputEvent) : Prop :=
  match ev with
  | PointerMove _ => True
  | KeyDown e => key_is e "Enter" = false
  | Click _ | TouchEnd _ => False
  end.

(** At most one orb has its [hovered] flag set. *)
Definition one_hovered (w : World) : Prop :=
  forall i j, hovered_at w i = true -> hovered_at w j = true -> i = j.

(** The state in which arrow keys find a page with orbs: panel closed, a
    numeric index, every blob with a project, every hovered orb known to the
    resolver. *)
Definition keys_ready (cfg : Config) (d : Desk) : Prop :=
  panelOpen (panelState (page d)) = false /\ navNaN d = false /\
  blobs (page d) <> [] /\ valid_projects cfg (page d) /\ resolver_tracks (page d).

(** Where [highlightOrb] puts the label for the blob at index [i]. *)
Definition label_position (vp : Viewport) (i : nat) : Effect :=
  let '(wx, wy, _) := projected vp i in
  LabelAt ((wx * 0.5 + 0.5) * innerWidth vp + 18) ((- wy * 0.5 + 0.5) * innerHeight vp - 14).

(** A viewport that projects every orb to the centre of a window. *)
Definition centred_viewport : Viewport := mkViewport 800 600 (fun _ => (0, 0, 0)%R).

(** A desk around a page, with the keyboard selection at its start. *)
Definition desk_of (w : World) : Desk := mkDesk w false [].

End ControlFacts.

Export ControlFacts.

(* ================================================================== *)
(** * sound.js: ambient and interaction sounds *)
(* ================================================================== *)

Module Sound.

Local Open Scope R_scope.

Inductive OscillatorType : Type := sine | triangle.

(** One oscillator node together with the gain node it plays through.  A
    ramp is the target value and end time of
    [exponentialRampToValueAtTime]; [stopTime] is [None] until [stop] is
    called. *)
Record Voice : Type := mkVoice {
  oscType : OscillatorType;
  frequency : R;
  frequencyRamp : option (R * R);
  gain : R;
  gainRamp : option (R * R);
  startTime : R;
  stopTime : option R
}.

Definition set_stopTime (t : R) (v : Voice) : Voice :=
  mkVoice (oscType v) (frequency v) (frequencyRamp v) (gain v) (gainRamp v)
          (startTime v) (Some t).

(** [ctx.state === 'suspended'] *)
Record AudioContext : Type := mkAudioContext { suspended : bool }.

(** The module state of [sound.js]: [ctx], [masterGain] (its
    [gain.value]), [ambientOsc] (the two oscillators, by their position in
    [voices]; [None] is [undefined] or [null]) and [muted]; with them the
    source of [Math.random], every oscillator created so far, and the number
    of audio contexts constructed. *)
Record Audio : Type := mkAudio {
  random : Rng;
  ctx : option AudioContext;
  masterGain : option R;
  ambientOsc : option (nat * nat);
  muted : bool;
  voices : list Voice;
  contexts : nat
}.

(** The browser: whether a new context starts suspended (autoplay policy). *)
Record Browser : Type := mkBrowser { startsSuspended : bool }.

Definition ensureCtx (br : Browser) (a : Audio) : Audio :=
  match ctx a with
  | Some _ => a
  | None =>
      mkAudio (random a) (Some (mkAudioContext (startsSuspended br))) (Some 0.25)
              (ambientOsc a) (muted a) (voices a) (S (contexts a))
  end.

(** Ambient drone (very quiet); [now] is [ctx.currentTime]. *)
Definition startAmbient (br : Browser) (now : R) (a : Audio) : Audio :=
  let a := ensureCtx br a in
  match ambientOsc a with
  | Some _ => a
  | None =>
      (* Two detuned oscillators for a warm pad *)
      let o1 := mkVoice sine 80 None 0.03 None now None in
      let o2 := mkVoice sine 120.5 None 0.03 None now None in
      let n := length (voices a) in
      mkAudio (random a) (ctx a) (masterGain a) (Some (n, S n)) (muted a)
              (voices a ++ [o1; o2]) (contexts a)
  end.

Definition stopAmbient (now : R) (a : Audio) : Audio :=
  match ambientOsc a with
  | None => a
  | Some (o1, o2) =>
      mkAudio (random a) (ctx a) (masterGain a) None (muted a)
              (alter (set_stopTime now) o2 (alter (set_stopTime now) o1 (voices a)))
              (contexts a)
  end.

(** [if (muted || !ctx) return] *)
Definition silenced (a : Audio) : bool :=
  muted a || match ctx a with Some _ => false | None => true end.

Definition add_voice (v : Voice) (a : Audio) : Audio :=
  mkAudio (random a) (ctx a) (masterGain a) (ambientOsc a) (muted a)
          (voices a ++ [v]) (contexts a).

(** Hover sound (soft high tone). *)
Definition playHover (now : R) (a : Audio) : Audio :=
  if silenced a then a
  else
    let g := random a in
    let u := draws g (cursor g) in  (* Math.random() *)
    let a := mkAudio (mkRng (draws g) (S (cursor g))) (ctx a) (masterGain a)
                     (ambientOsc a) (muted a) (voices a) (contexts a) in
    add_voice (mkVoice sine (600 + u * 200) None
                       0.06 (Some (0.001, now + 0.25)) now (Some (now + 0.3))) a.

(** Click sound (resonant pop). *)
Definition playClick (now : R) (a : Audio) : Audio :=
  if silenced a then a
  else
    add_voice (mkVoice triangle 900 (Some (200, now + 0.15))
                       0.1 (Some (0.001, now + 0.2)) now (Some (now + 0.25))) a.

(** Close / back sound. *)
Definition playClose (now : R) (a : Audio) : Audio :=
  if silenced a then a
  else
    add_voice (mkVoice sine 400 (Some (150, now + 0.2))
                       0.06 (Some (0.001, now + 0.25)) now (Some (now + 0.3))) a.

(** Mute toggle; returns the new [muted]. *)
Definition toggleMute (a : Audio) : bool * Audio :=
  let m := negb (muted a) in
  (m,
   mkAudio (random a) (ctx a)
           (match masterGain a with
            | Some _ => Some (if m then 0 else 0.25)
            | None => None
            end)
           (ambientOsc a) m (voices a) (contexts a)).

Definition isMuted (a : Audio) : bool := muted a.

(** Resume context (needed after user gesture). *)
Definition resumeAudio (br : Browser) (now : R) (a : Audio) : Audio :=
  let a := ensureCtx br a in
  let a :=
    match ctx a with
    | Some c =>
        if suspended c
        then mkAudio (random a) (Some (mkAudioContext false)) (masterGain a)
                     (ambientOsc a) (muted a) (voices a) (contexts a)
        else a
    | None => a
    end in
  startAmbient br now a.

(** A call of an exported function, made at the time [at_time]. *)
Inductive SoundFn : Type :=
| StartAmbient | StopAmbient | PlayHoverFn | PlayClickFn | PlayCloseFn
| ToggleMute | ResumeAudio.

Record SoundCall : Type := mkSoundCall { fn : SoundFn; at_time : R }.

Definition sound_call (br : Browser) (a : Audio) (c : SoundCall) : Audio :=
  match fn c with
  | StartAmbient => startAmbient br (at_time c) a
  | StopAmbient => stopAmbient (at_time c) a
  | PlayHoverFn => playHover (at_time c) a
  | PlayClickFn => playClick (at_time c) a
  | PlayCloseFn => playClose (at_time c) a
  | ToggleMute => snd (toggleMute a)
  | ResumeAudio => resumeAudio br (at_time c) a
  end.

Definition sound_calls (br : Browser) (cs : list SoundCall) (a : Audio) : Audio :=
  fold_left (sound_call br) cs a.

(** The module as it is loaded: no context, not muted, nothing played. *)
Definition loaded (g : Rng) : Audio := mkAudio g None None None false [] 0.

End Sound.

Export Sound.

(* ================================================================== *)
(** * Vocabulary of the statements about sound *)
(* ================================================================== *)

Module SoundFacts.

Local Open Scope R_scope.

(** The functions that create the audio context when there is none. *)
Definition opens_context (f : SoundFn) : bool :=
  match f with
  | StartAmbient | ResumeAudio => true
  | _ => false
  end.

(** [masterGain] is silent exactly when [muted] is set. *)
Definition gain_follows_mute (a : Audio) : Prop :=
  masterGain a = Some (if muted a then 0 else 0.25).

(** The state [sound.js] keeps between calls: the context and [masterGain]
    are created together and once; the voices without a stop time are the
    two of [ambientOsc], which are the last drone started. *)
Definition audio_consistent (a : Audio) : Prop :=
  (ctx a = None -> masterGain a = None /\ contexts a = 0%nat /\ voices a = []) /\
  (ctx a <> None -> masterGain a <> None /\ contexts a = 1%nat) /\
  (forall i v, voices a !! i = Some v -> stopTime v = None ->
     exists o1 o2, ambientOsc a = Some (o1, o2) /\ (i = o1 \/ i = o2)) /\
  (forall o1 o2, ambientOsc a = Some (o1, o2) ->
     o2 = S o1 /\
     exists v1 v2,
       voices a !! o1 = Some v1 /\ voices a !! o2 = Some v2 /\
       stopTime v1 = None /\ stopTime v2 = None /\
       frequency v1 = 80 /\ frequency v2 = 120.5).

End SoundFacts.

Export SoundFacts.

(* ================================================================== *)
(** * Properties of the spherical-harmonics evaluator *)
(* ================================================================== *)

Section HarmonicsFacts.

Local Open Scope R_scope.

Lemma N_COEFFS_12 : N_COEFFS = 12%nat.
Proof. reflexivity. Qed.

(** An array that is too short is read as [undefined] and poisons the sum. *)
Example shDeform_short_array :
  shDeform (Num 0) (Num 0) (repeat (Num 1) 11) = NaN.
Proof. reflexivity. Qed.

(** What [randomCoeffs] returns, entry by entry. *)
Lemma randomCoeffs_unfold (base amp : jsnum) (g : Rng) :
  let u k := Num (draws g (k + cursor g)) in
  let band k f := ((u k - Num 0.5) * amp * Num f)%js in
  randomCoeffs base amp g =
  (inr [ base; band 0%nat 0.45; band 1%nat 0.45; band 2%nat 0.45;
         band 3%nat 0.60; band 4%nat 0.60; band 5%nat 0.60; band 6%nat 0.60; band 7%nat 0.60;
         band 8%nat 0.35; band 9%nat 0.35; band 10%nat 0.35 ],
   mkRng (draws g) (11 + cursor g)).
Proof.
  destruct g as [d c]. reflexivity.
Qed.

(** A centred draw scaled by [amp * f] has magnitude at most [f / 2 * amp]. *)
Lemma band_bound (u amp f : R) :
  0 <= u < 1 -> 0 <= amp -> 0 <= f ->
  Rabs ((u - 0.5) * amp * f) <= f / 2 * amp.
Proof.
  intros [Hu0 Hu1] Hamp Hf.
  assert (Haf : 0 <= amp * f) by (apply Rmult_le_pos; assumption).
  rewrite Rmult_assoc.
  apply Rabs_le. split; nra.
Qed.

(** C2: [randomCoeffs(base, amp)] returns twelve numbers; index 0 is [base]
    itself, indices 1..3 have magnitude at most [0.225 * amp], indices 4..8
    at most [0.30 * amp], indices 9..11 at most [0.175 * amp], for every
    stream of draws in [0, 1) and every [amp >= 0]. *)
Theorem C2_randomCoeffs_bounds (base amp : R) (g : Rng) :
  (forall n, 0 <= draws g n < 1) -> 0 <= amp ->
  exists (c : list R) (g' : Rng),
    randomCoeffs (Num base) (Num amp) g = (inr (map Num c), g') /\
    length c = 12%nat /\
    c !! 0%nat = Some base /\
    (forall i x, (1 <= i <= 3)%nat -> c !! i = Some x -> Rabs x <= 0.225 * amp) /\
    (forall i x, (4 <= i <= 8)%nat -> c !! i = Some x -> Rabs x <= 0.30 * amp) /\
    (forall i x, (9 <= i <= 11)%nat -> c !! i = Some x -> Rabs x <= 0.175 * amp).
Proof.
  intros Hdraws Hamp.
  rewrite randomCoeffs_unfold. cbn zeta.
  set (u := fun k : nat => draws g (k + cursor g)).
  exists [ base;
           (u 0%nat - 0.5) * amp * 0.45; (u 1%nat - 0.5) * amp * 0.45;
           (u 2%nat - 0.5) * amp * 0.45;
           (u 3%nat - 0.5) * amp * 0.60; (u 4%nat - 0.5) * amp * 0.60;
           (u 5%nat - 0.5) * amp * 0.60; (u 6%nat - 0.5) * amp * 0.60;
           (u 7%nat - 0.5) * amp * 0.60;
           (u 8%nat - 0.5) * amp * 0.35; (u 9%nat - 0.5) * amp * 0.35;
           (u 10%nat - 0.5) * amp * 0.35 ].
  exists (mkRng (draws g) (11 + cursor g)).
  assert (Hu : forall k, 0 <= u k < 1) by (intros k; apply Hdraws).
  split; [reflexivity|]. split; [reflexivity|]. split; [reflexivity|].
  repeat split; intros i x Hi Hx;
    do 12 (destruct i as [|i];
           [ first [ lia
                   | injection Hx as <-;
                     eapply Rle_trans;
                     [apply band_bound; [apply Hu | exact Hamp | lra] | lra] ]
           | ]);
    lia.
Qed.

Lemma C2_witness :
  let g := mkRng (fun n => / (INR n + 2)) 0 in
  (forall n, 0 <= draws g n < 1) /\
  0 <= 0.525 /\
  exists (c : list R) (g' : Rng),
    randomCoeffs (Num 1.5) (Num 0.525) g = (inr (map Num c), g') /\
    length c = 12%nat /\ c !! 0%nat = Some 1.5 /\
    (forall i x, (1 <= i <= 3)%nat -> c !! i = Some x -> Rabs x <= 0.225 * 0.525).
Proof.
  intros g.
  assert (Hdraws : forall n, 0 <= draws g n < 1).
  { intros n. cbn [draws g].
    assert (Hn : 0 <= INR n) by apply pos_INR.
    assert (Hpos : 0 < INR n + 2) by lra.
    split.
    - left. apply Rinv_0_lt_compat. exact Hpos.
    - rewrite <- Rinv_1. apply Rinv_lt_contravar; lra. }
  assert (Hamp : 0 <= 0.525) by lra.
  split; [exact Hdraws|]. split; [exact Hamp|].
  destruct (C2_randomCoeffs_bounds 1.5 0.525 g Hdraws Hamp)
    as (c & g' & H1 & H2 & H3 & H4 & _).
  exists c, g'. auto.
Defined.

End HarmonicsFacts.

(* ================================================================== *)
(** * Properties of the morph engine *)
(* ================================================================== *)

Section MorphFacts.

Local Open Scope R_scope.

Variables (unitAngles coeffs : list jsnum) (baseR : jsnum).


Lemma morph_loop_needsUpdate (n a : nat) (pos : BufferAttribute) :
  needsUpdate (morph_loop unitAngles coeffs baseR a n pos) = needsUpdate pos.
Proof.
  unfold morph_loop. revert a pos.
  induction n as [|n IH]; intros a pos; cbn [seq fold_left]; [reflexivity|].
  rewrite IH. destruct (morph_vertex unitAngles coeffs baseR a) as [[x y] z].
  reflexivity.
Qed.

Lemma morph_loop_count (n a : nat) (pos : BufferAttribute) :
  count (morph_loop unitAngles coeffs baseR a n pos) = count pos.
Proof.
  unfold morph_loop. revert a pos.
  induction n as [|n IH]; intros a pos; cbn [seq fold_left]; [reflexivity|].
  rewrite IH. destruct (morph_vertex unitAngles coeffs baseR a) as [[x y] z].
  unfold count, setXYZ. cbn [verts]. apply length_insert.
Qed.

(** Vertices outside the range of the loop keep their position. *)
Lemma morph_loop_outside (n a i : nat) (pos : BufferAttribute) :
  (i < a \/ a + n <= i)%nat ->
  verts (morph_loop unitAngles coeffs baseR a n pos) !! i = verts pos !! i.
Proof.
  unfold morph_loop. revert a pos.
  induction n as [|n IH]; intros a pos Hi; cbn [seq fold_left]; [reflexivity|].
  rewrite IH by lia.
  destruct (morph_vertex unitAngles coeffs baseR a) as [[x y] z].
  unfold setXYZ. cbn [verts]. apply list_lookup_insert_ne. lia.
Qed.

(** Vertices inside the range hold what the loop body computed for them. *)
Lemma morph_loop_inside (n a i : nat) (pos : BufferAttribute) :
  (a <= i < a + n)%nat -> (i < count pos)%nat ->
  verts (morph_loop unitAngles coeffs baseR a n pos) !! i = Some (morph_vertex unitAngles coeffs baseR i).
Proof.
  revert a pos.
  induction n as [|n IH]; intros a pos Hi Hc; [lia|].
  destruct (decide (i = a)) as [->|Hne].
  - change (morph_loop unitAngles coeffs baseR a (S n) pos)
      with (morph_loop unitAngles coeffs baseR (S a) n
              (let '(x, y, z) := morph_vertex unitAngles coeffs baseR a in
               setXYZ a x y z pos)).
    rewrite morph_loop_outside by lia.
    destruct (morph_vertex unitAngles coeffs baseR a) as [[x y] z].
    unfold setXYZ. cbn [verts]. apply list_lookup_insert_eq. exact Hc.
  - change (morph_loop unitAngles coeffs baseR a (S n) pos)
      with (morph_loop unitAngles coeffs baseR (S a) n
              (let '(x, y, z) := morph_vertex unitAngles coeffs baseR a in
               setXYZ a x y z pos)).
    apply IH; [lia|].
    destruct (morph_vertex unitAngles coeffs baseR a) as [[x y] z].
    unfold count, setXYZ. cbn [verts]. rewrite length_insert. exact Hc.
Qed.

Lemma morphGeo_vertex (geo : BufferGeometry) (i : nat) :
  (i < count (position geo))%nat ->
  verts (position (morphGeo geo unitAngles coeffs baseR)) !! i
  = Some (morph_vertex unitAngles coeffs baseR i).
Proof.
  intros Hi. unfold morphGeo. cbn [position set_needsUpdate verts].
  apply morph_loop_inside; [lia|exact Hi].
Qed.

Lemma morphGeo_needsUpdate (geo : BufferGeometry) :
  needsUpdate (position (morphGeo geo unitAngles coeffs baseR)) = true.
Proof. reflexivity. Qed.

Lemma morphGeo_count (geo : BufferGeometry) :
  count (position (morphGeo geo unitAngles coeffs baseR)) = count (position geo).
Proof.
  unfold morphGeo. cbn [position]. unfold count at 1. cbn [set_needsUpdate verts].
  apply morph_loop_count.
Qed.

End MorphFacts.

(** C3: [morphGeo] writes, for every vertex index [i] with
    [theta = unitAngles[2i]] and [phi = unitAngles[2i+1]], the position
    [(r sin(theta) cos(phi), r cos(theta), r sin(theta) sin(phi))] with
    [r = baseR + shDeform(theta, phi, coeffs)] into the position buffer, and
    leaves the buffer marked [needsUpdate]. *)
Theorem C3_morphGeo_writes_positions
    (geo : BufferGeometry) (unitAngles coeffs : list jsnum) (baseR : jsnum) (i : nat) :
  (i < count (position geo))%nat ->
  let theta := aget unitAngles (2 * i) in
  let phi := aget unitAngles (2 * i + 1) in
  let r := (baseR + shDeform theta phi coeffs)%js in
  let geo' := morphGeo geo unitAngles coeffs baseR in
  verts (position geo') !! i =
    Some ((r * Math_sin theta * Math_cos phi)%js,
          (r * Math_cos theta)%js,
          (r * Math_sin theta * Math_sin phi)%js) /\
  needsUpdate (position geo') = true.
Proof.
  intros Hi theta phi r geo'. split.
  - subst geo'. rewrite morphGeo_vertex by exact Hi.
    unfold morph_vertex. subst theta phi r.
    rewrite (Nat.mul_comm i 2). reflexivity.
  - apply morphGeo_needsUpdate.
Qed.

Lemma C3_witness :
  let geo := geometry_of [(0, 1, 0); (1, 0, 0)]%R in
  let unitAngles := [Num 0; Num 0; Num (PI / 2); Num 0] in
  let coeffs := sphere_coeffs 0 in
  (1 < count (position geo))%nat /\
  exists v, verts (position (morphGeo geo unitAngles coeffs (Num 2))) !! 1%nat = Some v /\
            needsUpdate (position (morphGeo geo unitAngles coeffs (Num 2))) = true.
Proof.
  intros geo unitAngles coeffs.
  assert (Hi : (1 < count (position geo))%nat) by (cbn; lia).
  split; [exact Hi|].
  destruct (C3_morphGeo_writes_positions geo unitAngles coeffs (Num 2) 1 Hi) as [Hv Hn].
  eexists. split; [exact Hv | exact Hn].
Defined.

Section SphereFacts.

Local Open Scope R_scope.

(** With all higher coefficients zero only the constant term [Y_0^0]
    contributes. *)
Lemma shDeform_sphere_coeffs (theta phi c0 : R) :
  shDeform (Num theta) (Num phi) (sphere_coeffs c0) = Num (c0 * 0.2820947917).
Proof.
  unfold shDeform, sphere_coeffs. cbn. f_equal. ring.
Qed.

Lemma sin_cos_square (x : R) : sin x * sin x + cos x * cos x = 1.
Proof. exact (sin2_cos2 x). Qed.

(** A point of the unit sphere scaled by [k] lies at distance [|k|]. *)
Lemma norm3_scale3_unit_point (k theta phi : R) :
  norm3 (scale3 k (unit_point theta phi)) = Num (Rabs k).
Proof.
  unfold norm3, scale3, unit_point. cbn.
  pose proof (sin_cos_square theta) as Ht.
  pose proof (sin_cos_square phi) as Hp.
  replace (k * (sin theta * cos phi) * (k * (sin theta * cos phi))
           + k * cos theta * (k * cos theta)
           + k * (sin theta * sin phi) * (k * (sin theta * sin phi)))
    with (k * k * (sin theta * sin theta * (sin phi * sin phi + cos phi * cos phi)
                   + cos theta * cos theta)) by ring.
  rewrite Hp, Rmult_1_r, Ht, Rmult_1_r.
  destruct (Rle_dec 0 (k * k)) as [_|Hneg].
  - f_equal. apply sqrt_Rsqr_abs.
  - exfalso. apply Hneg. apply Rle_0_sqr.
Qed.

(** What [morphGeo] writes for a vertex with finite angles when the
    coefficients are [sphere_coeffs c0]. *)
Lemma morph_vertex_sphere_coeffs (ua : list R) (c0 baseR theta phi : R) (i : nat) :
  ua !! (2 * i)%nat = Some theta -> ua !! (2 * i + 1)%nat = Some phi ->
  morph_vertex (map Num ua) (sphere_coeffs c0) (Num baseR) i
  = scale3 (baseR + c0 * 0.2820947917) (unit_point theta phi).
Proof.
  intros Ht Hp. unfold morph_vertex, aget.
  rewrite !list_lookup_fmap, (Nat.mul_comm i 2), Ht, Hp. cbn [fmap option_fmap option_map].
  rewrite shDeform_sphere_coeffs. unfold scale3, unit_point. cbn.
  rewrite !Rmult_assoc. reflexivity.
Qed.

(** The angle to Cartesian reconstruction itself: with every coefficient
    zero the vertex is the cached point of the unit sphere scaled by
    [baseR]. *)
Lemma morph_vertex_zero_coeffs (ua : list R) (baseR theta phi : R) (i : nat) :
  ua !! (2 * i)%nat = Some theta -> ua !! (2 * i + 1)%nat = Some phi ->
  morph_vertex (map Num ua) (repeat (Num 0) 12) (Num baseR) i
  = scale3 baseR (unit_point theta phi).
Proof.
  intros Ht Hp.
  change (repeat (Num 0) 12) with (sphere_coeffs 0).
  rewrite (morph_vertex_sphere_coeffs ua 0 baseR theta phi i Ht Hp).
  replace (baseR + 0 * 0.2820947917) with baseR by ring. reflexivity.
Qed.

End SphereFacts.




(* ================================================================== *)
(** * Properties of the wave ripple *)
(* ================================================================== *)

Section WaveFacts.

Local Open Scope R_scope.

Lemma js_gt_true (x y : R) : js_gt x y = true <-> x > y.
Proof. unfold js_gt. destruct (Rlt_dec y x); split; intros; try easy; lra. Qed.

Lemma js_gt_false (x y : R) : js_gt x y = false <-> x <= y.
Proof. unfold js_gt. destruct (Rlt_dec y x); split; intros; try easy; lra. Qed.

Lemma copy_hit_point_fields (b : Blob) :
  hovered (copy_hit_point b) = hovered b /\
  waveActive (copy_hit_point b) = waveActive b /\
  waveElapsed (copy_hit_point b) = waveElapsed b.
Proof. unfold copy_hit_point. destruct (hitLocal b); auto. Qed.

(** An idle wave is not touched by a tick. *)
Lemma updateWaveRipple_idle (b : Blob) (dt : R) :
  waveActive b = false -> updateWaveRipple b dt = b.
Proof. intros H. unfold updateWaveRipple. rewrite H. reflexivity. Qed.

(** While the pointer is over the orb the wave only ages. *)
Lemma updateWaveRipple_hovering (b : Blob) (dt : R) :
  waveActive b = true -> hovered b = true ->
  hovered (updateWaveRipple b dt) = true /\
  waveActive (updateWaveRipple b dt) = true /\
  waveElapsed (updateWaveRipple b dt) = waveElapsed b + dt.
Proof.
  intros Ha Hh. unfold updateWaveRipple. rewrite Ha. cbn [negb].
  set (b1 := set_uWaveTime _ _).
  destruct (copy_hit_point_fields b1) as (E1 & E2 & E3).
  rewrite E1, E3. cbn [b1 hovered set_uWaveTime set_waveElapsed].
  rewrite Hh. cbn [negb andb].
  rewrite E1, E2, E3. cbn. auto.
Qed.

(** After the pointer has left, a tick ages the wave and ends it as soon as
    its age exceeds 2.5. *)
Lemma updateWaveRipple_fading (b : Blob) (dt : R) :
  waveActive b = true -> hovered b = false ->
  hovered (updateWaveRipple b dt) = false /\
  waveActive (updateWaveRipple b dt) = negb (js_gt (waveElapsed b + dt) 2.5) /\
  waveElapsed (updateWaveRipple b dt) = waveElapsed b + dt.
Proof.
  intros Ha Hh. unfold updateWaveRipple. rewrite Ha. cbn [negb].
  set (b1 := set_uWaveTime _ _).
  destruct (copy_hit_point_fields b1) as (E1 & E2 & E3).
  rewrite E1, E3. cbn [b1 hovered waveElapsed set_uWaveTime set_waveElapsed].
  rewrite Hh. cbn [negb andb].
  destruct (js_gt (waveElapsed b + dt) 2.5).
  - cbn. rewrite E1, E3. cbn. auto.
  - rewrite E1, E2, E3. cbn. auto.
Qed.

Lemma sum_list_firstn_0 (l : list R) : sum_list (firstn 0 l) = 0.
Proof. reflexivity. Qed.

Lemma sum_list_firstn_S (k : nat) (dt : R) (l : list R) :
  sum_list (firstn (S k) (dt :: l)) = dt + sum_list (firstn k l).
Proof. reflexivity. Qed.

Lemma ticks_idle (dts : list R) (b : Blob) :
  waveActive b = false -> run_frames (map Tick dts) b = b.
Proof.
  unfold run_frames. revert b.
  induction dts as [|dt dts IH]; intros b Hb; cbn; [reflexivity|].
  rewrite updateWaveRipple_idle by exact Hb. apply IH. exact Hb.
Qed.

Lemma ticks_hovering (dts : list R) (b : Blob) :
  waveActive b = true -> hovered b = true ->
  let b' := run_frames (map Tick dts) b in
  hovered b' = true /\ waveActive b' = true /\
  waveElapsed b' = waveElapsed b + sum_list dts.
Proof.
  unfold run_frames, sum_list. revert b.
  induction dts as [|dt dts IH]; intros b Ha Hh; cbn [map fold_left fold_right frame_step].
  - repeat split; try assumption. lra.
  - destruct (updateWaveRipple_hovering b dt Ha Hh) as (E1 & E2 & E3).
    destruct (IH _ E2 E1) as (F1 & F2 & F3).
    repeat split; try assumption. rewrite F3, E3. lra.
Qed.

Lemma ticks_fading (dts : list R) (b : Blob) :
  waveActive b = true -> hovered b = false ->
  waveActive (run_frames (map Tick dts) b) = false <->
  exists k, (1 <= k <= length dts)%nat /\ waveElapsed b + sum_list (firstn k dts) > 2.5.
Proof.
  revert b.
  induction dts as [|dt dts IH]; intros b Ha Hh.
  - cbn. rewrite Ha. split; [discriminate|]. intros (k & Hk & _). lia.
  - destruct (updateWaveRipple_fading b dt Ha Hh) as (E1 & E2 & E3).
    change (run_frames (map Tick (dt :: dts)) b)
      with (run_frames (map Tick dts) (updateWaveRipple b dt)).
    destruct (js_gt (waveElapsed b + dt) 2.5) eqn:Hgt; cbn [negb] in E2.
    + rewrite ticks_idle by exact E2. apply js_gt_true in Hgt.
      split; [intros _|intros _; exact E2].
      exists 1%nat. split; [cbn; lia|].
      rewrite sum_list_firstn_S, sum_list_firstn_0. lra.
    + rewrite (IH _ E2 E1), E3. apply js_gt_false in Hgt.
      split.
      * intros (k & Hk & Hs). exists (S k). split; [cbn; lia|].
        rewrite sum_list_firstn_S. lra.
      * intros (k & Hk & Hs). destruct k as [|k]; [lia|].
        rewrite sum_list_firstn_S in Hs.
        destruct k as [|k].
        -- rewrite sum_list_firstn_0 in Hs. lra.
        -- exists (S k). split; [cbn in Hk; lia|]. lra.
Qed.

(** The state of the wave when the pointer leaves. *)
Lemma episode_at_hover_end (b : Blob) (during : list R) :
  let b1 := run_frames ([HoverStart] ++ map Tick during ++ [HoverEnd]) b in
  hovered b1 = false /\ waveActive b1 = true /\ waveElapsed b1 = sum_list during.
Proof.
  unfold run_frames. rewrite app_assoc, fold_left_app. cbn [fold_left frame_step].
  rewrite fold_left_app. cbn [fold_left app frame_step].
  set (b0 := startWave (set_hovered true b)).
  assert (H0 : hovered b0 = true /\ waveActive b0 = true /\ waveElapsed b0 = 0).
  { subst b0. unfold startWave.
    destruct (copy_hit_point_fields (set_waveElapsed 0 (set_waveActive true (set_hovered true b))))
      as (E1 & E2 & E3).
    rewrite E1, E2, E3. cbn. auto. }
  destruct H0 as (H1 & H2 & H3).
  destruct (ticks_hovering during b0 H2 H1) as (F1 & F2 & F3).
  unfold run_frames in F1, F2, F3.
  cbn [hovered waveActive waveElapsed set_hovered].
  rewrite F2, F3, H3. repeat split. lra.
Qed.

(** After a hover episode the wave is over exactly when some tick after the
    hover end has seen the age of the wave (counted from [startWave]) above
    2.5. *)
Lemma episode_inactive_iff (b : Blob) (during after : list R) :
  waveActive (run_frames (hover_episode during after) b) = false <->
  exists k, (1 <= k <= length after)%nat /\
            sum_list during + sum_list (firstn k after) > 2.5.
Proof.
  destruct (episode_at_hover_end b during) as (H1 & H2 & H3).
  unfold hover_episode, run_frames in *.
  rewrite !app_assoc, fold_left_app, <- !app_assoc.
  set (b1 := fold_left frame_step ([HoverStart] ++ map Tick during ++ [HoverEnd]) b) in *.
  rewrite <- H3. apply (ticks_fading after b1 H2 H1).
Qed.

Lemma sum_list_firstn_lower (delta : R) (l : list R) (k : nat) :
  Forall (fun dt => delta <= dt) l -> (k <= length l)%nat ->
  INR k * delta <= sum_list (firstn k l).
Proof.
  intros Hall. revert k.
  induction Hall as [|dt l Hdt Hall IH]; intros k Hk.
  - cbn in Hk. replace k with 0%nat by lia. rewrite sum_list_firstn_0. cbn. lra.
  - destruct k as [|k]; [rewrite sum_list_firstn_0; cbn; lra|].
    rewrite S_INR, sum_list_firstn_S.
    specialize (IH k ltac:(cbn in Hk; lia)). lra.
Qed.

(** Frames that last at least [delta > 0] carry any age past 2.5. *)
Lemma frames_reach_threshold (e delta : R) :
  0 < delta ->
  exists n, forall after,
    (n <= length after)%nat -> Forall (fun dt => delta <= dt) after ->
    exists k, (1 <= k <= length after)%nat /\ e + sum_list (firstn k after) > 2.5.
Proof.
  intros Hd.
  set (x := (2.5 - e) / delta).
  exists (S (Z.to_nat (up x))). intros after Hlen Hall.
  exists (S (Z.to_nat (up x))). split; [lia|].
  pose proof (sum_list_firstn_lower delta after _ Hall Hlen) as Hsum.
  assert (Hx : x < INR (S (Z.to_nat (up x)))).
  { rewrite S_INR. destruct (archimed x) as [Hup _].
    destruct (Z_lt_le_dec (up x) 0) as [Hneg|Hpos].
    - assert (IZR (up x) < 0) by (apply IZR_lt in Hneg; exact Hneg).
      pose proof (pos_INR (Z.to_nat (up x))). lra.
    - rewrite INR_IZR_INZ, Z2Nat.id by exact Hpos. lra. }
  assert (Hm : x * delta < INR (S (Z.to_nat (up x))) * delta)
    by (apply Rmult_lt_compat_r; assumption).
  assert (Hxd : x * delta = 2.5 - e) by (subst x; field; lra).
  lra.
Qed.

Lemma sum_list_repeat (x : R) (n : nat) : sum_list (repeat x n) = INR n * x.
Proof.
  induction n as [|n IH]; [cbn; lra|].
  rewrite S_INR. cbn [repeat sum_list fold_right]. unfold sum_list in IH. lra.
Qed.

End WaveFacts.

(** C4 (as the code has it): after a hover that started with [startWave],
    lasted the frames [during] and was followed by the frames [after],
    [waveActive] is false exactly when at some tick after the hover end the
    time elapsed since [startWave] (the hover start, not the hover end)
    exceeded 2.5 seconds, and at no tick before that; frames of at least
    [delta > 0] seconds reach such a tick. *)
Theorem C4_wave_lifecycle (b : Blob) (during after : list R) :
  (waveActive (run_frames (hover_episode during after) b) = false <->
   exists k, (1 <= k <= length after)%nat /\
             (sum_list during + sum_list (firstn k after) > 2.5)%R) /\
  (forall delta : R, (0 < delta)%R ->
   exists n, forall after',
     (n <= length after')%nat -> Forall (fun dt => (delta <= dt)%R) after' ->
     waveActive (run_frames (hover_episode during after') b) = false).
Proof.
  split.
  - apply episode_inactive_iff.
  - intros delta Hd.
    destruct (frames_reach_threshold (sum_list during) delta Hd) as (n & Hn).
    exists n. intros after' Hlen Hall.
    apply episode_inactive_iff. apply Hn; assumption.
Qed.

Lemma C4_witness :
  waveActive (run_frames (hover_episode [1; 1]%R [0.25; 0.5]%R) (idle_blob 0)) = false.
Proof.
  apply (C4_wave_lifecycle (idle_blob 0) [1; 1]%R [0.25; 0.5]%R).
  exists 2%nat. split; [cbn; lia|].
  rewrite !sum_list_firstn_S, sum_list_firstn_0. cbn. lra.
Defined.

(** C4 as stated fails: after a hover of 3 seconds (180 frames of 1/60 s)
    the wave ends at the first tick after the hover end, when only 1/60 s
    has elapsed since the hover end. *)
Lemma C4_counterexample :
  let during := repeat (/ 60)%R 180 in
  let after := [(/ 60)%R] in
  waveActive (run_frames (hover_episode during after) (idle_blob 0)) = false /\
  ~ (sum_list after > 2.5)%R.
Proof.
  intros during after. split.
  - apply episode_inactive_iff. exists 1%nat. split; [cbn; lia|].
    subst during after.
    rewrite sum_list_repeat, INR_IZR_INZ, sum_list_firstn_S, sum_list_firstn_0.
    change (Z.of_nat 180) with 180%Z. lra.
  - subst after. unfold sum_list. cbn [fold_right]. lra.
Qed.

(* ================================================================== *)
(** * Properties of the hover resolver *)
(* ================================================================== *)

Section InteractionFacts.

Implicit Types (cfg : Config) (e : PointerEvent) (w : World) (b : Blob).
Implicit Types (bs : list Blob) (i j p : nat).

(** ** Flags under in-place updates of [blobs] *)

Lemma hovered_in_alter_ne (f : Blob -> Blob) p i bs :
  i <> p -> hovered_in (alter f p bs) i = hovered_in bs i.
Proof.
  intros Hne. unfold hovered_in. rewrite list_lookup_alter_ne by congruence. reflexivity.
Qed.

Lemma hovered_in_alter_keep (f : Blob -> Blob) p i bs :
  (forall b, hovered (f b) = hovered b) ->
  hovered_in (alter f p bs) i = hovered_in bs i.
Proof.
  intros Hf. destruct (decide (i = p)) as [->|Hne].
  - unfold hovered_in. rewrite list_lookup_alter_eq.
    destruct (bs !! p); cbn; [apply Hf|reflexivity].
  - apply hovered_in_alter_ne. exact Hne.
Qed.

Lemma hovered_in_unhover p bs : hovered_in (alter unhover p bs) p = false.
Proof.
  unfold hovered_in. rewrite list_lookup_alter_eq. destruct (bs !! p); reflexivity.
Qed.

Lemma hovered_in_set_true j bs :
  (j < length bs)%nat -> hovered_in (alter (set_hovered true) j bs) j = true.
Proof.
  intros Hj. unfold hovered_in. rewrite list_lookup_alter_eq.
  destruct (lookup_lt_is_Some_2 bs j Hj) as [b ->]. reflexivity.
Qed.

Lemma hitLocal_in_alter_ne (f : Blob -> Blob) p i bs :
  i <> p -> hitLocal_in (alter f p bs) i = hitLocal_in bs i.
Proof.
  intros Hne. unfold hitLocal_in. rewrite list_lookup_alter_ne by congruence. reflexivity.
Qed.

Lemma hitLocal_in_unhover p bs : hitLocal_in (alter unhover p bs) p = None.
Proof.
  unfold hitLocal_in. rewrite list_lookup_alter_eq. destruct (bs !! p); reflexivity.
Qed.

Lemma hovered_in_unhover_previous h i bs :
  h <> Some i -> hovered_in (unhover_previous h bs) i = hovered_in bs i.
Proof.
  intros Hne. destruct h as [p|]; [|reflexivity].
  apply hovered_in_alter_ne. congruence.
Qed.

Lemma length_unhover_previous h bs : length (unhover_previous h bs) = length bs.
Proof. destruct h; [apply length_alter|reflexivity]. Qed.

Lemma find_blob_Some (obj : nat) bs j b :
  find_blob obj bs = Some (j, b) -> bs !! j = Some b /\ hitMesh b = obj.
Proof. intros H. apply list_find_Some in H. tauto. Qed.

(** ** What one pointer move does, case by case *)

Lemma onPointerMove_closed cfg e w :
  panelOpen (panelState w) = false ->
  onPointerMove cfg e w = pointerMove_browse cfg e w.
Proof. intros H. unfold onPointerMove, bind, get. rewrite H. reflexivity. Qed.

Lemma onPointerMove_open cfg e w :
  panelOpen (panelState w) = true ->
  onPointerMove cfg e w = pointerMove_focus e w.
Proof. intros H. unfold onPointerMove, bind, get. rewrite H. reflexivity. Qed.

(** The pointer is over no orb. *)
Lemma browse_leave cfg e w :
  hits e = [] ->
  blobs (exec (pointerMove_browse cfg e) w) = unhover_previous (hoveredBlob w) (blobs w) /\
  hoveredBlob (exec (pointerMove_browse cfg e) w) = None /\
  panelState (exec (pointerMove_browse cfg e) w) = panelState w /\
  effects (exec (pointerMove_browse cfg e) w)
  = effects w ++ match hoveredBlob w with
                 | Some _ => [LabelShow false; CursorNone; NavSync None]
                 | None => []
                 end.
Proof.
  intros He. unfold exec, pointerMove_browse, bind, get. rewrite He.
  destruct (hoveredBlob w) eqn:Hb; cbn.
  - rewrite <- !app_assoc. auto.
  - rewrite app_nil_r. auto.
Qed.

(** The nearest intersection belongs to no blob. *)
Lemma browse_miss cfg e w (hit : Hit) (rest : list Hit) :
  hits e = hit :: rest -> find_blob (object hit) (blobs w) = None ->
  blobs (exec (pointerMove_browse cfg e) w) = blobs w /\
  hoveredBlob (exec (pointerMove_browse cfg e) w) = hoveredBlob w /\
  panelState (exec (pointerMove_browse cfg e) w) = panelState w /\
  effects (exec (pointerMove_browse cfg e) w)
  = effects w ++ [LabelAt (clientX e + 18) (clientY e - 14)].
Proof.
  intros He Hf. unfold exec, pointerMove_browse, bind, get. rewrite He, Hf. cbn. auto.
Qed.

(** The nearest intersection belongs to the blob that is hovered already. *)
Lemma browse_same cfg e w (hit : Hit) (rest : list Hit) j b :
  hits e = hit :: rest -> find_blob (object hit) (blobs w) = Some (j, b) ->
  hoveredBlob w = Some j ->
  blobs (exec (pointerMove_browse cfg e) w) = alter (store_hit hit) j (blobs w) /\
  hoveredBlob (exec (pointerMove_browse cfg e) w) = hoveredBlob w /\
  panelState (exec (pointerMove_browse cfg e) w) = panelState w /\
  effects (exec (pointerMove_browse cfg e) w)
  = effects w ++ [LabelAt (clientX e + 18) (clientY e - 14)].
Proof.
  intros He Hf Hh. unfold exec, pointerMove_browse, bind, get. rewrite He, Hf.
  unfold is_hoveredBlob. rewrite Hh, Nat.eqb_refl. cbn. auto.
Qed.

(** The nearest intersection belongs to a blob other than the hovered one. *)
Lemma browse_enter cfg e w (hit : Hit) (rest : list Hit) j b :
  hits e = hit :: rest -> find_blob (object hit) (blobs w) = Some (j, b) ->
  hoveredBlob w <> Some j ->
  blobs (exec (pointerMove_browse cfg e) w)
  = alter (set_hovered true) j
      (unhover_previous (hoveredBlob w) (alter (store_hit hit) j (blobs w))) /\
  hoveredBlob (exec (pointerMove_browse cfg e) w) = Some j /\
  panelState (exec (pointerMove_browse cfg e) w) = panelState w /\
  effects (exec (pointerMove_browse cfg e) w)
  = effects w ++
    match PROJECTS cfg !! projectIdx b with
    | Some proj =>
        [LabelText (name proj); LabelShow true; CursorNone; PlayHover;
         NavSync (Some (projectIdx b)); LabelAt (clientX e + 18) (clientY e - 14)]
    | None => []
    end.
Proof.
  intros He Hf Hh. unfold exec, pointerMove_browse, bind, get. rewrite He, Hf.
  assert (Hne : is_hoveredBlob w j = false).
  { unfold is_hoveredBlob. destruct (hoveredBlob w) as [p|]; [|reflexivity].
    apply Nat.eqb_neq. congruence. }
  rewrite Hne. unfold hover_transition, bind, get, project_name. cbn.
  destruct (hoveredBlob w) as [p|]; destruct (PROJECTS cfg !! projectIdx b); cbn;
    rewrite <- ?app_assoc, ?app_nil_r; auto.
Qed.

(** Case analysis on a browse-mode pointer move, with the facts of the case
    named [Hbs], [Hhb], [Hps] and [Hfx]. *)
Ltac browse_cases cfg e w :=
  let hit := fresh "hit" in
  let rest := fresh "rest" in
  let j := fresh "j" in
  let b := fresh "b" in
  let He := fresh "He" in
  let Hf := fresh "Hf" in
  let Hj := fresh "Hj" in
  destruct (hits e) as [|hit rest] eqn:He;
  [ pose proof (browse_leave cfg e w He) as (Hbs & Hhb & Hps & Hfx)
  | destruct (find_blob (object hit) (blobs w)) as [[j b]|] eqn:Hf;
    [ destruct (decide (hoveredBlob w = Some j)) as [Hj|Hj];
      [ pose proof (browse_same cfg e w hit rest j b He Hf Hj) as (Hbs & Hhb & Hps & Hfx)
      | pose proof (browse_enter cfg e w hit rest j b He Hf Hj) as (Hbs & Hhb & Hps & Hfx) ]
    | pose proof (browse_miss cfg e w hit rest He Hf) as (Hbs & Hhb & Hps & Hfx) ] ].

Lemma browse_panelState cfg e w :
  panelState (exec (pointerMove_browse cfg e) w) = panelState w.
Proof. browse_cases cfg e w; exact Hps. Qed.

(** ** Invariants of browse mode *)

Lemma browse_tracks cfg e w :
  resolver_tracks w -> resolver_tracks (exec (pointerMove_browse cfg e) w).
Proof.
  intros Inv i. unfold hovered_at.
  browse_cases cfg e w; rewrite Hbs, Hhb.
  - (* leave *)
    intros Hi. exfalso.
    destruct (hoveredBlob w) as [p|] eqn:Hp; cbn [unhover_previous] in Hi.
    + destruct (decide (i = p)) as [->|Hne].
      * rewrite hovered_in_unhover in Hi. discriminate.
      * rewrite hovered_in_alter_ne in Hi by exact Hne.
        apply Inv in Hi. congruence.
    + apply Inv in Hi. congruence.
  - (* same blob *)
    rewrite hovered_in_alter_keep by reflexivity. apply Inv.
  - (* another blob *)
    intros Hi. destruct (decide (i = j)) as [->|Hne]; [reflexivity|exfalso].
    rewrite hovered_in_alter_ne in Hi by exact Hne.
    destruct (hoveredBlob w) as [p|] eqn:Hp; cbn [unhover_previous] in Hi.
    + destruct (decide (i = p)) as [->|Hne'].
      * rewrite hovered_in_unhover in Hi. discriminate.
      * rewrite hovered_in_alter_ne, hovered_in_alter_keep in Hi by (reflexivity || exact Hne').
        apply Inv in Hi. congruence.
    + rewrite hovered_in_alter_keep in Hi by reflexivity.
      apply Inv in Hi. congruence.
  - (* miss *)
    apply Inv.
Qed.

Lemma browse_sound cfg e w :
  resolver_sound w -> resolver_sound (exec (pointerMove_browse cfg e) w).
Proof.
  intros Inv i. unfold hovered_at.
  browse_cases cfg e w; rewrite Hbs, Hhb.
  - discriminate.
  - rewrite hovered_in_alter_keep by reflexivity. apply Inv.
  - intros [= <-]. apply hovered_in_set_true.
    rewrite length_unhover_previous, length_alter.
    apply find_blob_Some in Hf as [Hf _]. apply lookup_lt_Some in Hf. exact Hf.
  - apply Inv.
Qed.

Lemma browse_valid_projects cfg e w :
  valid_projects cfg w -> valid_projects cfg (exec (pointerMove_browse cfg e) w).
Proof.
  unfold valid_projects. intros Hv.
  assert (Hunhover : forall h bs,
             Forall (fun b => (projectIdx b < length (PROJECTS cfg))%nat) bs ->
             Forall (fun b => (projectIdx b < length (PROJECTS cfg))%nat)
                    (unhover_previous h bs)).
  { intros [p|] bs Hbs; [|exact Hbs]. apply Forall_alter; [exact Hbs|]. intros b _ Hb. exact Hb. }
  browse_cases cfg e w; rewrite Hbs.
  - apply Hunhover. exact Hv.
  - apply Forall_alter; [exact Hv|]. intros b' _ Hb. exact Hb.
  - apply Forall_alter; [|intros b' _ Hb; exact Hb].
    apply Hunhover. apply Forall_alter; [exact Hv|]. intros b' _ Hb. exact Hb.
  - exact Hv.
Qed.

(** The facts that hold of every state reached by pointer moves with the
    panel closed. *)
Lemma deliver_browse cfg (es : list PointerEvent) w :
  panelOpen (panelState w) = false ->
  let w' := deliver (onPointerMove cfg) es w in
  panelOpen (panelState w') = false /\
  (resolver_tracks w -> resolver_tracks w') /\
  (resolver_sound w -> resolver_sound w') /\
  (valid_projects cfg w -> valid_projects cfg w').
Proof.
  unfold deliver. revert w.
  induction es as [|e es IH]; intros w Hp; cbn [fold_left]; [tauto|].
  assert (Hstep : exec (onPointerMove cfg e) w = exec (pointerMove_browse cfg e) w).
  { unfold exec. rewrite onPointerMove_closed by exact Hp. reflexivity. }
  rewrite Hstep.
  destruct (IH (exec (pointerMove_browse cfg e) w)) as (H1 & H2 & H3 & H4).
  { rewrite browse_panelState. exact Hp. }
  split; [exact H1|].
  split; [|split]; intros H.
  - apply H2, browse_tracks, H.
  - apply H3, browse_sound, H.
  - apply H4, browse_valid_projects, H.
Qed.

Lemma unhovered_tracks w :
  (forall i, hovered_at w i = false) -> resolver_tracks w.
Proof. intros H i Hi. rewrite H in Hi. discriminate. Qed.

Lemma tracks_exclusive w i j :
  resolver_tracks w -> hovered_at w i = true -> hovered_at w j = true -> i = j.
Proof. intros Inv Hi Hj. apply Inv in Hi, Hj. congruence. Qed.

Lemma nearest_orb_Some e w j :
  nearest_orb e w = Some j ->
  exists hit rest b, hits e = hit :: rest /\ find_blob (object hit) (blobs w) = Some (j, b).
Proof.
  unfold nearest_orb. destruct (hits e) as [|hit rest]; [discriminate|].
  destruct (find_blob (object hit) (blobs w)) as [[j' b]|] eqn:Hf; cbn; [|discriminate].
  intros [= <-]. exists hit, rest, b. auto.
Qed.

(** Moving onto an orb other than the resolver's [hoveredBlob]. *)
Lemma browse_transition cfg e w j :
  nearest_orb e w = Some j -> hoveredBlob w <> Some j ->
  hovered_at (exec (pointerMove_browse cfg e) w) j = true /\
  hoveredBlob (exec (pointerMove_browse cfg e) w) = Some j /\
  forall p, hoveredBlob w = Some p ->
    hovered_at (exec (pointerMove_browse cfg e) w) p = false /\
    hitLocal_at (exec (pointerMove_browse cfg e) w) p = None.
Proof.
  intros Hn Hj.
  destruct (nearest_orb_Some e w j Hn) as (hit & rest & b & He & Hf).
  destruct (browse_enter cfg e w hit rest j b He Hf Hj) as (Hbs & Hhb & _ & _).
  unfold hovered_at, hitLocal_at. rewrite Hbs, Hhb.
  split; [|split; [reflexivity|]].
  - apply hovered_in_set_true.
    rewrite length_unhover_previous, length_alter.
    apply find_blob_Some in Hf as [Hf _]. apply lookup_lt_Some in Hf. exact Hf.
  - intros p Hp. rewrite Hp in *. cbn [unhover_previous].
    assert (Hne : p <> j) by congruence.
    rewrite hovered_in_alter_ne, hitLocal_in_alter_ne by exact Hne.
    split; [apply hovered_in_unhover | apply hitLocal_in_unhover].
Qed.

Lemma hitLocal_in_alter_keep (f : Blob -> Blob) p i bs :
  (forall b, hitLocal (f b) = hitLocal b) ->
  hitLocal_in (alter f p bs) i = hitLocal_in bs i.
Proof.
  intros Hf. destruct (decide (i = p)) as [->|Hne].
  - unfold hitLocal_in. rewrite list_lookup_alter_eq.
    destruct (bs !! p); cbn; [apply Hf|reflexivity].
  - apply hitLocal_in_alter_ne. exact Hne.
Qed.

Lemma browse_length cfg e w :
  length (blobs (exec (pointerMove_browse cfg e) w)) = length (blobs w).
Proof.
  browse_cases cfg e w; rewrite Hbs;
    rewrite ?length_alter, ?length_unhover_previous, ?length_alter; reflexivity.
Qed.

(** ** The hover cue *)

Lemma hover_cues_app (l1 l2 : list Effect) :
  hover_cues (l1 ++ l2) = (hover_cues l1 + hover_cues l2)%nat.
Proof. unfold hover_cues. rewrite List.filter_app, length_app. reflexivity. Qed.

Lemma cues_played_app w w' (new : list Effect) :
  effects w' = effects w ++ new -> cues_played w w' = hover_cues new.
Proof. intros H. unfold cues_played. rewrite H, hover_cues_app. lia. Qed.

(** A pointer move only adds to the trace. *)
Lemma browse_effects_grow cfg e w :
  exists new, effects (exec (pointerMove_browse cfg e) w) = effects w ++ new.
Proof. browse_cases cfg e w; rewrite Hfx; eexists; reflexivity. Qed.

(** A browse-mode pointer move plays the hover cue once when it moves onto
    an orb other than [hoveredBlob], and not at all otherwise. *)
Lemma browse_cues cfg e w :
  valid_projects cfg w ->
  cues_played w (exec (pointerMove_browse cfg e) w)
  = match nearest_orb e w with
    | Some j => if decide (hoveredBlob w = Some j) then 0%nat else 1%nat
    | None => 0%nat
    end.
Proof.
  intros Hv. unfold nearest_orb.
  browse_cases cfg e w; rewrite (cues_played_app _ _ _ Hfx); cbn [fmap option_fmap option_map fst].
  - destruct (hoveredBlob w); reflexivity.
  - rewrite decide_True by exact Hj. reflexivity.
  - rewrite decide_False by exact Hj.
    apply find_blob_Some in Hf as [Hf _].
    assert (Hb : (projectIdx b < length (PROJECTS cfg))%nat).
    { unfold valid_projects in Hv. rewrite Forall_lookup in Hv. exact (Hv j b Hf). }
    destruct (lookup_lt_is_Some_2 _ _ Hb) as [proj ->]. reflexivity.
  - reflexivity.
Qed.

(** After a pointer move whose nearest intersection belongs to orb [j], the
    resolver's [hoveredBlob] is [j]. *)
Lemma browse_hoveredBlob_nearest cfg e w j :
  nearest_orb e w = Some j ->
  hoveredBlob (exec (pointerMove_browse cfg e) w) = Some j.
Proof.
  intros Hn. destruct (nearest_orb_Some e w j Hn) as (hit & rest & b & He & Hf).
  destruct (decide (hoveredBlob w = Some j)) as [Hj|Hj].
  - destruct (browse_same cfg e w hit rest j b He Hf Hj) as (_ & Hhb & _). congruence.
  - destruct (browse_enter cfg e w hit rest j b He Hf Hj) as (_ & Hhb & _). exact Hhb.
Qed.

(** ** Focus mode *)

Lemma focus_other_blobs e w i :
  i <> focusedIdx (panelState w) ->
  blobs (exec (pointerMove_focus e) w) !! i = blobs w !! i.
Proof.
  intros Hne. unfold exec, pointerMove_focus, bind, get.
  destruct (blobs w !! focusedIdx (panelState w)) as [fb|]; [|reflexivity].
  destruct (hits e) as [|hit rest]; [|destruct (Nat.eqb (object hit) (hitMesh fb))];
    cbn; apply list_lookup_alter_ne; congruence.
Qed.

Lemma focus_panelState e w :
  panelState (exec (pointerMove_focus e) w) = panelState w.
Proof.
  unfold exec, pointerMove_focus, bind, get.
  destruct (blobs w !! focusedIdx (panelState w)) as [fb|]; [|reflexivity].
  destruct (hits e) as [|hit rest]; [|destruct (Nat.eqb (object hit) (hitMesh fb))];
    reflexivity.
Qed.

Lemma deliver_focus cfg (es : list PointerEvent) w i :
  panelOpen (panelState w) = true ->
  i <> focusedIdx (panelState w) ->
  blobs (deliver (onPointerMove cfg) es w) !! i = blobs w !! i /\
  panelState (deliver (onPointerMove cfg) es w) = panelState w.
Proof.
  unfold deliver. revert w.
  induction es as [|e es IH]; intros w Hp Hne; cbn [fold_left]; [tauto|].
  assert (Hstep : exec (onPointerMove cfg e) w = exec (pointerMove_focus e) w).
  { unfold exec. rewrite onPointerMove_open by exact Hp. reflexivity. }
  rewrite Hstep.
  destruct (IH (exec (pointerMove_focus e) w)) as [H1 H2].
  - rewrite focus_panelState. exact Hp.
  - rewrite focus_panelState. exact Hne.
  - rewrite H1, H2, focus_panelState, focus_other_blobs by exact Hne. tauto.
Qed.

(** ** The side navigation *)

Lemma initNav_lookup cfg idx (item : NavItem) :
  initNav cfg !! idx = Some item ->
  dataset_idx item = idx /\
  mouseenter item
  = bind (emit PlayHover)
      (fun _ => bind (assign_hovered idx true) (fun _ => emit (NavItemActive idx true))).
Proof.
  unfold initNav. rewrite list_lookup_imap.
  destruct (PROJECTS cfg !! idx) as [proj|]; cbn; [|discriminate].
  intros [= <-]. split; reflexivity.
Qed.

Lemma nav_mouseenter_run idx w :
  (idx < length (blobs w))%nat ->
  bind (emit PlayHover)
    (fun _ => bind (assign_hovered idx true) (fun _ => emit (NavItemActive idx true))) w
  = (inr tt,
     mkWorld (rng w) (alter (set_hovered true) idx (blobs w)) (hoveredBlob w) (navIdx w)
       (panelState w) (effects w ++ [PlayHover; NavItemActive idx true])).
Proof.
  intros Hidx. destruct (lookup_lt_is_Some_2 _ _ Hidx) as [b Hb].
  unfold bind, emit, assign_hovered, modify, get, update_blob. cbn.
  rewrite Hb. cbn. rewrite <- app_assoc. reflexivity.
Qed.

End InteractionFacts.

(** C5: from a state in which no orb is hovered, after any sequence of
    pointer moves with the panel closed at most one orb has [hovered] set;
    a pointer move onto an orb [j] that is not the resolver's [hoveredBlob]
    sets [hovered] of [j], records its hit point, makes [j] the only hovered
    orb and leaves every orb that was hovered with [hovered = false] and
    [hitLocal = null]; and when the resolver held no blob at the start,
    the orb under the pointer is hovered after every move onto an orb. *)
Theorem C5_browse_hover_exclusive (cfg : Config) (w0 : World) (es : list PointerEvent) :
  panelOpen (panelState w0) = false ->
  (forall i, hovered_at w0 i = false) ->
  let w := deliver (onPointerMove cfg) es w0 in
  (forall i j, hovered_at w i = true -> hovered_at w j = true -> i = j) /\
  (forall e j, nearest_orb e w = Some j -> hoveredBlob w <> Some j ->
     let w' := exec (onPointerMove cfg e) w in
     hovered_at w' j = true /\ hitLocal_at w' j <> None /\
     hoveredBlob w' = Some j /\
     (forall i, hovered_at w' i = true -> i = j) /\
     (forall p, hovered_at w p = true ->
        p <> j /\ hovered_at w' p = false /\ hitLocal_at w' p = None)) /\
  (hoveredBlob w0 = None ->
   forall e j, nearest_orb e w = Some j ->
     hovered_at (exec (onPointerMove cfg e) w) j = true).
Proof.
  intros Hp H0 w.
  destruct (deliver_browse cfg es w0 Hp) as (Hpw & Htr & Hso & _).
  fold w in Hpw, Htr, Hso.
  specialize (Htr (unhovered_tracks w0 H0)).
  assert (Hstep : forall e, exec (onPointerMove cfg e) w = exec (pointerMove_browse cfg e) w).
  { intros e. unfold exec. rewrite onPointerMove_closed by exact Hpw. reflexivity. }
  split; [|split].
  - intros i j. apply tracks_exclusive. exact Htr.
  - intros e j Hn Hj w'. subst w'. rewrite Hstep.
    destruct (browse_transition cfg e w j Hn Hj) as (Hhj & Hhb & Hprev).
    split; [exact Hhj|]. split; [|split; [exact Hhb|split]].
    + destruct (nearest_orb_Some e w j Hn) as (hit & rest & b & He & Hf).
      destruct (browse_enter cfg e w hit rest j b He Hf Hj) as (Hbs & _).
      unfold hitLocal_at. rewrite Hbs.
      rewrite hitLocal_in_alter_keep by reflexivity.
      assert (Hstored : hitLocal_in (alter (store_hit hit) j (blobs w)) j <> None).
      { unfold hitLocal_in. rewrite list_lookup_alter_eq.
        apply find_blob_Some in Hf as [-> _]. discriminate. }
      destruct (hoveredBlob w) as [p|]; cbn [unhover_previous]; [|exact Hstored].
      rewrite hitLocal_in_alter_ne by congruence. exact Hstored.
    + intros i Hi. apply (browse_tracks cfg e w Htr) in Hi. congruence.
    + intros p Hhp.
      assert (Hb : hoveredBlob w = Some p) by (apply Htr; exact Hhp).
      split; [congruence|]. apply (Hprev p Hb).
  - intros Hnone e j Hn. rewrite Hstep.
    assert (Hsound : resolver_sound w) by (apply Hso; intros i Hi; congruence).
    destruct (decide (hoveredBlob w = Some j)) as [Hj|Hj].
    + destruct (nearest_orb_Some e w j Hn) as (hit & rest & b & He & Hf).
      destruct (browse_same cfg e w hit rest j b He Hf Hj) as (Hbs & _).
      unfold hovered_at. rewrite Hbs.
      rewrite hovered_in_alter_keep by reflexivity. apply Hsound, Hj.
    + apply (browse_transition cfg e w j Hn Hj).
Qed.

Lemma C5_witness :
  let es := [mkPointerEvent 10 20 [mkHit 0 (0, 0, 0)%R]] in
  let e := mkPointerEvent 30 20 [mkHit 1 (0, 0, 0)%R; mkHit 0 (0, 0, 0)%R] in
  let w := deliver (onPointerMove two_projects) es two_orbs in
  let w' := exec (onPointerMove two_projects e) w in
  panelOpen (panelState two_orbs) = false /\
  (forall i, hovered_at two_orbs i = false) /\
  hovered_at w 0 = true /\ hovered_at w 1 = false /\
  hovered_at w' 0 = false /\ hitLocal_at w' 0 = None /\
  hovered_at w' 1 = true /\ hitLocal_at w' 1 <> None /\
  (forall i, hovered_at w' i = true -> i = 1%nat).
Proof.
  intros es e w w'.
  assert (H0 : forall i, hovered_at two_orbs i = false)
    by (intros [|[|i]]; reflexivity).
  split; [reflexivity|]. split; [exact H0|].
  assert (Hw0 : hovered_at w 0 = true) by reflexivity.
  split; [exact Hw0|]. split; [reflexivity|].
  destruct (C5_browse_hover_exclusive two_projects two_orbs es eq_refl H0)
    as (_ & Hmove & _).
  destruct (Hmove e 1%nat) as (Hj & Hloc & _ & Honly & Hprev).
  - reflexivity.
  - discriminate.
  - destruct (Hprev 0%nat Hw0) as (_ & Hp0 & Hl0).
    repeat split; assumption.
Defined.

(** C6: while the panel is open for orb [k], no sequence of pointer moves,
    whatever the ray hits, changes the blob of any orb other than [k]; in
    particular none of them gets [hovered = true]. *)
Theorem C6_focus_isolation
    (cfg : Config) (w0 : World) (es : list PointerEvent) (k i : nat) :
  panelOpen (panelState w0) = true ->
  focusedIdx (panelState w0) = k ->
  i <> k ->
  let w := deliver (onPointerMove cfg) es w0 in
  blobs w !! i = blobs w0 !! i /\
  hovered_at w i = hovered_at w0 i /\
  (hovered_at w0 i = false -> hovered_at w i = false).
Proof.
  intros Hp Hk Hne w.
  destruct (deliver_focus cfg es w0 i Hp) as [Hb _]; [congruence|].
  fold w in Hb.
  assert (Hh : hovered_at w i = hovered_at w0 i).
  { unfold hovered_at, hovered_in. rewrite Hb. reflexivity. }
  split; [exact Hb|]. split; [exact Hh|]. congruence.
Qed.

Lemma C6_witness :
  let es := [mkPointerEvent 10 20 [mkHit 1 (0, 0, 0)%R; mkHit 0 (0, 0, 0)%R];
             mkPointerEvent 30 20 [mkHit 0 (0, 0, 0)%R]] in
  let w := deliver (onPointerMove two_projects) es two_orbs_focused in
  panelOpen (panelState two_orbs_focused) = true /\
  focusedIdx (panelState two_orbs_focused) = 0%nat /\
  hovered_at w 1 = false.
Proof.
  intros es w. split; [reflexivity|]. split; [reflexivity|].
  apply (C6_focus_isolation two_projects two_orbs_focused es 0 1 eq_refl eq_refl);
    [lia|reflexivity].
Defined.

(** C7: in browse mode, along any sequence of pointer moves from the
    initial page, a pointer move only adds to the trace of effects and plays
    the hover cue once if its nearest-hit orb differs from the currently
    hovered orb and not at all otherwise; a further pointer move hitting the
    same orb plays no further cue. *)
Theorem C7_hover_cue_once_per_transition
    (cfg : Config) (w0 : World) (es : list PointerEvent) (e : PointerEvent) :
  panelOpen (panelState w0) = false ->
  hoveredBlob w0 = None ->
  (forall i, hovered_at w0 i = false) ->
  valid_projects cfg w0 ->
  let w := deliver (onPointerMove cfg) es w0 in
  let w' := exec (onPointerMove cfg e) w in
  (exists new, effects w' = effects w ++ new /\ hover_cues new = cues_played w w') /\
  (forall i, hoveredBlob w = Some i <-> hovered_at w i = true) /\
  (cues_played w w' = 1%nat <->
   exists j, nearest_orb e w = Some j /\ hoveredBlob w <> Some j) /\
  (cues_played w w' = 0%nat <->
   ~ exists j, nearest_orb e w = Some j /\ hoveredBlob w <> Some j) /\
  (forall e2 j, nearest_orb e w = Some j -> nearest_orb e2 w' = Some j ->
     cues_played w' (exec (onPointerMove cfg e2) w') = 0%nat).
Proof.
  intros Hp Hnone H0 Hv w w'.
  destruct (deliver_browse cfg es w0 Hp) as (Hpw & Htr & Hso & Hvw).
  fold w in Hpw, Htr, Hso, Hvw.
  specialize (Htr (unhovered_tracks w0 H0)).
  assert (Hso0 : resolver_sound w0) by (intros i Hi; congruence).
  specialize (Hso Hso0). specialize (Hvw Hv).
  assert (Hw' : w' = exec (pointerMove_browse cfg e) w).
  { subst w'. unfold exec. rewrite onPointerMove_closed by exact Hpw. reflexivity. }
  pose proof (browse_cues cfg e w Hvw) as Hc. rewrite <- Hw' in Hc.
  split; [|split; [|split; [|split]]].
  - destruct (browse_effects_grow cfg e w) as [new Hnew]. rewrite <- Hw' in Hnew.
    exists new. split; [exact Hnew|]. symmetry. apply cues_played_app. exact Hnew.
  - intros i. split; [apply Hso|apply Htr].
  - rewrite Hc. destruct (nearest_orb e w) as [j|].
    + destruct (decide (hoveredBlob w = Some j)) as [Hj|Hj].
      * split; [discriminate|]. intros (j' & [= <-] & Hne). contradiction.
      * split; [|reflexivity]. intros _. exists j. auto.
    + split; [discriminate|]. intros (j' & Hj' & _). discriminate.
  - rewrite Hc. destruct (nearest_orb e w) as [j|].
    + destruct (decide (hoveredBlob w = Some j)) as [Hj|Hj].
      * split; [|reflexivity]. intros _ (j' & [= <-] & Hne). contradiction.
      * split; [discriminate|]. intros Hn. exfalso. apply Hn. exists j. auto.
    + split; [|reflexivity]. intros _ (j' & Hj' & _). discriminate.
  - intros e2 j Hn Hn2.
    assert (Hpw' : panelOpen (panelState w') = false).
    { rewrite Hw', browse_panelState. exact Hpw. }
    assert (Hvw' : valid_projects cfg w').
    { rewrite Hw'. apply browse_valid_projects. exact Hvw. }
    assert (Hhb : hoveredBlob w' = Some j).
    { rewrite Hw'. apply browse_hoveredBlob_nearest. exact Hn. }
    assert (Hstep : exec (onPointerMove cfg e2) w' = exec (pointerMove_browse cfg e2) w').
    { unfold exec. rewrite onPointerMove_closed by exact Hpw'. reflexivity. }
    rewrite Hstep, (browse_cues cfg e2 w' Hvw'), Hn2.
    rewrite decide_True by exact Hhb. reflexivity.
Qed.

Lemma C7_witness :
  let e := mkPointerEvent 10 20 [mkHit 1 (0, 0, 0)%R] in
  let w' := exec (onPointerMove two_projects e) two_orbs in
  panelOpen (panelState two_orbs) = false /\
  hoveredBlob two_orbs = None /\
  (forall i, hovered_at two_orbs i = false) /\
  valid_projects two_projects two_orbs /\
  cues_played two_orbs w' = 1%nat.
Proof.
  intros e w'.
  assert (H0 : forall i, hovered_at two_orbs i = false)
    by (intros [|[|i]]; reflexivity).
  assert (Hv : valid_projects two_projects two_orbs)
    by (repeat constructor; cbn; lia).
  split; [reflexivity|]. split; [reflexivity|]. split; [exact H0|]. split; [exact Hv|].
  apply (C7_hover_cue_once_per_transition two_projects two_orbs [] e eq_refl eq_refl H0 Hv).
  exists 1%nat. split; [reflexivity|discriminate].
Defined.

(** C10: the [mouseenter] listener that [initNav] installs for index [idx]
    plays the hover cue and sets [blobs[idx].hovered], changes no other blob
    and neither [hitLocal] nor the resolver's [hoveredBlob]; it clears no
    orb that was hovered, so a raycast hover on an orb [j] followed by a
    nav-item hover on another orb [idx] leaves both with [hovered = true]. *)
Theorem C10_nav_mouseenter_keeps_hover
    (cfg : Config) (idx : nat) (item : NavItem) (w : World) :
  initNav cfg !! idx = Some item ->
  (idx < length (blobs w))%nat ->
  let w' := exec (mouseenter item) w in
  result (mouseenter item) w = inr tt /\
  hovered_at w' idx = true /\
  effects w' = effects w ++ [PlayHover; NavItemActive idx true] /\
  (forall j, j <> idx -> blobs w' !! j = blobs w !! j) /\
  (forall j, hitLocal_at w' j = hitLocal_at w j) /\
  hoveredBlob w' = hoveredBlob w /\
  (forall e j,
      panelOpen (panelState w) = false ->
      nearest_orb e w = Some j -> hoveredBlob w <> Some j -> j <> idx ->
      let w2 := exec (mouseenter item) (exec (onPointerMove cfg e) w) in
      hovered_at w2 j = true /\ hovered_at w2 idx = true).
Proof.
  intros Hitem Hidx w'.
  destruct (initNav_lookup cfg idx item Hitem) as [_ Hme].
  assert (Hrun : forall w1, (idx < length (blobs w1))%nat ->
            mouseenter item w1
            = (inr tt,
               mkWorld (rng w1) (alter (set_hovered true) idx (blobs w1)) (hoveredBlob w1)
                 (navIdx w1) (panelState w1)
                 (effects w1 ++ [PlayHover; NavItemActive idx true]))).
  { intros w1 H1. rewrite Hme. apply nav_mouseenter_run. exact H1. }
  subst w'. unfold result, exec. rewrite (Hrun w Hidx). cbn [fst snd].
  unfold hovered_at, hitLocal_at. cbn [blobs effects hoveredBlob].
  split; [reflexivity|].
  split; [apply hovered_in_set_true; exact Hidx|].
  split; [reflexivity|].
  split; [intros j Hj; apply list_lookup_alter_ne; congruence|].
  split; [intros j; apply hitLocal_in_alter_keep; reflexivity|].
  split; [reflexivity|].
  intros e j Hp Hn Hj Hne.
  assert (Hstep : snd (onPointerMove cfg e w) = exec (pointerMove_browse cfg e) w).
  { unfold exec. rewrite onPointerMove_closed by exact Hp. reflexivity. }
  rewrite Hstep.
  rewrite (Hrun (exec (pointerMove_browse cfg e) w))
    by (rewrite browse_length; exact Hidx).
  cbn [snd blobs]. split.
  - rewrite hovered_in_alter_ne by exact Hne.
    destruct (browse_transition cfg e w j Hn Hj) as (Hhj & _). exact Hhj.
  - apply hovered_in_set_true. rewrite browse_length. exact Hidx.
Qed.

Lemma C10_witness :
  let e := mkPointerEvent 10 20 [mkHit 0 (0, 0, 0)%R] in
  let w := exec (onPointerMove two_projects e) two_orbs in
  exists item,
    initNav two_projects !! 1%nat = Some item /\
    (1 < length (blobs w))%nat /\
    hovered_at (exec (mouseenter item) w) 0 = true /\
    hovered_at (exec (mouseenter item) w) 1 = true.
Proof.
  intros e w.
  destruct (initNav two_projects !! 1%nat) as [item|] eqn:Hitem; [|discriminate Hitem].
  exists item.
  assert (Hlen : (1 < length (blobs w))%nat).
  { subst w. unfold exec. rewrite onPointerMove_closed by reflexivity.
    change (length (blobs (exec (pointerMove_browse two_projects e) two_orbs)) > 1)%nat.
    rewrite browse_length. cbn. lia. }
  split; [reflexivity|]. split; [exact Hlen|].
  destruct (C10_nav_mouseenter_keeps_hover two_projects 1 item w Hitem Hlen)
    as (_ & H1 & _ & Hother & _).
  split; [|exact H1].
  unfold hovered_at, hovered_in. rewrite (Hother 0%nat) by lia. reflexivity.
Defined.

(* ================================================================== *)
(** * Properties of orb construction *)
(* ================================================================== *)

Section FactoryFacts.

Implicit Types (host : Host) (cfg : Config) (proj : Project) (w : World).

Lemma bind_inr {S A B} (m : JS S A) (k : A -> JS S B) (s s1 : S) (a : A) :
  m s = (inr a, s1) -> bind m k s = k a s1.
Proof. intros H. unfold bind. rewrite H. reflexivity. Qed.

Lemma bind_inl {S A B} (m : JS S A) (k : A -> JS S B) (s s1 : S) (x : Exn) :
  m s = (inl x, s1) -> bind m k s = (inl x, s1).
Proof. intros H. unfold bind. rewrite H. reflexivity. Qed.

Lemma set_rng_id w : set_rng (rng w) w = w.
Proof. destruct w. reflexivity. Qed.

(** ** Steps that only draw random numbers *)

Lemma rand_run w : exists u g, rand w = (inr u, set_rng g w).
Proof. eexists. eexists. reflexivity. Qed.

Lemma rand3_run (f1 f2 f3 : R -> R) w :
  exists v g, rand3 f1 f2 f3 w = (inr v, set_rng g w).
Proof. eexists. eexists. reflexivity. Qed.

Lemma randomCoeffs_run (base amp : jsnum) w :
  exists c g, zoom rng set_rng (randomCoeffs base amp) w = (inr c, set_rng g w).
Proof.
  unfold zoom. rewrite randomCoeffs_unfold. eexists. eexists. reflexivity.
Qed.

Lemma draw_loop_run (n i : nat) w :
  exists g,
    for_loop n i (fun (_ : nat) (acc : unit) => bind rand (fun _ => ret acc)) tt w
    = (inr tt, set_rng g w).
Proof.
  revert i w. induction n as [|n IH]; intros i w; cbn [for_loop].
  - exists (rng w). rewrite set_rng_id. reflexivity.
  - destruct (rand_run w) as (u & g & Hu).
    assert (Hb : bind rand (fun _ => ret tt) w = (inr tt, set_rng g w))
      by (rewrite (bind_inr _ _ _ _ _ Hu); reflexivity).
    rewrite (bind_inr _ _ _ _ _ Hb).
    destruct (IH (S i) (set_rng g w)) as (g' & Hg'). rewrite Hg'.
    exists g'. reflexivity.
Qed.

Lemma makeDottedLabel_run host (text : string) w :
  exists g,
    makeDottedLabel host text w
    = (inr (mkLabel text (canvasDots host text) 0 false), set_rng g w).
Proof.
  unfold makeDottedLabel, for_range.
  destruct (draw_loop_run (canvasDots host text - 0) 0 w) as (g & Hg).
  rewrite (bind_inr _ _ _ _ _ Hg). exists g. reflexivity.
Qed.

Lemma origin_run cfg (idx : nat) w :
  exists o g,
    match ORB_ORIGINS cfg !! idx with
    | Some o => ret o
    | None =>
        rand3 (fun u => ((u - 0.5) * 10)%R) (fun u => ((u - 0.5) * 6)%R)
          (fun u => ((u - 0.5) * 4)%R)
    end w
    = (inr o, set_rng g w).
Proof.
  destruct (ORB_ORIGINS cfg !! idx) as [o|].
  - exists o, (rng w). rewrite set_rng_id. reflexivity.
  - apply rand3_run.
Qed.

(** Replace the first step of a computation by its outcome. *)
Ltac run_step E :=
  lazymatch type of E with
  | bind ?m ?k ?w = _ =>
      let a := fresh "a" in
      let g := fresh "g" in
      let Ha := fresh "Ha" in
      lazymatch m with
      | rand => destruct (rand_run w) as (a & g & Ha)
      | zoom rng set_rng (randomCoeffs ?base ?amp) =>
          destruct (randomCoeffs_run base amp w) as (a & g & Ha)
      | rand3 ?f1 ?f2 ?f3 => destruct (rand3_run f1 f2 f3 w) as (a & g & Ha)
      | makeDottedLabel ?host ?text =>
          destruct (makeDottedLabel_run host text w) as (g & Ha)
      | match ORB_ORIGINS ?cfg !! ?idx with _ => _ end =>
          destruct (origin_run cfg idx w) as (a & g & Ha)
      end;
      rewrite (bind_inr _ _ _ _ _ Ha) in E; clear Ha; cbv beta zeta in E
  end.

Lemma bind_throw {S A B} (x : Exn) (k : A -> JS S B) (s : S) :
  bind (throw x) k s = (inl x, s).
Proof. reflexivity. Qed.

Lemma bind_ret {S A B} (a : A) (k : A -> JS S B) (s : S) : bind (ret a) k s = k a s.
Proof. reflexivity. Qed.

(** A descriptor without a name: [proj.name.toUpperCase()] throws and the
    orb is not built. *)
Lemma createOrb_unnamed host cfg proj (idx : nat) w :
  name proj = None ->
  exists g,
    createOrb host cfg proj idx w
    = (inl (TypeError "Cannot read properties of undefined (reading 'toUpperCase')"),
       set_rng g w).
Proof.
  intros Hname.
  destruct (createOrb host cfg proj idx w) as [r w'] eqn:E.
  unfold createOrb in E.
  do 3 run_step E.
  rewrite Hname in E. cbn [call_toUpperCase] in E.
  rewrite bind_throw in E.
  injection E as <- <-. eexists. reflexivity.
Qed.

(** A descriptor with a name: the orb is appended to [blobs], idle, with a
    label that spells the upper-cased name. *)
Lemma createOrb_named host cfg proj (idx : nat) (s : string) w :
  name proj = Some s ->
  exists b g,
    createOrb host cfg proj idx w = (inr tt, set_blobs (blobs w ++ [b]) (set_rng g w)) /\
    label b = mkLabel (toUpperCase s) (canvasDots host (toUpperCase s)) 0 false /\
    projectIdx b = idx /\
    hitMesh b = length (blobs w) /\
    hovered b = false /\ hitLocal b = None /\
    waveActive b = false /\ waveElapsed b = 0%R /\ uWaveTime b = (-10.0)%R.
Proof.
  intros Hname.
  destruct (createOrb host cfg proj idx w) as [r w'] eqn:E.
  unfold createOrb in E.
  do 3 run_step E.
  rewrite Hname in E. cbn [call_toUpperCase] in E.
  rewrite bind_ret in E. cbv beta zeta in E.
  repeat run_step E.
  unfold modify in E. injection E as <- <-.
  eexists. eexists. split; [reflexivity|].
  cbn. repeat split.
Qed.

(** [createOrbs] on descriptors that all have a name. *)
Lemma forEach_createOrb_named host cfg (projs : list Project) (idx : nat) w :
  Forall named projs ->
  exists new g,
    forEach projs idx (createOrb host cfg) w
    = (inr tt, set_blobs (blobs w ++ new) (set_rng g w)) /\
    length new = length projs /\
    forall i proj, projs !! i = Some proj ->
      exists b s, new !! i = Some b /\ name proj = Some s /\
                  labelPts (label b) = toUpperCase s /\
                  projectIdx b = (idx + i)%nat /\ hovered b = false.
Proof.
  intros Hall. revert idx w.
  induction Hall as [|proj projs Hproj Hall IH]; intros idx w; cbn [forEach].
  - exists [], (rng w). rewrite app_nil_r.
    split; [destruct w; reflexivity|]. split; [reflexivity|].
    intros i proj Hi. discriminate.
  - destruct (name proj) as [s|] eqn:Hname; [|contradiction Hproj; exact Hname].
    destruct (createOrb_named host cfg proj idx s w Hname)
      as (b & g & Hrun & Hlabel & Hidx & _ & Hhov & _).
    rewrite (bind_inr _ _ _ _ _ Hrun).
    destruct (IH (S idx) (set_blobs (blobs w ++ [b]) (set_rng g w)))
      as (new & g' & Hrest & Hlen & Hnew).
    rewrite Hrest. exists (b :: new), g'.
    split; [|split].
    + cbn. rewrite <- app_assoc. reflexivity.
    + cbn. rewrite Hlen. reflexivity.
    + intros [|i] proj' Hi; cbn in Hi.
      * injection Hi as <-. exists b, s. rewrite Hlabel, Hidx, Nat.add_0_r. auto.
      * destruct (Hnew i proj' Hi) as (b' & s' & H1 & H2 & H3 & H4 & H5).
        exists b', s'. rewrite H4. repeat split; try assumption. lia.
Qed.

(** [createOrbs] stops at the first descriptor without a name. *)
Lemma forEach_createOrb_unnamed host cfg (before after : list Project) proj (idx : nat) w :
  Forall named before -> name proj = None ->
  exists new g,
    forEach (before ++ proj :: after) idx (createOrb host cfg) w
    = (inl (TypeError "Cannot read properties of undefined (reading 'toUpperCase')"),
       set_blobs (blobs w ++ new) (set_rng g w)) /\
    length new = length before.
Proof.
  intros Hall Hname. revert idx w.
  induction Hall as [|p before Hp Hall IH]; intros idx w; cbn [forEach app].
  - destruct (createOrb_unnamed host cfg proj idx w Hname) as (g & Hrun).
    rewrite (bind_inl _ _ _ _ _ Hrun). exists [], g.
    rewrite app_nil_r. split; [destruct w; reflexivity|reflexivity].
  - destruct (name p) as [s|] eqn:Hs; [|contradiction Hp; exact Hs].
    destruct (createOrb_named host cfg p idx s w Hs) as (b & g & Hrun & _).
    rewrite (bind_inr _ _ _ _ _ Hrun).
    destruct (IH (S idx) (set_blobs (blobs w ++ [b]) (set_rng g w)))
      as (new & g' & Hrest & Hlen).
    rewrite Hrest. exists (b :: new), g'. split.
    + cbn. rewrite <- app_assoc. reflexivity.
    + cbn. rewrite Hlen. reflexivity.
Qed.

(** Either every descriptor has a name, or there is a first one without. *)
Lemma named_or_first_unnamed (projs : list Project) :
  Forall named projs \/
  exists before proj after,
    projs = before ++ proj :: after /\ Forall named before /\ name proj = None.
Proof.
  induction projs as [|p projs IH]; [left; constructor|].
  destruct (name p) as [s|] eqn:Hp.
  - destruct IH as [Hall|(before & proj & after & -> & Hbefore & Hproj)].
    + left. constructor; [unfold named; congruence|exact Hall].
    + right. exists (p :: before), proj, after.
      split; [reflexivity|]. split; [|exact Hproj].
      constructor; [unfold named; congruence|exact Hbefore].
  - right. exists [], p, projs. split; [reflexivity|]. split; [constructor|exact Hp].
Qed.

(** The page [createOrbs] leaves when it completes on an empty [blobs] is
    the initial page of the hover resolver: every blob names its project
    and no orb is hovered. *)
Lemma createOrbs_page_ready host cfg w :
  blobs w = [] ->
  result (createOrbs host cfg) w = inr tt ->
  valid_projects cfg (exec (createOrbs host cfg) w) /\
  (forall i, hovered_at (exec (createOrbs host cfg) w) i = false) /\
  hoveredBlob (exec (createOrbs host cfg) w) = hoveredBlob w /\
  panelState (exec (createOrbs host cfg) w) = panelState w.
Proof.
  intros Hempty Hres.
  destruct (named_or_first_unnamed (PROJECTS cfg))
    as [Hall|(before & proj & after & Hcfg & Hbefore & Hproj)].
  - destruct (forEach_createOrb_named host cfg (PROJECTS cfg) 0 w Hall)
      as (new & g & Hrun & Hlen & Hnew).
    unfold exec, createOrbs. rewrite Hrun. cbn [snd]. rewrite Hempty. cbn [app].
    assert (Hblob : forall i b, new !! i = Some b ->
              (projectIdx b < length (PROJECTS cfg))%nat /\ hovered b = false).
    { intros i b Hb.
      assert (Hi : (i < length (PROJECTS cfg))%nat)
        by (rewrite <- Hlen; apply lookup_lt_Some in Hb; exact Hb).
      destruct (lookup_lt_is_Some_2 _ _ Hi) as [proj Hproj].
      destruct (Hnew i proj Hproj) as (b' & s & Hb' & _ & _ & Hidx & Hhov).
      assert (b' = b) by congruence. subst b'.
      split; [rewrite Hidx; exact Hi|exact Hhov]. }
    split; [|split; [|split; reflexivity]].
    + unfold valid_projects. cbn [blobs set_blobs].
      apply Forall_lookup. intros i b Hb. apply (Hblob i b Hb).
    + intros i. unfold hovered_at, hovered_in. cbn [blobs set_blobs].
      destruct (new !! i) as [b|] eqn:Hb; [apply (Hblob i b Hb)|reflexivity].
  - destruct (forEach_createOrb_unnamed host cfg before after proj 0 w Hbefore Hproj)
      as (new & g & Hrun & _).
    unfold result, createOrbs in Hres. rewrite Hcfg, Hrun in Hres. discriminate Hres.
Qed.

End FactoryFacts.

(** C8 (as the code has it): when every project descriptor has a name,
    [createOrbs] completes and builds one orb per descriptor whose label
    spells the upper-cased name (the empty label for the empty name); at a
    descriptor whose name is missing, [proj.name.toUpperCase()] throws a
    [TypeError]: the orbs of the descriptors before it are built, that orb
    and the later ones are not. *)
Theorem C8_createOrbs_labels (host : Host) (cfg : Config) (w : World) :
  (Forall named (PROJECTS cfg) ->
   result (createOrbs host cfg) w = inr tt /\
   exists new,
     blobs (exec (createOrbs host cfg) w) = blobs w ++ new /\
     length new = length (PROJECTS cfg) /\
     forall i proj, PROJECTS cfg !! i = Some proj ->
       exists b s, new !! i = Some b /\ name proj = Some s /\
                   labelPts (label b) = toUpperCase s) /\
  (forall before proj after,
      PROJECTS cfg = before ++ proj :: after ->
      Forall named before -> name proj = None ->
      result (createOrbs host cfg) w
      = inl (TypeError "Cannot read properties of undefined (reading 'toUpperCase')") /\
      length (blobs (exec (createOrbs host cfg) w))
      = (length (blobs w) + length before)%nat).
Proof.
  split.
  - intros Hall.
    destruct (forEach_createOrb_named host cfg (PROJECTS cfg) 0 w Hall)
      as (new & g & Hrun & Hlen & Hnew).
    unfold result, exec, createOrbs. rewrite Hrun. cbn [fst snd].
    split; [reflexivity|]. exists new. split; [reflexivity|]. split; [exact Hlen|].
    intros i proj Hi. destruct (Hnew i proj Hi) as (b & s & H1 & H2 & H3 & _).
    exists b, s. auto.
  - intros before proj after Hcfg Hall Hname.
    destruct (forEach_createOrb_unnamed host cfg before after proj 0 w Hall Hname)
      as (new & g & Hrun & Hlen).
    unfold result, exec, createOrbs. rewrite Hcfg, Hrun. cbn [fst snd].
    split; [reflexivity|]. cbn. rewrite length_app, Hlen. reflexivity.
Qed.

Lemma C8_witness :
  Forall named (PROJECTS two_projects) /\
  result (createOrbs identity_host two_projects) empty_world = inr tt.
Proof.
  assert (Hall : Forall named (PROJECTS two_projects))
    by (repeat constructor; discriminate).
  split; [exact Hall|].
  apply (C8_createOrbs_labels identity_host two_projects empty_world). exact Hall.
Defined.

(** C8 as stated fails: for a single descriptor without a name [createOrbs]
    throws and builds no orb, so there is no label, empty or other. *)
Lemma C8_counterexample :
  let cfg := mkConfig [mkProject None] [] in
  result (createOrbs identity_host cfg) empty_world
  = inl (TypeError "Cannot read properties of undefined (reading 'toUpperCase')") /\
  blobs (exec (createOrbs identity_host cfg) empty_world) = [].
Proof.
  intros cfg.
  destruct (forEach_createOrb_unnamed identity_host cfg [] [] (mkProject None) 0 empty_world)
    as (new & g & Hrun & Hlen); [constructor|reflexivity|].
  unfold result, exec, createOrbs. cbn [PROJECTS cfg].
  change ([] ++ [mkProject None]) with [mkProject None] in Hrun.
  rewrite Hrun. cbn [fst snd]. split; [reflexivity|].
  destruct new; [reflexivity|discriminate Hlen].
Qed.

(* ================================================================== *)
(** * Further properties of the spherical-harmonics evaluator *)
(* ================================================================== *)

Section HarmonicsMore.

Local Open Scope R_scope.

Lemma jsadd_NaN_l (x : jsnum) : (NaN + x)%js = NaN.
Proof. reflexivity. Qed.

Lemma jsadd_NaN_r (x : jsnum) : (x + NaN)%js = NaN.
Proof. destruct x; reflexivity. Qed.

Lemma jsmul_NaN_l (x : jsnum) : (NaN * x)%js = NaN.
Proof. reflexivity. Qed.

Lemma jsmul_NaN_r (x : jsnum) : (x * NaN)%js = NaN.
Proof. destruct x; reflexivity. Qed.

(** Once the running sum is [NaN] it stays [NaN]. *)
Lemma sh_loop_NaN (theta phi : jsnum) (coeffs : list jsnum) (idxs : list nat) :
  fold_left (fun r i => (r + aget coeffs i * Y_call i theta phi)%js) idxs NaN = NaN.
Proof. induction idxs as [|i idxs IH]; [reflexivity|exact IH]. Qed.

(** The loop reads [coeffs] only at the indices it runs over. *)
Lemma sh_loop_ext (theta phi : jsnum) (c1 c2 : list jsnum) (idxs : list nat) (r : jsnum) :
  (forall i, In i idxs -> aget c1 i = aget c2 i) ->
  fold_left (fun r i => (r + aget c1 i * Y_call i theta phi)%js) idxs r
  = fold_left (fun r i => (r + aget c2 i * Y_call i theta phi)%js) idxs r.
Proof.
  revert r. induction idxs as [|i idxs IH]; intros r Hext; [reflexivity|].
  cbn [fold_left]. rewrite (Hext i) by (left; reflexivity).
  apply IH. intros k Hk. apply Hext. right. exact Hk.
Qed.

Lemma aget_take (n i : nat) (c : list jsnum) :
  (i < n)%nat -> aget (take n c) i = aget c i.
Proof. intros Hi. unfold aget. rewrite lookup_take_lt by exact Hi. reflexivity. Qed.

Lemma aget_short (c : list jsnum) (i : nat) : (length c <= i)%nat -> aget c i = NaN.
Proof. intros Hi. unfold aget. rewrite lookup_ge_None_2 by exact Hi. reflexivity. Qed.

(** X1: [shDeform] reads exactly the entries 0..11 of [coeffs]: later entries
    do not matter, and a missing one makes the result [NaN] whatever the
    angles are. *)
Theorem shDeform_reads_twelve (theta phi : jsnum) (c1 c2 : list jsnum) :
  (take 12 c1 = take 12 c2 -> shDeform theta phi c1 = shDeform theta phi c2) /\
  ((length c1 < 12)%nat -> shDeform theta phi c1 = NaN).
Proof.
  split.
  - intros Htake. unfold shDeform. apply sh_loop_ext.
    intros i Hi. apply in_seq in Hi. change N_COEFFS with 12%nat in Hi.
    rewrite <- (aget_take 12 i c1), <- (aget_take 12 i c2) by lia.
    rewrite Htake. reflexivity.
  - intros Hlen. unfold shDeform. change N_COEFFS with 12%nat.
    replace 12%nat with (length c1 + S (11 - length c1))%nat by lia.
    rewrite seq_app, fold_left_app. cbn [seq fold_left Nat.add].
    rewrite (aget_short c1 (length c1)) by lia.
    rewrite jsmul_NaN_l, jsadd_NaN_r. apply sh_loop_NaN.
Qed.

Lemma shDeform_reads_twelve_witness :
  shDeform (Num 1) (Num 2) (repeat (Num 1) 12 ++ [NaN; Num 7])
  = shDeform (Num 1) (Num 2) (repeat (Num 1) 12) /\
  shDeform (Num 1) (Num 2) (repeat (Num 1) 5) = NaN.
Proof.
  split.
  - apply (shDeform_reads_twelve (Num 1) (Num 2)). reflexivity.
  - apply (shDeform_reads_twelve (Num 1) (Num 2) _ []). cbn. lia.
Defined.

(** The sum [shDeform] computes for finite angles and twelve finite
    coefficients, term by term. *)
Lemma shDeform_terms (t p c0 c1 c2 c3 c4 c5 c6 c7 c8 c9 c10 c11 : R) :
  shDeform (Num t) (Num p) (map Num [c0; c1; c2; c3; c4; c5; c6; c7; c8; c9; c10; c11])
  = Num (c0 * 0.2820947917
         + c1 * (0.4886025119 * sin t * sin p)
         + c2 * (0.4886025119 * cos t)
         + c3 * (0.4886025119 * sin t * cos p)
         + c4 * (0.5462742153 * (sin t) ^ 2 * sin (2 * p))
         + c5 * (0.5462742153 * sin t * cos t * sin p)
         + c6 * (0.3153915653 * (3 * (cos t) ^ 2 - 1))
         + c7 * (0.5462742153 * sin t * cos t * cos p)
         + c8 * (0.5462742153 * (sin t) ^ 2 * cos (2 * p))
         + c9 * (0.4570457995 * sin t * (5 * (cos t) ^ 2 - 1) * sin p)
         + c10 * (0.3731763326 * (5 * (cos t) ^ 3 - 3 * cos t))
         + c11 * (0.4570457995 * sin t * (5 * (cos t) ^ 2 - 1) * cos p)).
Proof.
  unfold shDeform. cbn -[pow]. f_equal. ring.
Qed.

Lemma length_12_inv {A} (l : list A) :
  length l = 12%nat ->
  exists a0 a1 a2 a3 a4 a5 a6 a7 a8 a9 a10 a11,
    l = [a0; a1; a2; a3; a4; a5; a6; a7; a8; a9; a10; a11].
Proof.
  intros H. do 13 (destruct l as [|? l]; try discriminate H).
  do 12 eexists. reflexivity.
Qed.



End HarmonicsMore.

Section HarmonicsBounds.

Local Open Scope R_scope.

Lemma Rabs_sin_le (x : R) : Rabs (sin x) <= 1.
Proof. apply Rabs_le. apply SIN_bound. Qed.

Lemma Rabs_cos_le (x : R) : Rabs (cos x) <= 1.
Proof. apply Rabs_le. apply COS_bound. Qed.

Lemma Rabs_mult_le (a b A B : R) :
  Rabs a <= A -> Rabs b <= B -> Rabs (a * b) <= A * B.
Proof.
  intros Ha Hb. rewrite Rabs_mult.
  apply Rmult_le_compat; try apply Rabs_pos; assumption.
Qed.

Lemma Rabs_le_range (a b : R) : Rabs a <= b -> - b <= a <= b.
Proof. unfold Rabs. destruct (Rcase_abs a); lra. Qed.

Lemma Rabs_const (k : R) : 0 <= k -> Rabs k <= k.
Proof. intros Hk. rewrite Rabs_pos_eq by exact Hk. lra. Qed.

Lemma cos_sq_range (x : R) : 0 <= (cos x) ^ 2 <= 1.
Proof. pose proof (COS_bound x). nra. Qed.

Lemma sin_sq_range (x : R) : 0 <= (sin x) ^ 2 <= 1.
Proof. pose proof (SIN_bound x). nra. Qed.

Lemma cos_cube_range (x : R) : -1 <= (cos x) ^ 3 <= 1.
Proof.
  pose proof (COS_bound x) as Hc. pose proof (cos_sq_range x) as Hs.
  replace ((cos x) ^ 3) with (cos x * (cos x) ^ 2) by ring. nra.
Qed.

Ltac prod_bound := first [assumption | apply Rabs_mult_le; prod_bound].

(** Each basis function stays within its entry of [Y_bounds]. *)
Lemma Y_terms_bounded (t p : R) :
  Rabs (0.4886025119 * sin t * sin p) <= 0.4886025119 /\
  Rabs (0.4886025119 * cos t) <= 0.4886025119 /\
  Rabs (0.4886025119 * sin t * cos p) <= 0.4886025119 /\
  Rabs (0.5462742153 * (sin t) ^ 2 * sin (2 * p)) <= 0.5462742153 /\
  Rabs (0.5462742153 * sin t * cos t * sin p) <= 0.5462742153 /\
  Rabs (0.3153915653 * (3 * (cos t) ^ 2 - 1)) <= 0.6307831306 /\
  Rabs (0.5462742153 * sin t * cos t * cos p) <= 0.5462742153 /\
  Rabs (0.5462742153 * (sin t) ^ 2 * cos (2 * p)) <= 0.5462742153 /\
  Rabs (0.4570457995 * sin t * (5 * (cos t) ^ 2 - 1) * sin p) <= 1.828183198 /\
  Rabs (0.3731763326 * (5 * (cos t) ^ 3 - 3 * cos t)) <= 2.9854106608 /\
  Rabs (0.4570457995 * sin t * (5 * (cos t) ^ 2 - 1) * cos p) <= 1.828183198.
Proof.
  pose proof (Rabs_sin_le t) as Hst. pose proof (Rabs_cos_le t) as Hct.
  pose proof (Rabs_sin_le p) as Hsp. pose proof (Rabs_cos_le p) as Hcp.
  pose proof (Rabs_sin_le (2 * p)) as Hs2. pose proof (Rabs_cos_le (2 * p)) as Hc2.
  pose proof (cos_sq_range t) as Hcc. pose proof (sin_sq_range t) as Hss.
  pose proof (cos_cube_range t) as Hc3. pose proof (COS_bound t) as Hcb.
  assert (Hss' : Rabs ((sin t) ^ 2) <= 1) by (apply Rabs_le; lra).
  assert (H5 : Rabs (5 * (cos t) ^ 2 - 1) <= 4) by (apply Rabs_le; lra).
  assert (K1 : Rabs 0.4886025119 <= 0.4886025119) by (apply Rabs_const; lra).
  assert (K2 : Rabs 0.5462742153 <= 0.5462742153) by (apply Rabs_const; lra).
  assert (K3 : Rabs 0.4570457995 <= 0.4570457995) by (apply Rabs_const; lra).
  repeat split.
  - replace 0.4886025119 with (0.4886025119 * 1 * 1) at 2 by ring.
    prod_bound.
  - replace 0.4886025119 with (0.4886025119 * 1) at 2 by ring.
    prod_bound.
  - replace 0.4886025119 with (0.4886025119 * 1 * 1) at 2 by ring.
    prod_bound.
  - replace 0.5462742153 with (0.5462742153 * 1 * 1) at 2 by ring.
    prod_bound.
  - replace 0.5462742153 with (0.5462742153 * 1 * 1 * 1) at 2 by ring.
    prod_bound.
  - apply Rabs_le. lra.
  - replace 0.5462742153 with (0.5462742153 * 1 * 1 * 1) at 2 by ring.
    prod_bound.
  - replace 0.5462742153 with (0.5462742153 * 1 * 1) at 2 by ring.
    prod_bound.
  - replace 1.828183198 with (0.4570457995 * 1 * 4 * 1) by lra.
    prod_bound.
  - apply Rabs_le. lra.
  - replace 1.828183198 with (0.4570457995 * 1 * 4 * 1) by lra.
    prod_bound.
Qed.

Lemma term_range (c y k : R) :
  Rabs y <= k -> - (Rabs c * k) <= c * y <= Rabs c * k.
Proof.
  intros Hy.
  assert (H : Rabs (c * y) <= Rabs c * k).
  { rewrite Rabs_mult. apply Rmult_le_compat_l; [apply Rabs_pos|exact Hy]. }
  apply Rabs_le_range in H. lra.
Qed.

(** The displacement is the constant term plus a remainder bounded by the
    weighted magnitudes of the higher coefficients. *)
Lemma shDeform_remainder (t p c0 : R) (cs : list R) :
  length cs = 11%nat ->
  exists r,
    shDeform (Num t) (Num p) (map Num (c0 :: cs)) = Num r /\
    Rabs (r - c0 * 0.2820947917) <= weighted_bound cs (tail Y_bounds).
Proof.
  intros Hlen.
  destruct (length_12_inv (c0 :: cs)) as (a0&c1&c2&c3&c4&c5&c6&c7&c8&c9&c10&c11&E);
    [cbn; lia|].
  injection E as <- ->.
  rewrite shDeform_terms. eexists. split; [reflexivity|].
  destruct (Y_terms_bounded t p) as (B1&B2&B3&B4&B5&B6&B7&B8&B9&B10&B11).
  pose proof (term_range c1 _ _ B1). pose proof (term_range c2 _ _ B2).
  pose proof (term_range c3 _ _ B3). pose proof (term_range c4 _ _ B4).
  pose proof (term_range c5 _ _ B5). pose proof (term_range c6 _ _ B6).
  pose proof (term_range c7 _ _ B7). pose proof (term_range c8 _ _ B8).
  pose proof (term_range c9 _ _ B9). pose proof (term_range c10 _ _ B10).
  pose proof (term_range c11 _ _ B11).
  apply Rabs_le. cbn [weighted_bound tail Y_bounds]. split; lra.
Qed.



(** What [randomCoeffs] draws: the base and eleven numbers whose weighted
    magnitudes add up to at most [2.3369 * amp]. *)
Lemma randomCoeffs_weighted (base amp : R) (g : Rng) :
  0 <= amp -> (forall n, 0 <= draws g n < 1) ->
  exists cs g',
    randomCoeffs (Num base) (Num amp) g = (inr (map Num (base :: cs)), g') /\
    draws g' = draws g /\ length cs = 11%nat /\
    weighted_bound cs (tail Y_bounds) <= 2.3369 * amp.
Proof.
  intros Hamp Hd.
  rewrite randomCoeffs_unfold. cbn zeta.
  set (u := fun k : nat => draws g (k + cursor g)).
  assert (Hu : forall k, 0 <= u k < 1) by (intros k; apply Hd).
  exists [ (u 0%nat - 0.5) * amp * 0.45; (u 1%nat - 0.5) * amp * 0.45;
           (u 2%nat - 0.5) * amp * 0.45;
           (u 3%nat - 0.5) * amp * 0.60; (u 4%nat - 0.5) * amp * 0.60;
           (u 5%nat - 0.5) * amp * 0.60; (u 6%nat - 0.5) * amp * 0.60;
           (u 7%nat - 0.5) * amp * 0.60;
           (u 8%nat - 0.5) * amp * 0.35; (u 9%nat - 0.5) * amp * 0.35;
           (u 10%nat - 0.5) * amp * 0.35 ].
  eexists. split; [reflexivity|]. split; [reflexivity|]. split; [reflexivity|].
  cbn [weighted_bound tail Y_bounds].
  pose proof (band_bound (u 0%nat) amp 0.45 (Hu _) Hamp ltac:(lra)).
  pose proof (band_bound (u 1%nat) amp 0.45 (Hu _) Hamp ltac:(lra)).
  pose proof (band_bound (u 2%nat) amp 0.45 (Hu _) Hamp ltac:(lra)).
  pose proof (band_bound (u 3%nat) amp 0.60 (Hu _) Hamp ltac:(lra)).
  pose proof (band_bound (u 4%nat) amp 0.60 (Hu _) Hamp ltac:(lra)).
  pose proof (band_bound (u 5%nat) amp 0.60 (Hu _) Hamp ltac:(lra)).
  pose proof (band_bound (u 6%nat) amp 0.60 (Hu _) Hamp ltac:(lra)).
  pose proof (band_bound (u 7%nat) amp 0.60 (Hu _) Hamp ltac:(lra)).
  pose proof (band_bound (u 8%nat) amp 0.35 (Hu _) Hamp ltac:(lra)).
  pose proof (band_bound (u 9%nat) amp 0.35 (Hu _) Hamp ltac:(lra)).
  pose proof (band_bound (u 10%nat) amp 0.35 (Hu _) Hamp ltac:(lra)).
  lra.
Qed.

(** The radius for coefficients of that weight, at any angles. *)
Lemma radius_range (baseR theta phi : R) (cs : list R) :
  0 <= baseR -> length cs = 11%nat ->
  weighted_bound cs (tail Y_bounds) <= 2.3369 * (baseR * 0.35) ->
  exists r,
    (Num baseR + shDeform (Num theta) (Num phi) (map Num (baseR :: cs)))%js = Num r /\
    0.46 * baseR <= r <= 2.11 * baseR.
Proof.
  intros Hb Hlen Hw.
  destruct (shDeform_remainder theta phi baseR cs Hlen) as (r & Hr & Hrem).
  exists (baseR + r). split; [rewrite Hr; reflexivity|].
  apply Rabs_le_range in Hrem. lra.
Qed.



End HarmonicsBounds.

(* ================================================================== *)
(** * Properties of the spherical-harmonics evaluator within the range of
      doubles *)
(* ================================================================== *)

Section HarmonicsRange.

Local Open Scope R_scope.

Lemma overflow_in (r : R) : Rabs r <= MAX_VALUE -> overflow r = Fin r.
Proof.
  intros H. apply Rabs_le_range in H. unfold overflow.
  destruct (Rlt_dec MAX_VALUE r); [lra|].
  destruct (Rlt_dec r (- MAX_VALUE)); [lra|reflexivity].
Qed.

Lemma overflow_above (r : R) : MAX_VALUE < r -> overflow r = PosInf.
Proof. intros H. unfold overflow. destruct (Rlt_dec MAX_VALUE r); [reflexivity|lra]. Qed.

Lemma bnd_add (a b A B : R) : Rabs a <= A -> Rabs b <= B -> Rabs (a + b) <= A + B.
Proof. intros Ha Hb. eapply Rle_trans; [apply Rabs_triang|lra]. Qed.

Lemma bnd_opp (a A : R) : Rabs a <= A -> Rabs (- a) <= A.
Proof. rewrite Rabs_Ropp. auto. Qed.

Lemma bnd_one : Rabs 1 <= 1.
Proof. rewrite Rabs_R1. lra. Qed.

(** A bound on the magnitude of an expression built from constants, sines,
    cosines and bounded variables. *)
Ltac bnd :=
  first
    [ eassumption
    | apply Rabs_sin_le
    | apply Rabs_cos_le
    | apply bnd_one
    | apply Rabs_const; lra
    | eapply bnd_opp; bnd
    | eapply Rabs_mult_le; bnd
    | eapply bnd_add; bnd ].

(** The expression stays in the range of doubles. *)
Ltac in_range :=
  eapply Rle_trans; [bnd|unfold MAX_VALUE; lra].

(** Evaluate a double expression all of whose operations stay in range. *)
Ltac eval_double :=
  repeat (cbn [dadd dsub dneg dmul dpow dsin dcos];
          rewrite overflow_in by in_range).

(** The basis functions at finite angles: no operation overflows when
    [2 * phi] is in range. *)
Lemma Y_double_values (t p : R) :
  Rabs p <= 1e307 ->
  HarmonicsDouble.Y_call 0 (Fin t) (Fin p) = Fin 0.2820947917 /\
  HarmonicsDouble.Y_call 1 (Fin t) (Fin p) = Fin (0.4886025119 * sin t * sin p) /\
  HarmonicsDouble.Y_call 2 (Fin t) (Fin p) = Fin (0.4886025119 * cos t) /\
  HarmonicsDouble.Y_call 3 (Fin t) (Fin p) = Fin (0.4886025119 * sin t * cos p) /\
  HarmonicsDouble.Y_call 4 (Fin t) (Fin p)
  = Fin (0.5462742153 * (sin t) ^ 2 * sin (2 * p)) /\
  HarmonicsDouble.Y_call 5 (Fin t) (Fin p) = Fin (0.5462742153 * sin t * cos t * sin p) /\
  HarmonicsDouble.Y_call 6 (Fin t) (Fin p) = Fin (0.3153915653 * (3 * (cos t) ^ 2 - 1)) /\
  HarmonicsDouble.Y_call 7 (Fin t) (Fin p) = Fin (0.5462742153 * sin t * cos t * cos p) /\
  HarmonicsDouble.Y_call 8 (Fin t) (Fin p)
  = Fin (0.5462742153 * (sin t) ^ 2 * cos (2 * p)) /\
  HarmonicsDouble.Y_call 9 (Fin t) (Fin p)
  = Fin (0.4570457995 * sin t * (5 * (cos t) ^ 2 - 1) * sin p) /\
  HarmonicsDouble.Y_call 10 (Fin t) (Fin p)
  = Fin (0.3731763326 * (5 * (cos t) ^ 3 - 3 * cos t)) /\
  HarmonicsDouble.Y_call 11 (Fin t) (Fin p)
  = Fin (0.4570457995 * sin t * (5 * (cos t) ^ 2 - 1) * cos p).
Proof.
  intros Hp.
  repeat split; unfold HarmonicsDouble.Y_call;
    cbn [HarmonicsDouble.Y lookup list_lookup]; eval_double; f_equal; ring.
Qed.


(** C9 (as the code has it): for a finite [theta], a [phi] of magnitude at
    most 1e307 and twelve coefficients of magnitude at most 1e307, no
    operation of [shDeform] overflows: it returns the finite number
    [c0 * Y_0^0 + ... + c11 * Y_3^1(theta, phi)], a function of its arguments
    alone, and the embedding over real numbers gives the same number. *)
Theorem C9_shDeform_finite_deterministic
    (theta phi c0 c1 c2 c3 c4 c5 c6 c7 c8 c9 c10 c11 : R) :
  let cs := [c0; c1; c2; c3; c4; c5; c6; c7; c8; c9; c10; c11] in
  let r := c0 * 0.2820947917
         + c1 * (0.4886025119 * sin theta * sin phi)
         + c2 * (0.4886025119 * cos theta)
         + c3 * (0.4886025119 * sin theta * cos phi)
         + c4 * (0.5462742153 * (sin theta) ^ 2 * sin (2 * phi))
         + c5 * (0.5462742153 * sin theta * cos theta * sin phi)
         + c6 * (0.3153915653 * (3 * (cos theta) ^ 2 - 1))
         + c7 * (0.5462742153 * sin theta * cos theta * cos phi)
         + c8 * (0.5462742153 * (sin theta) ^ 2 * cos (2 * phi))
         + c9 * (0.4570457995 * sin theta * (5 * (cos theta) ^ 2 - 1) * sin phi)
         + c10 * (0.3731763326 * (5 * (cos theta) ^ 3 - 3 * cos theta))
         + c11 * (0.4570457995 * sin theta * (5 * (cos theta) ^ 2 - 1) * cos phi) in
  Rabs phi <= 1e307 ->
  Forall (fun c => Rabs c <= 1e307) cs ->
  HarmonicsDouble.shDeform (Fin theta) (Fin phi) (map Fin cs) = Fin r /\
  shDeform (Num theta) (Num phi) (map Num cs) = Num r.
Proof.
  intros cs r Hphi Hcs. subst cs r. split; [|apply shDeform_terms].
  repeat match goal with
         | H : Forall _ (_ :: _) |- _ =>
             let Hc := fresh "Hc" in apply Forall_cons in H; destruct H as [Hc H]
         end.
  cbv beta in *.
  destruct (Y_double_values theta phi Hphi)
    as (E0 & E1 & E2 & E3 & E4 & E5 & E6 & E7 & E8 & E9 & E10 & E11).
  destruct (Y_terms_bounded theta phi) as (B1&B2&B3&B4&B5&B6&B7&B8&B9&B10&B11).
  assert (B0 : Rabs 0.2820947917 <= 0.2820947917) by (apply Rabs_const; lra).
  pose proof (Rabs_mult_le _ _ _ _ Hc B0) as T0.
  pose proof (Rabs_mult_le _ _ _ _ Hc0 B1) as T1.
  pose proof (Rabs_mult_le _ _ _ _ Hc1 B2) as T2.
  pose proof (Rabs_mult_le _ _ _ _ Hc2 B3) as T3.
  pose proof (Rabs_mult_le _ _ _ _ Hc3 B4) as T4.
  pose proof (Rabs_mult_le _ _ _ _ Hc4 B5) as T5.
  pose proof (Rabs_mult_le _ _ _ _ Hc5 B6) as T6.
  pose proof (Rabs_mult_le _ _ _ _ Hc6 B7) as T7.
  pose proof (Rabs_mult_le _ _ _ _ Hc7 B8) as T8.
  pose proof (Rabs_mult_le _ _ _ _ Hc8 B9) as T9.
  pose proof (Rabs_mult_le _ _ _ _ Hc9 B10) as T10.
  pose proof (Rabs_mult_le _ _ _ _ Hc10 B11) as T11.
  clear Hc Hc0 Hc1 Hc2 Hc3 Hc4 Hc5 Hc6 Hc7 Hc8 Hc9 Hc10
        B0 B1 B2 B3 B4 B5 B6 B7 B8 B9 B10 B11 Hphi.
  unfold HarmonicsDouble.shDeform.
  change HarmonicsDouble.N_COEFFS with 12%nat.
  cbn [seq fold_left dget map fmap list_fmap lookup list_lookup].
  rewrite E0, E1, E2, E3, E4, E5, E6, E7, E8, E9, E10, E11.
  eval_double. f_equal. ring.
Qed.

Lemma C9_witness :
  Rabs 2 <= 1e307 /\
  Forall (fun c => Rabs c <= 1e307) [1; 0; 0; 0; 0; 0; 0; 0; 0; 0; 0; 2] /\
  exists r : R,
    HarmonicsDouble.shDeform (Fin 1) (Fin 2) (map Fin [1; 0; 0; 0; 0; 0; 0; 0; 0; 0; 0; 2])
    = Fin r.
Proof.
  assert (H0 : Rabs 0 <= 1e307) by (rewrite Rabs_R0; lra).
  assert (H1 : Rabs 1 <= 1e307) by (rewrite Rabs_R1; lra).
  assert (H2 : Rabs 2 <= 1e307) by (rewrite Rabs_pos_eq; lra).
  assert (Hcs : Forall (fun c => Rabs c <= 1e307) [1; 0; 0; 0; 0; 0; 0; 0; 0; 0; 0; 2])
    by (repeat (constructor; [assumption|]); constructor).
  split; [exact H2|]. split; [exact Hcs|].
  eexists. apply (C9_shDeform_finite_deterministic 1 2 1 0 0 0 0 0 0 0 0 0 0 2 H2 Hcs).
Defined.

(** C9 as stated fails: finite coefficients near the top of the range make
    the sum overflow to [Infinity], and a finite [phi] whose double
    overflows makes [Math.sin(2 * phi)], and with it the result, NaN, also
    with every coefficient zero. *)
Lemma C9_counterexample :
  let big := 1.7e308 in
  let cs := [big; 0; big; 0; 0; 0; big; 0; 0; 0; 0; 0] in
  Forall (fun c => Rabs c <= MAX_VALUE) cs /\
  HarmonicsDouble.shDeform (Fin 0) (Fin 0) (map Fin cs) = PosInf /\
  Rabs 1e308 <= MAX_VALUE /\
  HarmonicsDouble.shDeform (Fin 0) (Fin 1e308) (map Fin (repeat 0 12)) = NotNum.
Proof.
  intros big cs. subst big cs.
  assert (H0 : Rabs 0 <= 1e307) by (rewrite Rabs_R0; lra).
  split; [|split; [|split]].
  - repeat (constructor;
              [first [rewrite Rabs_R0; unfold MAX_VALUE; lra
                     |rewrite Rabs_pos_eq by lra; unfold MAX_VALUE; lra]|]).
    constructor.
  - destruct (Y_double_values 0 0 H0)
      as (E0 & E1 & E2 & E3 & E4 & E5 & E6 & E7 & E8 & E9 & E10 & E11).
    unfold HarmonicsDouble.shDeform.
    change HarmonicsDouble.N_COEFFS with 12%nat.
    cbn [seq fold_left dget map fmap list_fmap lookup list_lookup].
    rewrite E0, E1, E2, E3, E4, E5, E6, E7, E8, E9, E10, E11.
    rewrite ?sin_0, ?cos_0.
    eval_double.
    rewrite overflow_above by (unfold MAX_VALUE; lra).
    eval_double. reflexivity.
  - rewrite Rabs_pos_eq by lra. unfold MAX_VALUE. lra.
  - unfold HarmonicsDouble.shDeform, HarmonicsDouble.Y_call.
    change HarmonicsDouble.N_COEFFS with 12%nat.
    cbn [seq fold_left dget repeat map fmap list_fmap lookup list_lookup HarmonicsDouble.Y].
    eval_double.
    rewrite overflow_above by (unfold MAX_VALUE; lra).
    eval_double. reflexivity.
Qed.

End HarmonicsRange.

(* ================================================================== *)
(** * Further properties of the morph engine *)
(* ================================================================== *)

Section MorphMore.

Local Open Scope R_scope.

(** X5: [morphGeo] overwrites every vertex: what the buffer held before does
    not matter, only how many vertices it has; so morphing twice with the
    same arguments is morphing once. *)
Theorem morphGeo_overwrites
    (g1 g2 : BufferGeometry) (unitAngles coeffs : list jsnum) (baseR : jsnum) :
  count (position g1) = count (position g2) ->
  morphGeo g1 unitAngles coeffs baseR = morphGeo g2 unitAngles coeffs baseR /\
  morphGeo (morphGeo g1 unitAngles coeffs baseR) unitAngles coeffs baseR
  = morphGeo g1 unitAngles coeffs baseR.
Proof.
  assert (Hsame : forall h1 h2, count (position h1) = count (position h2) ->
            morphGeo h1 unitAngles coeffs baseR = morphGeo h2 unitAngles coeffs baseR).
  { intros h1 h2 Hc. unfold morphGeo. cbv zeta. unfold set_needsUpdate.
    do 2 f_equal. apply list_eq. intros i.
    destruct (decide (i < count (position h1))%nat) as [Hi|Hi].
    - rewrite !morph_loop_inside by lia. reflexivity.
    - rewrite !lookup_ge_None_2; [reflexivity| |].
      + change (count (morph_loop unitAngles coeffs baseR 0
                         (count (position h2)) (position h2)) <= i)%nat.
        rewrite morph_loop_count. lia.
      + change (count (morph_loop unitAngles coeffs baseR 0
                         (count (position h1)) (position h1)) <= i)%nat.
        rewrite morph_loop_count. lia. }
  intros Hc. split; [apply Hsame; exact Hc|].
  apply Hsame. apply morphGeo_count.
Qed.

Lemma morphGeo_overwrites_witness :
  let g1 := geometry_of [(0, 1, 0); (1, 0, 0)] in
  let g2 := geometry_of [(5, 5, 5); (7, 7, 7)] in
  count (position g1) = count (position g2) /\
  morphGeo g1 [Num 0; Num 0; Num 1; Num 2] (sphere_coeffs 1) (Num 2)
  = morphGeo g2 [Num 0; Num 0; Num 1; Num 2] (sphere_coeffs 1) (Num 2).
Proof.
  intros g1 g2. split; [reflexivity|].
  apply (morphGeo_overwrites g1 g2). reflexivity.
Defined.

(** A missing azimuth poisons the displacement. *)
Lemma shDeform_NaN_phi (theta : jsnum) (coeffs : list jsnum) :
  shDeform theta NaN coeffs = NaN.
Proof.
  unfold shDeform. change (seq 0 N_COEFFS) with (0%nat :: 1%nat :: seq 2 10).
  cbn [fold_left].
  replace (Y_call 1 theta NaN) with NaN
    by (unfold Y_call; cbn; destruct theta; reflexivity).
  rewrite jsmul_NaN_r, jsadd_NaN_r. apply sh_loop_NaN.
Qed.

Lemma morph_vertex_short (unitAngles coeffs : list jsnum) (baseR : jsnum) (i : nat) :
  (length unitAngles <= 2 * i + 1)%nat ->
  morph_vertex unitAngles coeffs baseR i = NaN3.
Proof.
  intros Hlen. unfold morph_vertex.
  rewrite (aget_short unitAngles (i * 2 + 1)) by lia.
  rewrite shDeform_NaN_phi, jsadd_NaN_r. reflexivity.
Qed.

(** X6: a vertex whose angles are missing from [unitAngles], because the
    array is too short for it, is written as [(NaN, NaN, NaN)], whatever the
    coefficients and the base radius are. *)
Theorem morphGeo_missing_angles
    (geo : BufferGeometry) (unitAngles coeffs : list jsnum) (baseR : jsnum) (i : nat) :
  (i < count (position geo))%nat ->
  (length unitAngles <= 2 * i + 1)%nat ->
  verts (position (morphGeo geo unitAngles coeffs baseR)) !! i = Some NaN3.
Proof.
  intros Hi Hshort. rewrite morphGeo_vertex by exact Hi.
  f_equal. apply morph_vertex_short. exact Hshort.
Qed.

Lemma morphGeo_missing_angles_witness :
  let geo := geometry_of [(0, 1, 0); (1, 0, 0)] in
  (1 < count (position geo))%nat /\
  verts (position (morphGeo geo [Num 0; Num 0; Num 1] (sphere_coeffs 1) (Num 2))) !! 0%nat
  = Some (Num 0, Num 2.2820947917, Num 0) /\
  verts (position (morphGeo geo [Num 0; Num 0; Num 1] (sphere_coeffs 1) (Num 2))) !! 1%nat
  = Some NaN3.
Proof.
  intros geo.
  assert (Hi : (1 < count (position geo))%nat) by (cbn; lia).
  split; [exact Hi|]. split.
  - rewrite morphGeo_vertex by (cbn; lia).
    change [Num 0; Num 0; Num 1] with (map Num [0; 0; 1]).
    rewrite (morph_vertex_sphere_coeffs [0; 0; 1] 1 2 0 0 0) by reflexivity.
    unfold scale3, unit_point. rewrite sin_0, cos_0.
    repeat f_equal; lra.
  - apply (morphGeo_missing_angles geo [Num 0; Num 0; Num 1] (sphere_coeffs 1) (Num 2) 1 Hi).
    cbn. lia.
Defined.

End MorphMore.

(* ================================================================== *)
(** * The cached angles and the reconstruction of the sphere *)
(* ================================================================== *)

Section AngleFacts.

Local Open Scope R_scope.

Lemma sqrt_square_sum_pos (x z : R) :
  let h := sqrt (x * x + z * z) in 0 <= h /\ h * h = x * x + z * z.
Proof.
  cbv zeta. split; [apply sqrt_pos|]. apply sqrt_sqrt. nra.
Qed.

(** Cosine and sine of [atan (z / x)] for [x <> 0]. *)
Lemma cos_sin_atan_ratio (x z : R) :
  x <> 0 ->
  let h := sqrt (x * x + z * z) in
  cos (atan (z / x)) = Rabs x / h /\ sin (atan (z / x)) = (z / x) * (Rabs x / h).
Proof.
  intros Hx h.
  destruct (sqrt_square_sum_pos x z) as [Hh0 Hhh]. fold h in Hh0, Hhh.
  assert (Hax : 0 < Rabs x) by (apply Rabs_pos_lt; exact Hx).
  assert (Hxx : Rabs x * Rabs x = x * x).
  { unfold Rabs. destruct (Rcase_abs x); ring. }
  assert (Hhpos : 0 < h) by nra.
  assert (Hs : sqrt (1 + (z / x)²) = h / Rabs x).
  { apply sqrt_lem_1.
    - unfold Rsqr. assert (0 <= (z / x) * (z / x)) by nra. lra.
    - apply Rlt_le. apply Rdiv_lt_0_compat; assumption.
    - unfold Rsqr.
      transitivity ((h * h) / (Rabs x * Rabs x)); [field; lra|].
      rewrite Hhh, Hxx. field. exact Hx. }
  rewrite cos_atan, sin_atan, Hs. split; field; split; lra.
Qed.

(** The azimuth cached for [(x, _, z)] points along [(x, z)]. *)
Lemma azimuth_direction (x z : R) :
  let h := sqrt (x * x + z * z) in
  h * cos (Math_atan2 z x) = x /\ h * sin (Math_atan2 z x) = z.
Proof.
  intros h.
  destruct (sqrt_square_sum_pos x z) as [Hh0 Hhh]. fold h in Hh0, Hhh.
  unfold Math_atan2.
  destruct (Rlt_dec 0 x) as [Hpos|Hnpos].
  - destruct (cos_sin_atan_ratio x z) as [Hc Hs]; [lra|]. fold h in Hc, Hs.
    assert (Hhpos : 0 < h) by nra.
    rewrite Hc, Hs, Rabs_pos_eq by lra. split; field; lra.
  - destruct (Rlt_dec x 0) as [Hneg|Hnneg].
    + destruct (cos_sin_atan_ratio x z) as [Hc Hs]; [lra|]. fold h in Hc, Hs.
      assert (Hhpos : 0 < h) by nra.
      assert (Hax : Rabs x = - x) by (apply Rabs_left; exact Hneg).
      destruct (Rle_dec 0 z).
      * rewrite cos_plus, sin_plus, cos_PI, sin_PI, Hc, Hs, Hax. split; field; lra.
      * rewrite cos_minus, sin_minus, cos_PI, sin_PI, Hc, Hs, Hax. split; field; lra.
    + assert (Hx : x = 0) by lra. subst x.
      assert (Hzz : h * h = z * z) by lra.
      destruct (Rlt_dec 0 z) as [Hz|Hz].
      * rewrite cos_PI2, sin_PI2. split; nra.
      * destruct (Rlt_dec z 0) as [Hz'|Hz'].
        -- replace (- PI / 2) with (- (PI / 2)) by lra.
           rewrite cos_neg, sin_neg, cos_PI2, sin_PI2. split; nra.
        -- rewrite cos_0, sin_0. split; nra.
Qed.

(** The angles cached for a vector of length 1 reproduce the vector. *)
Lemma unit_point_of_angles (v : Vector3) :
  on_unit_sphere v -> unit_point (polar_angle v) (azimuth_angle v) = v.
Proof.
  destruct v as [[x y] z]. unfold on_unit_sphere, polar_angle, azimuth_angle, unit_point.
  intros Hunit.
  assert (Hr0 : js_or (sqrt (x * x + y * y + z * z)) 1e-8 = 1).
  { rewrite Hunit, sqrt_1. unfold js_or. destruct (Req_dec_T 1 0); lra. }
  rewrite Hr0. replace (y / 1) with y by field.
  assert (Hy : -1 <= y <= 1) by nra.
  assert (Hclamp : Rmax (-1) (Rmin 1 y) = y).
  { rewrite Rmin_right by lra. apply Rmax_right. lra. }
  rewrite Hclamp, cos_acos, sin_acos by exact Hy.
  destruct (azimuth_direction x z) as [Hc Hs].
  assert (Hh : sqrt (1 - y²) = sqrt (x * x + z * z)).
  { f_equal. unfold Rsqr. lra. }
  rewrite Hh, Hc, Hs. reflexivity.
Qed.

(** The loop of [computeUnitAngles], from vertex [a] for [n] vertices. *)
Lemma computeUnitAngles_loop (up : list Vector3) (n a : nat) (ua0 : list jsnum) :
  (a + n <= length up)%nat -> length ua0 = (length up * 2)%nat ->
  let step := fun (ua : list jsnum) (i : nat) =>
    match up !! i with
    | Some (x, y, z) =>
        let r0 := js_or (sqrt (x * x + y * y + z * z)) 1e-8 in
        let ua := <[(i * 2)%nat := Num (acos (Rmax (-1) (Rmin 1 (y / r0))))]> ua in
        <[(i * 2 + 1)%nat := Num (Math_atan2 z x)]> ua
    | None => ua
    end in
  let res := fold_left step (seq a n) ua0 in
  length res = length ua0 /\
  forall i v, (a <= i < a + n)%nat -> up !! i = Some v ->
    res !! (i * 2)%nat = Some (Num (polar_angle v)) /\
    res !! (i * 2 + 1)%nat = Some (Num (azimuth_angle v)).
Proof.
  revert a ua0. induction n as [|n IH]; intros a ua0 Ha Hlen step res.
  - split; [reflexivity|]. intros i v Hi. lia.
  - subst res. cbn [seq fold_left].
    destruct (lookup_lt_is_Some_2 up a) as [[[x y] z] Hv]; [lia|].
    set (ua1 := step ua0 a).
    assert (Hua1 : ua1 = <[(a * 2 + 1)%nat := Num (azimuth_angle (x, y, z))]>
                           (<[(a * 2)%nat := Num (polar_angle (x, y, z))]> ua0)).
    { subst ua1 step. cbv beta. unfold Vector3 in *. rewrite Hv. reflexivity. }
    assert (Hlen1 : length ua1 = (length up * 2)%nat).
    { rewrite Hua1, !length_insert. exact Hlen. }
    destruct (IH (S a) ua1 ltac:(lia) Hlen1) as [Hl Hin]. fold step in Hl, Hin.
    split; [rewrite Hl, Hlen1, Hlen; reflexivity|].
    intros i v Hi Hup.
    destruct (decide (i = a)) as [->|Hne].
    + assert (Hv' : v = (x, y, z)) by congruence. subst v.
      assert (Hkeep : forall k, (k < S a * 2)%nat ->
                fold_left step (seq (S a) n) ua1 !! k = ua1 !! k).
      { clear -step. intros k Hk. generalize (S a) ua1 Hk. clear.
        induction n as [|n IHn]; intros b ua Hk; cbn [seq fold_left]; [reflexivity|].
        rewrite IHn by lia. unfold step.
        destruct (up !! b) as [[[x y] z]|]; [|reflexivity].
        rewrite !list_lookup_insert_ne by lia. reflexivity. }
      rewrite !Hkeep by lia. rewrite Hua1. split.
      * rewrite list_lookup_insert_ne by lia.
        apply list_lookup_insert_eq. lia.
      * apply list_lookup_insert_eq. rewrite length_insert. lia.
    + apply Hin; [lia|exact Hup].
Qed.

Lemma computeUnitAngles_lookup (up : list Vector3) (i : nat) (v : Vector3) :
  up !! i = Some v ->
  aget (computeUnitAngles up) (i * 2) = Num (polar_angle v) /\
  aget (computeUnitAngles up) (i * 2 + 1) = Num (azimuth_angle v).
Proof.
  intros Hv.
  destruct (computeUnitAngles_loop up (length up) 0 (repeat (Num 0) (length up * 2)))
    as [_ Hin]; [lia|apply repeat_length|].
  destruct (Hin i v) as [H1 H2]; [apply lookup_lt_Some in Hv; lia|exact Hv|].
  assert (E1 : computeUnitAngles up !! (i * 2)%nat = Some (Num (polar_angle v)))
    by exact H1.
  assert (E2 : computeUnitAngles up !! (i * 2 + 1)%nat = Some (Num (azimuth_angle v)))
    by exact H2.
  unfold aget. rewrite E1, E2. split; reflexivity.
Qed.

Lemma atan_nonpos (t : R) : t <= 0 -> atan t <= 0.
Proof.
  intros [Ht|Ht].
  - left. rewrite <- atan_0. apply atan_increasing. exact Ht.
  - subst t. rewrite atan_0. lra.
Qed.

Lemma atan_pos (t : R) : 0 < t -> 0 < atan t.
Proof. intros Ht. rewrite <- atan_0. apply atan_increasing. exact Ht. Qed.

Lemma Math_atan2_range (z x : R) : - PI < Math_atan2 z x <= PI.
Proof.
  pose proof PI_RGT_0 as Hpi. unfold Math_atan2.
  destruct (Rlt_dec 0 x) as [Hpos|Hnpos].
  - pose proof (atan_bound (z / x)). lra.
  - destruct (Rlt_dec x 0) as [Hneg|Hnneg].
    + pose proof (atan_bound (z / x)) as Hb.
      destruct (Rle_dec 0 z) as [Hz|Hz].
      * assert (Hq : z / x <= 0).
        { unfold Rdiv. assert (/ x < 0) by (apply Rinv_lt_0_compat; exact Hneg). nra. }
        pose proof (atan_nonpos _ Hq). lra.
      * assert (Hq : 0 < z / x).
        { unfold Rdiv. assert (/ x < 0) by (apply Rinv_lt_0_compat; exact Hneg). nra. }
        pose proof (atan_pos _ Hq). lra.
    + destruct (Rlt_dec 0 z); [lra|]. destruct (Rlt_dec z 0); lra.
Qed.

End AngleFacts.

(** X7: The angles cached for any vertex are in range: the polar angle in
    [0, PI], the azimuth in (-PI, PI]; both are finite numbers. *)
Theorem unit_angles_in_range (up : list Vector3) (i : nat) (v : Vector3) :
  up !! i = Some v ->
  exists theta phi : R,
    aget (computeUnitAngles up) (i * 2) = Num theta /\
    aget (computeUnitAngles up) (i * 2 + 1) = Num phi /\
    (0 <= theta <= PI)%R /\ (- PI < phi <= PI)%R.
Proof.
  intros Hv. destruct (computeUnitAngles_lookup up i v Hv) as [H1 H2].
  exists (polar_angle v), (azimuth_angle v).
  split; [exact H1|]. split; [exact H2|].
  destruct v as [[x y] z]. split.
  - apply acos_bound.
  - apply Math_atan2_range.
Qed.

Lemma unit_angles_in_range_witness :
  let up := [(0, 1, 0); (-3, 0, 0)]%R in
  up !! 1%nat = Some (-3, 0, 0)%R /\
  exists theta phi : R,
    aget (computeUnitAngles up) 2 = Num theta /\
    aget (computeUnitAngles up) 3 = Num phi /\
    (0 <= theta <= PI)%R /\ (- PI < phi <= PI)%R.
Proof.
  intros up. split; [reflexivity|].
  apply (unit_angles_in_range up 1 (-3, 0, 0)%R). reflexivity.
Defined.

(** X8: Round trip of the angle cache: for vertices on the unit sphere,
    [morphGeo] with the angles [computeUnitAngles] caches and with every
    coefficient zero writes each vertex scaled by [baseR]. *)
Theorem unit_angles_round_trip (vs : list Vector3) (baseR : R) (i : nat) (v : Vector3) :
  vs !! i = Some v -> on_unit_sphere v ->
  verts (position (morphGeo (geometry_of vs) (computeUnitAngles vs)
                     (repeat (Num 0) 12) (Num baseR))) !! i
  = Some (scale3 baseR v).
Proof.
  intros Hv Hunit.
  assert (Hi : (i < count (position (geometry_of vs)))%nat).
  { unfold count, geometry_of. cbn [position verts]. rewrite length_map.
    apply lookup_lt_Some in Hv. exact Hv. }
  rewrite morphGeo_vertex by exact Hi. f_equal.
  unfold morph_vertex.
  destruct (computeUnitAngles_lookup vs i v Hv) as [-> ->].
  change (repeat (Num 0) 12) with (sphere_coeffs 0).
  rewrite shDeform_sphere_coeffs.
  pose proof (unit_point_of_angles v Hunit) as Hup.
  set (t := polar_angle v) in *. set (p := azimuth_angle v) in *.
  destruct v as [[x y] z]. unfold unit_point in Hup.
  injection Hup as Hx Hy Hz.
  unfold scale3. cbn [jsadd jsmul lift2 Math_sin Math_cos lift1].
  rewrite <- Hx, <- Hy, <- Hz.
  f_equal; [f_equal|]; f_equal; ring.
Qed.

Lemma unit_angles_round_trip_witness :
  let vs := [(0, 1, 0); (0.6, 0, -0.8)]%R in
  vs !! 1%nat = Some (0.6, 0, -0.8)%R /\
  on_unit_sphere (0.6, 0, -0.8)%R /\
  verts (position (morphGeo (geometry_of vs) (computeUnitAngles vs)
                     (repeat (Num 0) 12) (Num 1.5))) !! 1%nat
  = Some (scale3 1.5 (0.6, 0, -0.8)%R).
Proof.
  intros vs.
  assert (Hu : on_unit_sphere (0.6, 0, -0.8)%R) by (unfold on_unit_sphere; lra).
  split; [reflexivity|]. split; [exact Hu|].
  apply (unit_angles_round_trip vs 1.5 1 (0.6, 0, -0.8)%R eq_refl Hu).
Defined.

(* ================================================================== *)
(** * Further properties of the wave ripple *)
(* ================================================================== *)

Section WaveMore.

Local Open Scope R_scope.

Lemma startWave_fields (b : Blob) :
  waveActive (startWave b) = true /\ waveElapsed (startWave b) = 0 /\
  hovered (startWave b) = hovered b /\ uWaveTime (startWave b) = uWaveTime b.
Proof.
  unfold startWave, copy_hit_point. cbn. destruct (hitLocal b); cbn; auto.
Qed.

(** A tick that does not carry the age past 2.5 keeps the wave active. *)
Lemma updateWaveRipple_young (b : Blob) (dt : R) :
  waveActive b = true -> waveElapsed b + dt <= 2.5 ->
  waveActive (updateWaveRipple b dt) = true /\
  waveElapsed (updateWaveRipple b dt) = waveElapsed b + dt.
Proof.
  intros Ha Hy. destruct (hovered b) eqn:Hh.
  - destruct (updateWaveRipple_hovering b dt Ha Hh) as (_ & H1 & H2). auto.
  - destruct (updateWaveRipple_fading b dt Ha Hh) as (_ & H1 & H2).
    rewrite H1, H2. split; [|reflexivity].
    assert (Hgt : js_gt (waveElapsed b + dt) 2.5 = false) by (apply js_gt_false; exact Hy).
    rewrite Hgt. reflexivity.
Qed.

Lemma ticked_nonneg (ops : list BlobOp) : Forall forward_op ops -> 0 <= ticked ops.
Proof.
  induction 1 as [|op ops Hop _ IH]; cbn; [lra|].
  destruct op; cbn in Hop |- *; lra.
Qed.

Lemma young_wave_survives (ops : list BlobOp) (b : Blob) :
  Forall forward_op ops ->
  waveActive b = true -> 0 <= waveElapsed b -> waveElapsed b + ticked ops <= 2.5 ->
  waveActive (run_ops ops b) = true.
Proof.
  intros Hall. revert b. unfold run_ops.
  induction Hall as [|op ops Hop Hall IH]; intros b Ha H0 Hy; [exact Ha|].
  cbn [fold_left]. pose proof (ticked_nonneg ops Hall) as Hrest.
  destruct op as [|dt|v|p]; cbn [ticked apply_op forward_op] in *.
  - destruct (startWave_fields b) as (F1 & F2 & _).
    apply IH; [exact F1|lra|lra].
  - destruct (updateWaveRipple_young b dt Ha ltac:(lra)) as [F1 F2].
    apply IH; [exact F1|lra|lra].
  - apply IH; assumption.
  - apply IH; assumption.
Qed.

(** X9: Minimum lifetime: once [startWave] has run, the wave stays active
    through every sequence of ticks, hover changes, hit-point writes and
    restarts whose ticks add up to at most 2.5 seconds. *)
Theorem wave_minimum_lifetime (b : Blob) (ops : list BlobOp) :
  Forall forward_op ops -> ticked ops <= 2.5 ->
  waveActive (run_ops ops (startWave b)) = true.
Proof.
  intros Hall Ht. destruct (startWave_fields b) as (F1 & F2 & _).
  apply young_wave_survives; [exact Hall|exact F1|lra|lra].
Qed.

Lemma wave_minimum_lifetime_witness :
  let ops := [CallUpdateWave 1; WriteHovered false; CallUpdateWave 1.5; WriteHitLocal None] in
  Forall forward_op ops /\ ticked ops <= 2.5 /\
  waveActive (run_ops ops (startWave (idle_blob 0))) = true.
Proof.
  intros ops.
  assert (Hall : Forall forward_op ops) by (repeat constructor; cbn; lra).
  assert (Ht : ticked ops <= 2.5) by (cbn; lra).
  split; [exact Hall|]. split; [exact Ht|].
  apply (wave_minimum_lifetime (idle_blob 0) ops Hall Ht).
Defined.

Lemma updateWaveRipple_gated (b : Blob) (dt : R) :
  wave_gated b -> wave_gated (updateWaveRipple b dt).
Proof.
  unfold wave_gated, updateWaveRipple, copy_hit_point.
  destruct (waveActive b) eqn:Ha; cbn [negb]; [|intros Hg _; apply Hg; reflexivity].
  intros _. cbn.
  destruct (hitLocal b); cbn; destruct (hovered b); cbn;
    try (intros H; congruence);
    destruct (js_gt (waveElapsed b + dt) 2.5); cbn; intros H;
    first [reflexivity | congruence].
Qed.

(** X10: The shader shows the wave only while the state machine is active: from
    a blob whose wave is switched off, every sequence of calls and writes
    leads to a blob where an inactive wave has [uWaveTime = -10], so a
    [uWaveTime >= 0] means the wave is active. *)
Theorem wave_shader_gate (b : Blob) (ops : list BlobOp) :
  wave_gated b ->
  wave_gated (run_ops ops b) /\
  (0 <= uWaveTime (run_ops ops b) -> waveActive (run_ops ops b) = true).
Proof.
  intros Hg.
  assert (Hrun : wave_gated (run_ops ops b)).
  { unfold run_ops. revert b Hg.
    induction ops as [|op ops IH]; intros b Hg; [exact Hg|].
    cbn [fold_left]. apply IH.
    destruct op as [|dt|v|p]; cbn [apply_op].
    - destruct (startWave_fields b) as (F1 & _). unfold wave_gated. rewrite F1. discriminate.
    - apply updateWaveRipple_gated. exact Hg.
    - exact Hg.
    - exact Hg. }
  split; [exact Hrun|].
  intros Hpos. destruct (waveActive (run_ops ops b)) eqn:Ha; [reflexivity|].
  rewrite (Hrun Ha) in Hpos. lra.
Qed.

Lemma wave_shader_gate_witness :
  let ops := [WriteHovered true; CallStartWave; CallUpdateWave 3; WriteHovered false;
              CallUpdateWave 0.1] in
  wave_gated (idle_blob 0) /\ wave_gated (run_ops ops (idle_blob 0)).
Proof.
  intros ops.
  assert (Hg : wave_gated (idle_blob 0)) by (intros _; reflexivity).
  split; [exact Hg|].
  apply (wave_shader_gate (idle_blob 0) ops Hg).
Defined.

End WaveMore.

(* ================================================================== *)
(** * Further properties of the hover resolver *)
(* ================================================================== *)

Section ResolverMore.

Implicit Types (cfg : Config) (e : PointerEvent) (w : World) (b : Blob).
Implicit Types (bs : list Blob) (i j p : nat).

(** Case analysis on a browse-mode pointer move, with the facts of the case
    named [Hbs], [Hhb], [Hps] and [Hfx]. *)
Ltac browse_case cfg e w :=
  let hit := fresh "hit" in
  let rest := fresh "rest" in
  let j := fresh "j" in
  let b := fresh "b" in
  let He := fresh "He" in
  let Hf := fresh "Hf" in
  let Hj := fresh "Hj" in
  destruct (hits e) as [|hit rest] eqn:He;
  [ pose proof (browse_leave cfg e w He) as (Hbs & Hhb & Hps & Hfx)
  | destruct (find_blob (object hit) (blobs w)) as [[j b]|] eqn:Hf;
    [ destruct (decide (hoveredBlob w = Some j)) as [Hj|Hj];
      [ pose proof (browse_same cfg e w hit rest j b He Hf Hj) as (Hbs & Hhb & Hps & Hfx)
      | pose proof (browse_enter cfg e w hit rest j b He Hf Hj) as (Hbs & Hhb & Hps & Hfx) ]
    | pose proof (browse_miss cfg e w hit rest He Hf) as (Hbs & Hhb & Hps & Hfx) ] ].

Lemma unhover_hovering (pt : Vector3) b : idle b -> unhover (hovering pt b) = b.
Proof. destruct b. unfold idle. cbn. intros [-> ->]. reflexivity. Qed.

Lemma store_hit_hovering (hit : Hit) (pt : Vector3) b :
  store_hit hit (hovering pt b) = hovering (worldToLocal b (point hit)) b.
Proof. reflexivity. Qed.

Lemma set_hovered_store_hit (hit : Hit) b :
  set_hovered true (store_hit hit b) = hovering (worldToLocal b (point hit)) b.
Proof. reflexivity. Qed.

(** One browse-mode pointer move keeps the blobs as they were up to the
    hover of [hoveredBlob]. *)
Lemma browse_hover_only_differs cfg e w bs0 :
  Forall idle bs0 ->
  hover_only_differs bs0 w ->
  hover_only_differs bs0 (exec (pointerMove_browse cfg e) w).
Proof.
  intros Hidle [Hlen Hinv].
  split; [rewrite browse_length; exact Hlen|].
  intros i b0 Hb0.
  assert (Hidle0 : idle b0) by (rewrite Forall_lookup in Hidle; exact (Hidle i b0 Hb0)).
  browse_case cfg e w; rewrite Hbs, Hhb.
  - (* the pointer left *)
    left. split; [discriminate|].
    destruct (Hinv i b0 Hb0) as [[Hne Hi]|[Heq (pt & Hi)]].
    + destruct (hoveredBlob w) as [q|]; cbn [unhover_previous]; [|exact Hi].
      rewrite list_lookup_alter_ne by congruence. exact Hi.
    + rewrite Heq. cbn [unhover_previous]. rewrite list_lookup_alter_eq, Hi. cbn.
      rewrite unhover_hovering by exact Hidle0. reflexivity.
  - (* still over the hovered blob *)
    destruct (Hinv i b0 Hb0) as [[Hne Hi]|[Heq (pt & Hi)]].
    + left. split; [exact Hne|].
      rewrite list_lookup_alter_ne by congruence. exact Hi.
    + right. split; [exact Heq|].
      assert (i = j) by congruence. subst i.
      rewrite list_lookup_alter_eq, Hi. cbn. eexists. rewrite store_hit_hovering. reflexivity.
  - (* onto another blob *)
    destruct (decide (i = j)) as [->|Hne].
    + right. split; [reflexivity|].
      destruct (Hinv j b0 Hb0) as [[_ Hi]|[Heq _]]; [|contradiction].
      rewrite list_lookup_alter_eq.
      assert (Hprev : unhover_previous (hoveredBlob w) (alter (store_hit hit) j (blobs w)) !! j
                      = Some (store_hit hit b0)).
      { destruct (hoveredBlob w) as [q|]; cbn [unhover_previous].
        - rewrite list_lookup_alter_ne by congruence.
          rewrite list_lookup_alter_eq, Hi. reflexivity.
        - rewrite list_lookup_alter_eq, Hi. reflexivity. }
      rewrite Hprev. cbn. eexists. rewrite set_hovered_store_hit. reflexivity.
    + left. split; [congruence|].
      rewrite list_lookup_alter_ne by congruence.
      destruct (Hinv i b0 Hb0) as [[Hni Hi]|[Heq (pt & Hi)]].
      * destruct (hoveredBlob w) as [q|]; cbn [unhover_previous].
        -- rewrite list_lookup_alter_ne by congruence.
           rewrite list_lookup_alter_ne by congruence. exact Hi.
        -- rewrite list_lookup_alter_ne by congruence. exact Hi.
      * rewrite Heq. cbn [unhover_previous].
        rewrite list_lookup_alter_eq, list_lookup_alter_ne, Hi by congruence. cbn.
        rewrite unhover_hovering by exact Hidle0. reflexivity.
  - (* the ray hit no blob's mesh *)
    apply Hinv. exact Hb0.
Qed.

Lemma idle_page_differs w : idle_page w -> hover_only_differs (blobs w) w.
Proof.
  intros [Hnone _]. split; [reflexivity|].
  intros i b0 Hb0. left. split; [congruence|exact Hb0].
Qed.

Lemma deliver_hover_only_differs cfg (es : list PointerEvent) w bs0 :
  panelOpen (panelState w) = false ->
  Forall idle bs0 -> hover_only_differs bs0 w ->
  hover_only_differs bs0 (deliver (onPointerMove cfg) es w) /\
  panelOpen (panelState (deliver (onPointerMove cfg) es w)) = false.
Proof.
  intros Hp Hidle. unfold deliver. revert w Hp.
  induction es as [|e es IH]; intros w Hp Hinv; cbn [fold_left]; [auto|].
  assert (Hstep : exec (onPointerMove cfg e) w = exec (pointerMove_browse cfg e) w).
  { unfold exec. rewrite onPointerMove_closed by exact Hp. reflexivity. }
  rewrite Hstep. apply IH.
  - rewrite browse_panelState. exact Hp.
  - apply browse_hover_only_differs; assumption.
Qed.

(** No listener changes the project a blob stands for. *)
Lemma projectIdx_alter (f : Blob -> Blob) p i bs :
  (forall b, projectIdx (f b) = projectIdx b) ->
  projectIdx <$> alter f p bs !! i = projectIdx <$> bs !! i.
Proof.
  intros Hf. destruct (decide (i = p)) as [->|Hne].
  - rewrite list_lookup_alter_eq. destruct (bs !! p); cbn; [rewrite Hf|]; reflexivity.
  - rewrite list_lookup_alter_ne by congruence. reflexivity.
Qed.

Lemma projectIdx_unhover_previous h i bs :
  projectIdx <$> unhover_previous h bs !! i = projectIdx <$> bs !! i.
Proof. destruct h; [apply projectIdx_alter|]; reflexivity. Qed.

Lemma browse_projectIdx cfg e w i :
  projectIdx <$> blobs (exec (pointerMove_browse cfg e) w) !! i = projectIdx <$> blobs w !! i.
Proof.
  browse_case cfg e w; rewrite Hbs;
    rewrite ?projectIdx_alter, ?projectIdx_unhover_previous, ?projectIdx_alter by reflexivity;
    reflexivity.
Qed.

End ResolverMore.

(** X11: Browse-mode pointer moves change nothing of a blob but its hover: from
    the page [createOrbs] leaves, after any sequence of pointer moves every
    blob is the blob it was, except the resolver's [hoveredBlob], which is
    that blob with [hovered = true] and a hit point; so only the hovered
    orb carries a hit point. *)
Theorem browse_changes_hover_only (cfg : Config) (w0 : World) (es : list PointerEvent) :
  panelOpen (panelState w0) = false -> idle_page w0 ->
  let w := deliver (onPointerMove cfg) es w0 in
  hover_only_differs (blobs w0) w /\
  (forall i, hitLocal_at w i <> None -> hovered_at w i = true).
Proof.
  intros Hp Hidle w.
  destruct (deliver_hover_only_differs cfg es w0 (blobs w0) Hp)
    as [[Hlen Hinv] _]; [apply Hidle|apply idle_page_differs; exact Hidle|].
  fold w in Hlen, Hinv.
  split; [split; assumption|].
  intros i Hhit. unfold hitLocal_at, hitLocal_in, hovered_at, hovered_in in *.
  destruct (blobs w0 !! i) as [b0|] eqn:Hb0.
  - destruct Hidle as [_ Hall]. rewrite Forall_lookup in Hall.
    destruct (Hall i b0 Hb0) as [_ Hnone].
    destruct (Hinv i b0 Hb0) as [[_ Hi]|[_ (pt & Hi)]]; rewrite Hi in *.
    + congruence.
    + reflexivity.
  - apply lookup_ge_None_1 in Hb0.
    rewrite lookup_ge_None_2 in Hhit by lia. congruence.
Qed.

Lemma browse_changes_hover_only_witness :
  let es := [mkPointerEvent 10 20 [mkHit 0 (0, 0, 0)%R];
             mkPointerEvent 30 20 [mkHit 1 (1, 2, 3)%R]] in
  let w := deliver (onPointerMove two_projects) es two_orbs in
  panelOpen (panelState two_orbs) = false /\ idle_page two_orbs /\
  hover_only_differs (blobs two_orbs) w.
Proof.
  intros es w.
  assert (Hidle : idle_page two_orbs)
    by (split; [reflexivity|repeat constructor]).
  split; [reflexivity|]. split; [exact Hidle|].
  apply (browse_changes_hover_only two_projects two_orbs es eq_refl Hidle).
Defined.

(** X12: Hover leaves no residue: after any browse-mode pointer moves from the
    page [createOrbs] leaves, a pointer move over no orb restores every
    blob exactly and clears the resolver's [hoveredBlob]. *)
Theorem hover_round_trip
    (cfg : Config) (w0 : World) (es : list PointerEvent) (e : PointerEvent) :
  panelOpen (panelState w0) = false -> idle_page w0 -> hits_nothing e ->
  let w := deliver (onPointerMove cfg) (es ++ [e]) w0 in
  blobs w = blobs w0 /\ hoveredBlob w = None.
Proof.
  intros Hp Hidle He w.
  destruct (deliver_hover_only_differs cfg (es ++ [e]) w0 (blobs w0) Hp)
    as [[Hlen Hinv] _]; [apply Hidle|apply idle_page_differs; exact Hidle|].
  fold w in Hlen, Hinv.
  assert (Hnone : hoveredBlob w = None).
  { subst w. unfold deliver. rewrite fold_left_app. cbn [fold_left].
    set (w1 := fold_left _ es w0).
    destruct (deliver_hover_only_differs cfg es w0 (blobs w0) Hp) as [_ Hp1];
      [apply Hidle|apply idle_page_differs; exact Hidle|].
    fold w1 in Hp1. unfold deliver in Hp1. fold w1 in Hp1.
    unfold exec. rewrite onPointerMove_closed by exact Hp1.
    destruct (browse_leave cfg e w1 He) as (_ & Hhb & _). exact Hhb. }
  split; [|exact Hnone].
  apply list_eq. intros i.
  destruct (blobs w0 !! i) as [b0|] eqn:Hb0.
  - destruct (Hinv i b0 Hb0) as [[_ Hi]|[Heq _]]; [exact Hi|congruence].
  - apply lookup_ge_None_1 in Hb0. apply lookup_ge_None_2. lia.
Qed.

Lemma hover_round_trip_witness :
  let es := [mkPointerEvent 10 20 [mkHit 0 (0, 0, 0)%R];
             mkPointerEvent 30 20 [mkHit 1 (1, 2, 3)%R]] in
  let e := mkPointerEvent 50 60 [] in
  panelOpen (panelState two_orbs) = false /\ idle_page two_orbs /\ hits_nothing e /\
  blobs (deliver (onPointerMove two_projects) (es ++ [e]) two_orbs) = blobs two_orbs.
Proof.
  intros es e.
  assert (Hidle : idle_page two_orbs)
    by (split; [reflexivity|repeat constructor]).
  split; [reflexivity|]. split; [exact Hidle|]. split; [reflexivity|].
  apply (hover_round_trip two_projects two_orbs es e eq_refl Hidle eq_refl).
Defined.

Section FocusAndErrors.

Implicit Types (cfg : Config) (e : PointerEvent) (w : World) (b : Blob).
Implicit Types (bs : list Blob) (i j k p : nat).

Lemma hovered_in_alter_mono (f : Blob -> Blob) k i bs :
  (forall b, hovered b = true -> hovered (f b) = true) ->
  hovered_in bs i = true -> hovered_in (alter f k bs) i = true.
Proof.
  intros Hf. destruct (decide (i = k)) as [->|Hne].
  - unfold hovered_in. rewrite list_lookup_alter_eq.
    destruct (bs !! k); cbn; [apply Hf|discriminate].
  - rewrite hovered_in_alter_ne by exact Hne. auto.
Qed.

Lemma clear_hitLocal_hovered b : hovered (clear_hitLocal b) = hovered b.
Proof. unfold clear_hitLocal. destruct (hitLocal b); reflexivity. Qed.

(** One focus-mode pointer move: no effect, the resolver's blob kept, no
    hover flag cleared. *)
Lemma focus_step_silent e w :
  effects (exec (pointerMove_focus e) w) = effects w /\
  hoveredBlob (exec (pointerMove_focus e) w) = hoveredBlob w /\
  forall i, hovered_at w i = true -> hovered_at (exec (pointerMove_focus e) w) i = true.
Proof.
  unfold exec, pointerMove_focus, bind, get, hovered_at.
  destruct (blobs w !! focusedIdx (panelState w)) as [fb|]; [|cbn; auto].
  destruct (hits e) as [|hit rest]; [|destruct (Nat.eqb (object hit) (hitMesh fb))];
    cbn; (split; [reflexivity|]; split; [reflexivity|]);
    intros i Hi; apply hovered_in_alter_mono; try exact Hi;
    intros b Hb; rewrite ?clear_hitLocal_hovered; auto.
Qed.

End FocusAndErrors.

(** X13: While the panel is open, pointer moves are silent: no sequence of them
    calls the audio or the DOM (no cue, no label or cursor change), changes
    the resolver's [hoveredBlob], or clears the [hovered] flag of any
    orb. *)
Theorem focus_moves_are_silent (cfg : Config) (w0 : World) (es : list PointerEvent) :
  panelOpen (panelState w0) = true ->
  let w := deliver (onPointerMove cfg) es w0 in
  effects w = effects w0 /\
  hoveredBlob w = hoveredBlob w0 /\
  (forall i, hovered_at w0 i = true -> hovered_at w i = true).
Proof.
  unfold deliver. revert w0.
  induction es as [|e es IH]; intros w0 Hp; cbn [fold_left]; [auto|].
  assert (Hstep : exec (onPointerMove cfg e) w0 = exec (pointerMove_focus e) w0).
  { unfold exec. rewrite onPointerMove_open by exact Hp. reflexivity. }
  rewrite Hstep.
  destruct (focus_step_silent e w0) as (E1 & E2 & E3).
  destruct (IH (exec (pointerMove_focus e) w0)) as (F1 & F2 & F3).
  { rewrite focus_panelState. exact Hp. }
  cbv zeta in F1, F2, F3. rewrite F1, F2, E1, E2.
  split; [reflexivity|]. split; [reflexivity|].
  intros i Hi. apply F3, E3, Hi.
Qed.

Lemma focus_moves_are_silent_witness :
  let es := [mkPointerEvent 10 20 [mkHit 0 (0, 0, 0)%R];
             mkPointerEvent 30 20 [mkHit 1 (1, 2, 3)%R];
             mkPointerEvent 30 20 []] in
  let w := deliver (onPointerMove two_projects) es two_orbs_focused in
  panelOpen (panelState two_orbs_focused) = true /\
  effects w = effects two_orbs_focused.
Proof.
  intros es w. split; [reflexivity|].
  apply (focus_moves_are_silent two_projects two_orbs_focused es eq_refl).
Defined.

(** X14: [onPointerMove] throws in one situation only: with the panel closed,
    when the pointer moves onto an orb other than [hoveredBlob] whose
    [projectIdx] names no project.  The hover has then been switched to
    that orb already, but no cue is played and the label is not changed. *)
Theorem onPointerMove_throws_iff (cfg : Config) (e : PointerEvent) (w : World) :
  ((exists x, result (onPointerMove cfg e) w = inl x) <->
   panelOpen (panelState w) = false /\
   exists hit rest j b,
     hits e = hit :: rest /\ find_blob (object hit) (blobs w) = Some (j, b) /\
     hoveredBlob w <> Some j /\ PROJECTS cfg !! projectIdx b = None) /\
  ((exists x, result (onPointerMove cfg e) w = inl x) ->
   exists j, nearest_orb e w = Some j /\
     hoveredBlob (exec (onPointerMove cfg e) w) = Some j /\
     hovered_at (exec (onPointerMove cfg e) w) j = true /\
     effects (exec (onPointerMove cfg e) w) = effects w).
Proof.
  assert (Hiff : (exists x, result (onPointerMove cfg e) w = inl x) <->
    panelOpen (panelState w) = false /\
    exists hit rest j b,
      hits e = hit :: rest /\ find_blob (object hit) (blobs w) = Some (j, b) /\
      hoveredBlob w <> Some j /\ PROJECTS cfg !! projectIdx b = None).
  { unfold result. destruct (panelOpen (panelState w)) eqn:Hp.
    - rewrite onPointerMove_open by exact Hp. split.
      + intros [x Hx]. exfalso. revert Hx.
        unfold pointerMove_focus, bind, get.
        destruct (blobs w !! focusedIdx (panelState w)) as [fb|]; [|discriminate].
        destruct (hits e) as [|hit rest];
          [|destruct (Nat.eqb (object hit) (hitMesh fb))]; discriminate.
      + intros [Hc _]. discriminate Hc.
    - rewrite onPointerMove_closed by exact Hp.
      unfold pointerMove_browse, bind, get.
      destruct (hits e) as [|hit rest] eqn:He.
      + split.
        * intros [x Hx]. exfalso. revert Hx. destruct (hoveredBlob w); discriminate.
        * intros (_ & hit & rest & j & b & Hc & _). discriminate Hc.
      + destruct (find_blob (object hit) (blobs w)) as [[j b]|] eqn:Hf.
        * cbn. unfold is_hoveredBlob.
          destruct (hoveredBlob w) as [q|] eqn:Hq.
          -- destruct (Nat.eqb q j) eqn:Hqj.
             ++ apply Nat.eqb_eq in Hqj. subst q. cbn. split.
                ** intros [x Hx]. discriminate Hx.
                ** intros (_ & h' & r' & j' & b' & H1 & H2 & Hne & _).
                   injection H1 as <- <-. rewrite Hf in H2.
                   injection H2 as <- <-. contradiction.
             ++ apply Nat.eqb_neq in Hqj.
                unfold hover_transition, bind, get, project_name. cbn. rewrite Hq. cbn.
                destruct (PROJECTS cfg !! projectIdx b) eqn:Hproj; cbn.
                ** split; [intros [x Hx]; discriminate Hx|].
                   intros (_ & h' & r' & j' & b' & H1 & H2 & _ & Hnone).
                   injection H1 as <- <-. rewrite Hf in H2.
                   injection H2 as <- <-. congruence.
                ** split; [|intros _; eexists; reflexivity].
                   intros _. split; [reflexivity|].
                   exists hit, rest, j, b. repeat split; try assumption. congruence.
          -- unfold hover_transition, bind, get, project_name. cbn. rewrite Hq. cbn.
             destruct (PROJECTS cfg !! projectIdx b) eqn:Hproj; cbn.
             ** split; [intros [x Hx]; discriminate Hx|].
                intros (_ & h' & r' & j' & b' & H1 & H2 & _ & Hnone).
                injection H1 as <- <-. rewrite Hf in H2.
                injection H2 as <- <-. congruence.
             ** split; [|intros _; eexists; reflexivity].
                intros _. split; [reflexivity|].
                exists hit, rest, j, b. repeat split; try assumption. discriminate.
        * cbn. split.
          -- intros [x Hx]. discriminate Hx.
          -- intros (_ & h' & r' & j' & b' & H1 & Hc & _).
             injection H1 as <- <-. rewrite Hf in Hc. discriminate Hc. }
  split; [exact Hiff|].
  intros Hthrow. apply Hiff in Hthrow.
  destruct Hthrow as (Hp & hit & rest & j & b & He & Hf & Hj & Hproj).
  exists j.
  assert (Hstep : exec (onPointerMove cfg e) w = exec (pointerMove_browse cfg e) w).
  { unfold exec. rewrite onPointerMove_closed by exact Hp. reflexivity. }
  rewrite Hstep.
  assert (Hn : nearest_orb e w = Some j) by (unfold nearest_orb; rewrite He, Hf; reflexivity).
  destruct (browse_enter cfg e w hit rest j b He Hf Hj) as (_ & Hhb & _ & Hfx).
  destruct (browse_transition cfg e w j Hn Hj) as (Hhov & _).
  rewrite Hproj, app_nil_r in Hfx. auto.
Qed.

Lemma onPointerMove_throws_witness :
  let cfg := mkConfig [] [] in
  let e := mkPointerEvent 10 20 [mkHit 1 (0, 0, 0)%R] in
  (exists x, result (onPointerMove cfg e) two_orbs = inl x) /\
  exists j, nearest_orb e two_orbs = Some j /\
    hoveredBlob (exec (onPointerMove cfg e) two_orbs) = Some j /\
    hovered_at (exec (onPointerMove cfg e) two_orbs) j = true /\
    effects (exec (onPointerMove cfg e) two_orbs) = effects two_orbs.
Proof.
  intros cfg e.
  split; [eexists; reflexivity|].
  apply (proj2 (onPointerMove_throws_iff cfg e two_orbs)).
  eexists; reflexivity.
Defined.

(* ================================================================== *)
(** * Construction, navigation and the pointer together *)
(* ================================================================== *)

Section BuildAndPoint.

Implicit Types (host : Host) (cfg : Config) (proj : Project) (w : World).
Implicit Types (bs : list Blob) (b : Blob) (i j k idx m : nat).

(** [createOrbs] hands out hit meshes in the order of the blobs. *)
Lemma forEach_createOrb_meshes host cfg (projs : list Project) idx w :
  Forall named projs ->
  exists new g,
    forEach projs idx (createOrb host cfg) w
    = (inr tt, set_blobs (blobs w ++ new) (set_rng g w)) /\
    length new = length projs /\
    forall i b, new !! i = Some b ->
      hitMesh b = (length (blobs w) + i)%nat /\ projectIdx b = (idx + i)%nat /\
      hovered b = false /\ hitLocal b = None.
Proof.
  intros Hall. revert idx w.
  induction Hall as [|proj projs Hproj Hall IH]; intros idx w; cbn [forEach].
  - exists [], (rng w). rewrite app_nil_r.
    split; [destruct w; reflexivity|]. split; [reflexivity|].
    intros i b Hi. discriminate.
  - destruct (name proj) as [s|] eqn:Hname; [|contradiction Hproj; exact Hname].
    destruct (createOrb_named host cfg proj idx s w Hname)
      as (b & g & Hrun & _ & Hidx & Hmesh & Hhov & Hloc & _).
    rewrite (bind_inr _ _ _ _ _ Hrun).
    destruct (IH (S idx) (set_blobs (blobs w ++ [b]) (set_rng g w)))
      as (new & g' & Hrest & Hlen & Hnew).
    rewrite Hrest. exists (b :: new), g'.
    split; [|split].
    + cbn. rewrite <- app_assoc. reflexivity.
    + cbn. rewrite Hlen. reflexivity.
    + intros [|i] b' Hi; cbn in Hi.
      * injection Hi as <-. rewrite Hidx, Hmesh, !Nat.add_0_r. auto.
      * destruct (Hnew i b' Hi) as (H1 & H2 & H3 & H4).
        cbn [blobs set_blobs set_rng] in H1. rewrite length_app in H1. cbn in H1.
        repeat split; try assumption; lia.
Qed.

(** In a list whose blobs carry their own index as hit mesh, [find] resolves
    the mesh [i] to the blob at [i]. *)
Lemma find_blob_indexed bs i b :
  (forall k c, bs !! k = Some c -> hitMesh c = k) ->
  bs !! i = Some b -> find_blob i bs = Some (i, b).
Proof.
  intros Hmesh Hb. unfold find_blob. apply list_find_Some.
  split; [exact Hb|]. split; [apply (Hmesh i b Hb)|].
  intros k c Hc Hlt Heq. rewrite (Hmesh k c Hc) in Heq. lia.
Qed.

(** [find] still resolves a mesh to the same index after one blob of the
    list was replaced by a blob with the same hit mesh. *)
Lemma find_blob_alter (f : Blob -> Blob) m k bs j b :
  (forall c, hitMesh (f c) = hitMesh c) ->
  find_blob m bs = Some (j, b) ->
  exists b', find_blob m (alter f k bs) = Some (j, b').
Proof.
  intros Hf H. apply list_find_Some in H. destruct H as (Hj & Hm & Hbefore).
  assert (Hlook : forall q c', alter f k bs !! q = Some c' ->
            exists c, bs !! q = Some c /\ hitMesh c' = hitMesh c).
  { intros q c' Hq. destruct (decide (q = k)) as [->|Hne].
    - rewrite list_lookup_alter_eq in Hq.
      destruct (bs !! k) as [c|]; cbn in Hq; [|discriminate].
      injection Hq as <-. exists c. split; [reflexivity|apply Hf].
    - rewrite list_lookup_alter_ne in Hq by congruence. exists c'. auto. }
  assert (Hj' : is_Some (alter f k bs !! j)).
  { apply lookup_lt_is_Some_2. rewrite length_alter.
    apply lookup_lt_Some in Hj. exact Hj. }
  destruct Hj' as [b' Hb']. exists b'.
  unfold find_blob. apply list_find_Some. split; [exact Hb'|]. split.
  - destruct (Hlook j b' Hb') as (c & Hc & Hmc). congruence.
  - intros q c' Hq Hlt Heq.
    destruct (Hlook q c' Hq) as (c & Hc & Hmc).
    apply (Hbefore q c Hc Hlt). congruence.
Qed.

Lemma initNav_mouseleave cfg idx (item : NavItem) :
  initNav cfg !! idx = Some item ->
  mouseleave item
  = bind (assign_hovered idx false) (fun _ => emit (NavItemActive idx false)).
Proof.
  unfold initNav. rewrite list_lookup_imap.
  destruct (PROJECTS cfg !! idx) as [proj|]; cbn; [|discriminate].
  intros [= <-]. reflexivity.
Qed.

Lemma nav_mouseleave_run idx w :
  (idx < length (blobs w))%nat ->
  bind (assign_hovered idx false) (fun _ => emit (NavItemActive idx false)) w
  = (inr tt,
     mkWorld (rng w) (alter (set_hovered false) idx (blobs w)) (hoveredBlob w) (navIdx w)
       (panelState w) (effects w ++ [NavItemActive idx false])).
Proof.
  intros Hidx. destruct (lookup_lt_is_Some_2 _ _ Hidx) as [b Hb].
  unfold bind, emit, assign_hovered, modify, get, update_blob. cbn.
  rewrite Hb. cbn. reflexivity.
Qed.

Lemma length_initNav cfg : length (initNav cfg) = length (PROJECTS cfg).
Proof. unfold initNav. apply length_imap. Qed.

(** A pointer move that stays on the resolver's orb leaves its [hovered]
    flag as it is and plays no cue. *)
Lemma browse_stay cfg e w m idx :
  hoveredBlob w = Some idx -> hits_mesh m e ->
  (exists b, find_blob m (blobs w) = Some (idx, b)) ->
  let w' := exec (pointerMove_browse cfg e) w in
  hoveredBlob w' = Some idx /\
  hovered_at w' idx = hovered_at w idx /\
  (exists b, find_blob m (blobs w') = Some (idx, b)) /\
  hover_cues (effects w') = hover_cues (effects w).
Proof.
  intros Hh He [b Hf] w'. unfold hits_mesh in He.
  destruct (hits e) as [|hit rest] eqn:Hhits; [contradiction|]. subst m.
  destruct (browse_same cfg e w hit rest idx b Hhits Hf Hh) as (Hbs & Hhb & _ & Hfx).
  subst w'. rewrite Hhb, Hfx. unfold hovered_at. rewrite Hbs.
  split; [exact Hh|]. split; [|split].
  - apply hovered_in_alter_keep. reflexivity.
  - apply (find_blob_alter _ _ _ _ _ b); [reflexivity|exact Hf].
  - rewrite hover_cues_app. cbn. lia.
Qed.

(** Entering an orb whose project exists completes without exception. *)
Lemma browse_enter_result cfg e w (hit : Hit) (rest : list Hit) j b proj :
  hits e = hit :: rest -> find_blob (object hit) (blobs w) = Some (j, b) ->
  hoveredBlob w <> Some j -> PROJECTS cfg !! projectIdx b = Some proj ->
  result (pointerMove_browse cfg e) w = inr tt.
Proof.
  intros He Hf Hh Hproj. unfold result, pointerMove_browse, bind, get. rewrite He, Hf.
  assert (Hne : is_hoveredBlob w j = false).
  { unfold is_hoveredBlob. destruct (hoveredBlob w) as [p|]; [|reflexivity].
    apply Nat.eqb_neq. congruence. }
  rewrite Hne. unfold hover_transition, bind, get, project_name. cbn.
  destruct (hoveredBlob w) as [p|]; rewrite Hproj; reflexivity.
Qed.

End BuildAndPoint.

(** X15: From construction to the first hover: after [createOrbs] has built the
    orbs of a page whose projects all have a name, a pointer move whose ray
    first meets the hit mesh of the [i]-th orb completes without exception,
    makes orb [i] the one hovered orb, shows the name of project [i] in the
    label and plays the hover cue once. *)
Theorem createOrbs_pointer_resolution
    (host : Host) (cfg : Config) (w0 : World) (e : PointerEvent) (i : nat) (proj : Project) :
  blobs w0 = [] -> hoveredBlob w0 = None -> panelOpen (panelState w0) = false ->
  Forall named (PROJECTS cfg) ->
  PROJECTS cfg !! i = Some proj -> hits_mesh i e ->
  let w1 := exec (createOrbs host cfg) w0 in
  let w2 := exec (onPointerMove cfg e) w1 in
  result (onPointerMove cfg e) w1 = inr tt /\
  hoveredBlob w2 = Some i /\
  (forall k, hovered_at w2 k = true <-> k = i) /\
  effects w2 = effects w1 ++
    [LabelText (name proj); LabelShow true; CursorNone; PlayHover; NavSync (Some i);
     LabelAt (clientX e + 18) (clientY e - 14)].
Proof.
  intros Hempty Hnone Hp Hall Hproj He w1 w2.
  destruct (forEach_createOrb_meshes host cfg (PROJECTS cfg) 0 w0 Hall)
    as (new & g & Hrun & Hlen & Hnew).
  assert (Hw1 : w1 = set_blobs new (set_rng g w0)).
  { subst w1. unfold exec, createOrbs. rewrite Hrun, Hempty. reflexivity. }
  assert (Hb1 : blobs w1 = new) by (rewrite Hw1; reflexivity).
  assert (Hh1 : hoveredBlob w1 = None) by (rewrite Hw1; exact Hnone).
  assert (Hp1 : panelOpen (panelState w1) = false) by (rewrite Hw1; exact Hp).
  assert (Hfx1 : effects w1 = effects w0) by (rewrite Hw1; reflexivity).
  assert (Hmesh : forall k c, new !! k = Some c ->
            hitMesh c = k /\ projectIdx c = k /\ hovered c = false).
  { intros k c Hc. destruct (Hnew k c Hc) as (H1 & H2 & H3 & _).
    rewrite Hempty in H1. cbn in H1. cbn in H2. auto. }
  assert (Hi : (i < length new)%nat)
    by (rewrite Hlen; apply lookup_lt_Some in Hproj; exact Hproj).
  destruct (lookup_lt_is_Some_2 _ _ Hi) as [b Hb].
  destruct (Hmesh i b Hb) as (_ & Hpi & _).
  assert (Hf : find_blob i (blobs w1) = Some (i, b)).
  { rewrite Hb1. apply find_blob_indexed; [|exact Hb].
    intros k c Hc. apply (Hmesh k c Hc). }
  unfold hits_mesh in He.
  destruct (hits e) as [|hit rest] eqn:Hhits; [contradiction|].
  assert (Hf' : find_blob (object hit) (blobs w1) = Some (i, b))
    by (rewrite He; exact Hf).
  clear Hf. rename Hf' into Hf.
  assert (Hne : hoveredBlob w1 <> Some i) by (rewrite Hh1; discriminate).
  destruct (browse_enter cfg e w1 hit rest i b Hhits Hf Hne) as (Hbs & Hhb & _ & Hfx).
  rewrite Hpi, Hproj in Hfx.
  assert (Hres : result (onPointerMove cfg e) w1 = inr tt).
  { unfold result. rewrite onPointerMove_closed by exact Hp1.
    apply (browse_enter_result cfg e w1 hit rest i b proj Hhits Hf Hne).
    rewrite Hpi. exact Hproj. }
  assert (Hstep : w2 = exec (pointerMove_browse cfg e) w1).
  { subst w2. unfold exec. rewrite onPointerMove_closed by exact Hp1. reflexivity. }
  rewrite Hstep. split; [exact Hres|]. split; [exact Hhb|]. split; [|exact Hfx].
  intros k. unfold hovered_at. rewrite Hbs, Hh1. cbn [unhover_previous]. split.
  - intros Hk. destruct (decide (k = i)) as [->|Hki]; [reflexivity|].
    rewrite !hovered_in_alter_ne in Hk by exact Hki.
    rewrite Hb1 in Hk. unfold hovered_in in Hk.
    destruct (new !! k) as [c|] eqn:Hc; [|discriminate].
    destruct (Hmesh k c Hc) as (_ & _ & Hc'). congruence.
  - intros ->. apply hovered_in_set_true.
    rewrite length_alter, Hb1. exact Hi.
Qed.

Lemma createOrbs_pointer_resolution_witness :
  let e := mkPointerEvent 10 20 [mkHit 1 (0, 0, 0)%R] in
  let w1 := exec (createOrbs identity_host two_projects) empty_world in
  hits_mesh 1 e /\
  hoveredBlob (exec (onPointerMove two_projects e) w1) = Some 1%nat.
Proof.
  intros e w1. split; [reflexivity|].
  apply (createOrbs_pointer_resolution identity_host two_projects empty_world e 1
           (mkProject (Some "Flex Platform"%string)));
    try reflexivity.
  repeat constructor; discriminate.
Defined.

Section NavRoundTrip.

Implicit Types (cfg : Config) (w : World) (b : Blob) (bs : list Blob) (i idx : nat).

(** Setting and clearing [hovered] of a blob that was not hovered gives the
    list back. *)
Lemma alter_hovered_round_trip idx bs :
  hovered_in bs idx = false ->
  alter (set_hovered false) idx (alter (set_hovered true) idx bs) = bs.
Proof.
  intros Hidle. apply list_eq. intros i.
  destruct (decide (i = idx)) as [->|Hne].
  - rewrite !list_lookup_alter_eq. unfold hovered_in in Hidle.
    destruct (bs !! idx) as [b|]; cbn; [|reflexivity].
    f_equal. destruct b. cbn in Hidle |- *. rewrite Hidle. reflexivity.
  - rewrite !list_lookup_alter_ne by congruence. reflexivity.
Qed.

End NavRoundTrip.

(** X16: From construction to the side navigation: after [createOrbs] has built
    the orbs of a page whose projects all have a name, entering any nav item
    completes, plays the hover cue and makes the orb of that item the only
    hovered orb; leaving the item again restores every blob exactly.  The
    resolver's [hoveredBlob] is not involved. *)
Theorem nav_enter_leave_round_trip
    (host : Host) (cfg : Config) (w0 : World) (idx : nat) (item : NavItem) :
  blobs w0 = [] -> Forall named (PROJECTS cfg) ->
  initNav cfg !! idx = Some item ->
  let w1 := exec (createOrbs host cfg) w0 in
  let w2 := exec (mouseenter item) w1 in
  let w3 := exec (mouseleave item) w2 in
  result (mouseenter item) w1 = inr tt /\ result (mouseleave item) w2 = inr tt /\
  (forall k, hovered_at w2 k = true <-> k = idx) /\
  blobs w3 = blobs w1 /\ hoveredBlob w3 = hoveredBlob w0 /\
  effects w3 = effects w1 ++ [PlayHover; NavItemActive idx true; NavItemActive idx false].
Proof.
  intros Hempty Hall Hitem w1 w2 w3.
  destruct (forEach_createOrb_meshes host cfg (PROJECTS cfg) 0 w0 Hall)
    as (new & g & Hrun & Hlen & Hnew).
  assert (Hw1 : w1 = set_blobs new (set_rng g w0)).
  { subst w1. unfold exec, createOrbs. rewrite Hrun, Hempty. reflexivity. }
  assert (Hidle : forall k, hovered_in new k = false).
  { intros k. unfold hovered_in. destruct (new !! k) as [b|] eqn:Hb; [|reflexivity].
    apply (Hnew k b Hb). }
  assert (Hidx : (idx < length new)%nat).
  { rewrite Hlen, <- length_initNav. apply lookup_lt_Some in Hitem. exact Hitem. }
  destruct (initNav_lookup cfg idx item Hitem) as (_ & Henter).
  pose proof (initNav_mouseleave cfg idx item Hitem) as Hleave.
  assert (Hrun2 : mouseenter item w1
            = (inr tt, mkWorld (rng w1) (alter (set_hovered true) idx (blobs w1))
                         (hoveredBlob w1) (navIdx w1) (panelState w1)
                         (effects w1 ++ [PlayHover; NavItemActive idx true]))).
  { rewrite Henter. apply nav_mouseenter_run. rewrite Hw1. exact Hidx. }
  assert (Hw2 : w2 = mkWorld (rng w1) (alter (set_hovered true) idx (blobs w1))
                       (hoveredBlob w1) (navIdx w1) (panelState w1)
                       (effects w1 ++ [PlayHover; NavItemActive idx true]))
    by (subst w2; unfold exec; rewrite Hrun2; reflexivity).
  assert (Hrun3 : mouseleave item w2
            = (inr tt, mkWorld (rng w2) (alter (set_hovered false) idx (blobs w2))
                         (hoveredBlob w2) (navIdx w2) (panelState w2)
                         (effects w2 ++ [NavItemActive idx false]))).
  { rewrite Hleave. apply nav_mouseleave_run.
    rewrite Hw2. cbn [blobs]. rewrite length_alter, Hw1. exact Hidx. }
  split; [unfold result; rewrite Hrun2; reflexivity|].
  split; [unfold result; rewrite Hrun3; reflexivity|].
  split; [|split; [|split]].
  - intros k. rewrite Hw2. unfold hovered_at. cbn [blobs]. rewrite Hw1. cbn [blobs set_blobs].
    split.
    + intros Hk. destruct (decide (k = idx)) as [->|Hne]; [reflexivity|exfalso].
      rewrite hovered_in_alter_ne, Hidle in Hk by exact Hne. discriminate.
    + intros ->. apply hovered_in_set_true. exact Hidx.
  - subst w3. unfold exec at 1. rewrite Hrun3. cbn [snd blobs]. rewrite Hw2. cbn [blobs].
    apply alter_hovered_round_trip. rewrite Hw1. apply Hidle.
  - subst w3. unfold exec at 1. rewrite Hrun3. cbn [snd hoveredBlob]. rewrite Hw2.
    cbn [hoveredBlob]. rewrite Hw1. reflexivity.
  - subst w3. unfold exec at 1. rewrite Hrun3. cbn [snd effects]. rewrite Hw2.
    cbn [effects]. rewrite <- app_assoc. reflexivity.
Qed.

Lemma nav_enter_leave_round_trip_witness :
  let w1 := exec (createOrbs identity_host two_projects) empty_world in
  exists item,
    initNav two_projects !! 1%nat = Some item /\
    result (mouseenter item) w1 = inr tt /\
    blobs (exec (mouseleave item) (exec (mouseenter item) w1)) = blobs w1.
Proof.
  intros w1.
  assert (Hitem : is_Some (initNav two_projects !! 1%nat)) by (eexists; reflexivity).
  destruct (initNav two_projects !! 1%nat) as [item|] eqn:E; [|destruct Hitem; discriminate].
  exists item. split; [reflexivity|].
  destruct (nav_enter_leave_round_trip identity_host two_projects empty_world 1 item)
    as (H1 & _ & _ & H4 & _).
  - reflexivity.
  - repeat constructor; discriminate.
  - exact E.
  - split; [exact H1|exact H4].
Defined.

(** X17: With the panel closed, the nav and the pointer write the same
    [hovered] flag: when the resolver's [hoveredBlob] is orb [idx], that orb
    is the one the pointer's hit mesh belongs to, and [idx] is also the
    index of a nav item, leaving that nav item clears the orb's [hovered]
    although the pointer is still on it, and the pointer moves that stay on
    the orb do not set it again (nor play a cue): the resolver holds an orb
    that is not hovered. *)
Theorem nav_leave_clears_pointer_hover
    (cfg : Config) (w : World) (idx m : nat) (item : NavItem) (es : list PointerEvent) :
  panelOpen (panelState w) = false ->
  initNav cfg !! idx = Some item ->
  hoveredBlob w = Some idx ->
  (exists b, find_blob m (blobs w) = Some (idx, b)) ->
  Forall (hits_mesh m) es ->
  let w1 := exec (mouseleave item) w in
  let w2 := deliver (onPointerMove cfg) es w1 in
  result (mouseleave item) w = inr tt /\
  hoveredBlob w2 = Some idx /\ hovered_at w2 idx = false /\
  cues_played w1 w2 = 0%nat.
Proof.
  intros Hp Hitem Hh [b Hf] Hes w1 w2.
  pose proof (initNav_mouseleave cfg idx item Hitem) as Hleave.
  destruct (find_blob_Some _ _ _ _ Hf) as (Hb & _).
  assert (Hidx : (idx < length (blobs w))%nat) by (apply lookup_lt_Some in Hb; exact Hb).
  pose proof (nav_mouseleave_run idx w Hidx) as Hrun. rewrite <- Hleave in Hrun.
  assert (Hres : result (mouseleave item) w = inr tt)
    by (unfold result; rewrite Hrun; reflexivity).
  split; [exact Hres|].
  assert (Hinv : panelOpen (panelState w1) = false /\ hoveredBlob w1 = Some idx /\
                 hovered_at w1 idx = false /\
                 exists b', find_blob m (blobs w1) = Some (idx, b')).
  { subst w1. unfold exec. rewrite Hrun. cbn [snd panelState hoveredBlob blobs].
    split; [exact Hp|]. split; [exact Hh|]. split.
    - unfold hovered_at. cbn [blobs]. unfold hovered_in.
      rewrite list_lookup_alter_eq, Hb. reflexivity.
    - apply (find_blob_alter _ _ _ _ _ b); [reflexivity|exact Hf]. }
  subst w2. unfold cues_played, deliver. clearbody w1. clear - Hinv Hes.
  revert w1 Hinv.
  induction Hes as [|e es He Hes IH]; intros w1 (Hp & Hh & Hhov & Hf); cbn [fold_left].
  - split; [exact Hh|]. split; [exact Hhov|]. lia.
  - assert (Hstep : exec (onPointerMove cfg e) w1 = exec (pointerMove_browse cfg e) w1).
    { unfold exec. rewrite onPointerMove_closed by exact Hp. reflexivity. }
    rewrite Hstep.
    destruct (browse_stay cfg e w1 m idx Hh He Hf) as (S1 & S2 & S3 & S4).
    destruct (IH (exec (pointerMove_browse cfg e) w1)) as (I1 & I2 & I3).
    { rewrite browse_panelState. split; [exact Hp|]. split; [exact S1|].
      split; [rewrite S2; exact Hhov|exact S3]. }
    split; [exact I1|]. split; [exact I2|]. rewrite <- S4. exact I3.
Qed.

Lemma nav_leave_clears_pointer_hover_witness :
  let e := mkPointerEvent 10 20 [mkHit 1 (0, 0, 0)%R] in
  let w := exec (onPointerMove two_projects e) two_orbs in
  exists item,
    initNav two_projects !! 1%nat = Some item /\
    hoveredBlob w = Some 1%nat /\
    hovered_at w 1 = true /\
    hovered_at (deliver (onPointerMove two_projects) [e; e] (exec (mouseleave item) w)) 1
    = false.
Proof.
  intros e w.
  assert (Hitem : is_Some (initNav two_projects !! 1%nat)) by (eexists; reflexivity).
  destruct (initNav two_projects !! 1%nat) as [item|] eqn:E; [|destruct Hitem; discriminate].
  exists item. split; [reflexivity|]. split; [reflexivity|]. split; [reflexivity|].
  apply (nav_leave_clears_pointer_hover two_projects w 1 1 item [e; e]).
  - reflexivity.
  - exact E.
  - reflexivity.
  - eexists. reflexivity.
  - repeat constructor.
Defined.

(* ================================================================== *)
(** * Properties of the orbs [createOrbs] builds *)
(* ================================================================== *)

Section BuiltOrbs.

Local Open Scope R_scope.

Implicit Types (host : Host) (cfg : Config) (proj : Project) (w : World) (g : Rng).

Lemma unit_draws_same g g' : draws g' = draws g -> unit_draws g -> unit_draws g'.
Proof. unfold unit_draws. intros -> H. exact H. Qed.

(** ** Steps of [createOrbs], with the range of what they draw *)

Lemma rand_unit w :
  unit_draws (rng w) ->
  exists u g, rand w = (inr u, set_rng g w) /\ unit_draws g /\ 0 <= u < 1.
Proof.
  intros Hd. eexists. eexists. split; [reflexivity|]. split; [exact Hd|apply Hd].
Qed.

Lemma rand3_unit (f1 f2 f3 : R -> R) w :
  unit_draws (rng w) ->
  exists u1 u2 u3 g,
    rand3 f1 f2 f3 w = (inr (f1 u1, f2 u2, f3 u3), set_rng g w) /\ unit_draws g.
Proof.
  intros Hd. do 4 eexists. split; [reflexivity|exact Hd].
Qed.

Lemma randomCoeffs_unit (base amp : R) w :
  0 <= amp -> unit_draws (rng w) ->
  exists c g,
    zoom rng set_rng (randomCoeffs (Num base) (Num amp)) w = (inr c, set_rng g w) /\
    unit_draws g /\ banded base amp c.
Proof.
  intros Hamp Hd.
  destruct (randomCoeffs_weighted base amp (rng w) Hamp Hd)
    as (cs & g' & Hrun & Hsame & Hlen & Hw).
  exists (map Num (base :: cs)), g'. unfold zoom. rewrite Hrun.
  split; [reflexivity|]. split; [exact (unit_draws_same _ _ Hsame Hd)|].
  exists cs. auto.
Qed.

Lemma draw_loop_unit (n i : nat) w :
  unit_draws (rng w) ->
  exists g,
    for_loop n i (fun (_ : nat) (acc : unit) => bind rand (fun _ => ret acc)) tt w
    = (inr tt, set_rng g w) /\ unit_draws g.
Proof.
  revert i w. induction n as [|n IH]; intros i w Hd; cbn [for_loop].
  - exists (rng w). rewrite set_rng_id. split; [reflexivity|exact Hd].
  - destruct (rand_unit w Hd) as (u & g & Hu & Hg & _).
    assert (Hb : bind rand (fun _ => ret tt) w = (inr tt, set_rng g w))
      by (rewrite (bind_inr _ _ _ _ _ Hu); reflexivity).
    rewrite (bind_inr _ _ _ _ _ Hb).
    destruct (IH (S i) (set_rng g w) Hg) as (g' & Hg' & Hd'). rewrite Hg'.
    exists g'. split; [reflexivity|exact Hd'].
Qed.

Lemma makeDottedLabel_unit host (text : string) w :
  unit_draws (rng w) ->
  exists lbl g, makeDottedLabel host text w = (inr lbl, set_rng g w) /\ unit_draws g.
Proof.
  intros Hd. unfold makeDottedLabel, for_range.
  destruct (draw_loop_unit (canvasDots host text - 0) 0 w Hd) as (g & Hg & Hd').
  rewrite (bind_inr _ _ _ _ _ Hg). eexists. exists g. split; [reflexivity|exact Hd'].
Qed.

Lemma origin_unit cfg (idx : nat) w :
  unit_draws (rng w) ->
  exists o g,
    match ORB_ORIGINS cfg !! idx with
    | Some o => ret o
    | None =>
        rand3 (fun u => (u - 0.5) * 10) (fun u => (u - 0.5) * 6) (fun u => (u - 0.5) * 4)
    end w
    = (inr o, set_rng g w) /\ unit_draws g.
Proof.
  intros Hd. destruct (ORB_ORIGINS cfg !! idx) as [o|].
  - exists o, (rng w). rewrite set_rng_id. split; [reflexivity|exact Hd].
  - destruct (rand3_unit (fun u => (u - 0.5) * 10) (fun u => (u - 0.5) * 6)
                (fun u => (u - 0.5) * 4) w Hd) as (u1 & u2 & u3 & g & Hrun & Hg).
    eexists. exists g. split; [exact Hrun|exact Hg].
Qed.

(** [Math.floor] of twelve times a draw is at most 11. *)
Lemma Math_floor_draw (u : R) : 0 <= u < 1 -> (Math_floor (u * 12) <= 11)%nat.
Proof.
  intros Hu. unfold Math_floor.
  destruct (base_Int_part (u * 12)) as [Hle _].
  assert (Hlt : (Int_part (u * 12) < 12)%Z) by (apply lt_IZR; lra).
  lia.
Qed.

(** Replace the first step of [createOrb] by its outcome; [Hd] is the range
    of the draws of the current random source. *)
Ltac draw_step E Hd :=
  lazymatch type of E with
  | bind ?m ?k ?w = _ =>
      let a := fresh "a" in
      let g := fresh "g" in
      let Ha := fresh "Ha" in
      let Hg := fresh "Hg" in
      lazymatch m with
      | rand =>
          let Hu := fresh "Hu" in
          destruct (rand_unit w Hd) as (a & g & Ha & Hg & Hu)
      | rand3 ?f1 ?f2 ?f3 =>
          let u1 := fresh "u" in
          let u2 := fresh "u" in
          let u3 := fresh "u" in
          destruct (rand3_unit f1 f2 f3 w Hd) as (u1 & u2 & u3 & g & Ha & Hg)
      | makeDottedLabel ?host ?text =>
          destruct (makeDottedLabel_unit host text w Hd) as (a & g & Ha & Hg)
      | match ORB_ORIGINS ?cfg !! ?idx with _ => _ end =>
          destruct (origin_unit cfg idx w Hd) as (a & g & Ha & Hg)
      end;
      rewrite (bind_inr _ _ _ _ _ Ha) in E; clear Ha; cbv beta zeta in E;
      clear Hd; rename Hg into Hd
  end.

(** A descriptor with a name, a random source with draws in [0, 1): the orb
    appended has its parameters in range and its cloud morphed. *)
Lemma createOrb_shape host cfg proj (idx : nat) (s : string) w :
  name proj = Some s -> unit_draws (rng w) ->
  exists b g,
    createOrb host cfg proj idx w = (inr tt, set_blobs (blobs w ++ [b]) (set_rng g w)) /\
    unit_draws g /\ shape_in_range (shape b) /\ cloud_morphed host (shape b).
Proof.
  intros Hname Hd.
  destruct (createOrb host cfg proj idx w) as [r w'] eqn:E.
  unfold createOrb in E.
  draw_step E Hd. rename a into u1, Hu into Hu1.
  draw_step E Hd. rename a into u2, Hu into Hu2.
  destruct (randomCoeffs_unit (1.0 + u2 * 0.7) ((1.0 + u2 * 0.7) * 0.35)
              (set_rng g0 (set_rng g w)))
    as (c & g1 & Hc & Hd1 & Hband); [lra|exact Hd|].
  rewrite (bind_inr _ _ _ _ _ Hc) in E. clear Hc Hd. cbv beta zeta in E.
  rewrite Hname in E. cbn [call_toUpperCase] in E.
  rewrite bind_ret in E. cbv beta zeta in E.
  draw_step E Hd1. draw_step E Hd1.
  destruct (randomCoeffs_unit (1.0 + u2 * 0.7) ((1.0 + u2 * 0.7) * 0.35)
              (set_rng g3 (set_rng g2 (set_rng g1 (set_rng g0 (set_rng g w))))))
    as (ct & g4 & Hct & Hd4 & Hbandt); [lra|exact Hd1|].
  rewrite (bind_inr _ _ _ _ _ Hct) in E. clear Hct Hd1. cbv beta zeta in E.
  draw_step E Hd4. rename a1 into lerp, Hu into Hlerp.
  draw_step E Hd4. rename a1 into um, Hu into Hum.
  repeat draw_step E Hd4.
  unfold modify in E. injection E as <- <-.
  eexists. eexists. split; [reflexivity|]. split; [exact Hd4|].
  split.
  - unfold shape_in_range. cbn [shape baseR seg ampHi lerpT morphSpeed coeffs coeffsTarget].
    pose proof (Math_floor_draw u1 Hu1).
    repeat split; try lra; try lia; assumption.
  - unfold cloud_morphed. cbn [shape baseR seg unitAngles geo coeffs]. split; reflexivity.
Qed.

(** [createOrbs] on descriptors that all have a name. *)
Lemma forEach_createOrb_shapes host cfg (projs : list Project) (idx : nat) w :
  Forall named projs -> unit_draws (rng w) ->
  exists new g,
    forEach projs idx (createOrb host cfg) w
    = (inr tt, set_blobs (blobs w ++ new) (set_rng g w)) /\
    Forall (fun b => shape_in_range (shape b) /\ cloud_morphed host (shape b)) new.
Proof.
  intros Hall. revert idx w.
  induction Hall as [|proj projs Hproj Hall IH]; intros idx w Hd; cbn [forEach].
  - exists [], (rng w). rewrite app_nil_r.
    split; [destruct w; reflexivity|constructor].
  - destruct (name proj) as [s|] eqn:Hname; [|contradiction Hproj; exact Hname].
    destruct (createOrb_shape host cfg proj idx s w Hname Hd)
      as (b & g & Hrun & Hg & Hshape).
    rewrite (bind_inr _ _ _ _ _ Hrun).
    destruct (IH (S idx) (set_blobs (blobs w ++ [b]) (set_rng g w)) Hg)
      as (new & g' & Hrest & Hnew).
    rewrite Hrest. exists (b :: new), g'. split.
    + cbn. rewrite <- app_assoc. reflexivity.
    + constructor; assumption.
Qed.

(** A morphed vertex is the point of the unit sphere at its cached angles,
    scaled by the radius. *)
Lemma morph_vertex_scaled (ua c : list jsnum) (base theta phi r : R) (i : nat) :
  aget ua (i * 2) = Num theta -> aget ua (i * 2 + 1) = Num phi ->
  (Num base + shDeform (Num theta) (Num phi) c)%js = Num r ->
  morph_vertex ua c (Num base) i = scale3 r (unit_point theta phi).
Proof.
  intros Ht Hp Hr. unfold morph_vertex. rewrite Ht, Hp. cbv zeta. rewrite Hr.
  unfold scale3, unit_point. cbn. rewrite !Rmult_assoc. reflexivity.
Qed.

(** Every vertex of a cloud morphed with banded coefficients lies at a
    distance between [0.46 * baseR] and [2.11 * baseR] from the centre. *)
Lemma cloud_vertex_distance host (sh : Shape) (i : nat) :
  shape_in_range sh -> cloud_morphed host sh ->
  (i < count (position (geo sh)))%nat ->
  exists v r,
    verts (position (geo sh)) !! i = Some v /\ norm3 v = Num r /\
    0.46 * baseR sh <= r <= 2.11 * baseR sh.
Proof.
  intros (Hbase & _ & Hamp & _ & _ & (cs & Hc & Hlen & Hw) & _) (Hua & Hgeo) Hi.
  cbv zeta in Hgeo. rewrite Hgeo in Hi |- *.
  rewrite morphGeo_count in Hi.
  rewrite morphGeo_vertex by exact Hi.
  set (up := SphereGeometry host 1 (seg sh) (seg sh)) in *.
  assert (Hup : (i < length up)%nat).
  { unfold count, geometry_of in Hi. cbn [position verts] in Hi.
    rewrite length_map in Hi. exact Hi. }
  destruct (lookup_lt_is_Some_2 _ _ Hup) as [v Hv].
  destruct (computeUnitAngles_lookup up i v Hv) as [Ht Hp].
  rewrite Hamp in Hw.
  destruct (radius_range (baseR sh) (polar_angle v) (azimuth_angle v) cs) as (r & Hr & Hrange);
    [lra|exact Hlen|exact Hw|].
  rewrite <- Hc in Hr.
  eexists. exists r. split; [reflexivity|].
  rewrite (morph_vertex_scaled _ _ _ _ _ r i Ht Hp Hr).
  rewrite norm3_scale3_unit_point. split; [|exact Hrange].
  f_equal. apply Rabs_pos_eq. lra.
Qed.

End BuiltOrbs.

(** X18: Every orb [createOrbs] builds has its parameters in the ranges they are
    drawn from: base radius in [1, 1.7), 44 to 55 segments, amplitude 0.35
    times the radius, morph progress in [0, 1), morph speed in
    [0.07, 0.14), and twelve coefficients that start with the base
    radius. *)
Theorem createOrbs_parameters (host : Host) (cfg : Config) (w : World) :
  Forall named (PROJECTS cfg) -> unit_draws (rng w) -> blobs w = [] ->
  Forall
    (fun b =>
       (1 <= baseR (shape b) < 1.7)%R /\ (44 <= seg (shape b) <= 55)%nat /\
       ampHi (shape b) = (baseR (shape b) * 0.35)%R /\
       (0 <= lerpT (shape b) < 1)%R /\ (0.07 <= morphSpeed (shape b) < 0.14)%R /\
       length (coeffs (shape b)) = 12%nat /\ length (coeffsTarget (shape b)) = 12%nat /\
       aget (coeffs (shape b)) 0 = Num (baseR (shape b)) /\
       aget (coeffsTarget (shape b)) 0 = Num (baseR (shape b)))
    (blobs (exec (createOrbs host cfg) w)).
Proof.
  intros Hall Hd Hempty.
  destruct (forEach_createOrb_shapes host cfg (PROJECTS cfg) 0 w Hall Hd)
    as (new & g & Hrun & Hnew).
  unfold exec, createOrbs. rewrite Hrun, Hempty. cbn [snd blobs set_blobs app].
  apply (Forall_impl _ _ _ Hnew).
  intros b ((H1 & H2 & H3 & H4 & H5 & (cs & Hc & Hlen & _) & (ct & Hct & Hlent & _)) & _).
  rewrite Hc, Hct. cbn [map length aget lookup]. rewrite !length_map, Hlen, Hlent.
  repeat split; try tauto; try lra; try lia.
Qed.

Lemma createOrbs_parameters_witness :
  Forall named (PROJECTS two_projects) /\ unit_draws (rng empty_world) /\
  Forall (fun b => (1 <= baseR (shape b) < 1.7)%R /\ (44 <= seg (shape b) <= 55)%nat)
    (blobs (exec (createOrbs identity_host two_projects) empty_world)).
Proof.
  assert (Hall : Forall named (PROJECTS two_projects))
    by (repeat constructor; discriminate).
  assert (Hd : unit_draws (rng empty_world)) by (intros n; cbn; lra).
  split; [exact Hall|]. split; [exact Hd|].
  apply (Forall_impl _ _ _
           (createOrbs_parameters identity_host two_projects empty_world Hall Hd eq_refl)).
  intros b (H1 & H2 & _). split; [exact H1|exact H2].
Defined.

(** X19: The surface of a freshly built orb never reaches its centre: the point
    cloud of an orb built by [createOrbs] has one vertex per vertex of the
    unit sphere it was made from, and every vertex [morphGeo] wrote into it
    lies at a distance between 0.46 and 2.11 times the orb's base radius
    from the centre. *)
Theorem createOrbs_vertex_distance (host : Host) (cfg : Config) (w : World) :
  Forall named (PROJECTS cfg) -> unit_draws (rng w) -> blobs w = [] ->
  Forall
    (fun b =>
       let cloud := position (geo (shape b)) in
       count cloud = length (SphereGeometry host 1 (seg (shape b)) (seg (shape b))) /\
       forall i, (i < count cloud)%nat ->
         exists v r,
           verts cloud !! i = Some v /\ norm3 v = Num r /\
           (0.46 * baseR (shape b) <= r <= 2.11 * baseR (shape b))%R)
    (blobs (exec (createOrbs host cfg) w)).
Proof.
  intros Hall Hd Hempty.
  destruct (forEach_createOrb_shapes host cfg (PROJECTS cfg) 0 w Hall Hd)
    as (new & g & Hrun & Hnew).
  unfold exec, createOrbs. rewrite Hrun, Hempty. cbn [snd blobs set_blobs app].
  apply (Forall_impl _ _ _ Hnew).
  intros b (Hrange & Hcloud). cbv zeta. split.
  - destruct Hcloud as (_ & Hgeo). cbv zeta in Hgeo. rewrite Hgeo, morphGeo_count.
    unfold count, geometry_of. cbn [position verts]. apply length_map.
  - intros i Hi. apply (cloud_vertex_distance host (shape b) i Hrange Hcloud Hi).
Qed.

Lemma createOrbs_vertex_distance_witness :
  Forall named (PROJECTS two_projects) /\ unit_draws (rng empty_world) /\
  Forall
    (fun b =>
       let cloud := position (geo (shape b)) in
       count cloud = 2%nat /\
       forall i, (i < count cloud)%nat ->
         exists v r,
           verts cloud !! i = Some v /\ norm3 v = Num r /\
           (0.46 * baseR (shape b) <= r <= 2.11 * baseR (shape b))%R)
    (blobs (exec (createOrbs two_vertex_host two_projects) empty_world)).
Proof.
  assert (Hall : Forall named (PROJECTS two_projects))
    by (repeat constructor; discriminate).
  assert (Hd : unit_draws (rng empty_world)) by (intros n; cbn; lra).
  split; [exact Hall|]. split; [exact Hd|].
  exact (createOrbs_vertex_distance two_vertex_host two_projects empty_world Hall Hd eq_refl).
Defined.

(* ================================================================== *)
(** * Properties of keyboard navigation, click and tap *)
(* ================================================================== *)

Section ControlsFacts.

Local Open Scope R_scope.

Implicit Types (vp : Viewport) (cfg : Config) (w : World) (d : Desk) (b : Blob).
Implicit Types (bs : list Blob) (i j k p n : nat) (idx : option nat).

Lemma unhover_previous_lookup h bs i b :
  unhover_previous h bs !! i = Some b ->
  exists b0, bs !! i = Some b0 /\ projectIdx b = projectIdx b0.
Proof.
  destruct h as [p|]; cbn [unhover_previous]; [|intros H; exists b; auto].
  destruct (decide (i = p)) as [->|Hne].
  - rewrite list_lookup_alter_eq. destruct (bs !! p) as [b0|]; cbn; [|discriminate].
    intros [= <-]. exists b0. auto.
  - rewrite list_lookup_alter_ne by congruence. intros H. exists b. auto.
Qed.

Lemma unhover_previous_is_Some h bs i :
  is_Some (bs !! i) -> is_Some (unhover_previous h bs !! i).
Proof.
  intros H. apply lookup_lt_is_Some_2. rewrite length_unhover_previous.
  apply lookup_lt_is_Some_1. exact H.
Qed.

(** What [highlightOrb] leaves behind: when [blobs[idx]] is undefined, the
    previous orb unhovered and nothing else; otherwise the hover moved to
    [idx] and the cue played, and the label and nav updated when the
    project exists. *)
Lemma highlight_state vp cfg idx w :
  let w' := exec (highlightOrb vp cfg idx) w in
  panelState w' = panelState w /\ navIdx w' = navIdx w /\
  match blob_at w idx with
  | None =>
      blobs w' = unhover_previous (hoveredBlob w) (blobs w) /\
      hoveredBlob w' = hoveredBlob w /\ effects w' = effects w
  | Some (i, b) =>
      blobs w' = alter (set_hovered true) i (unhover_previous (hoveredBlob w) (blobs w)) /\
      hoveredBlob w' = Some i /\
      effects w' = effects w ++ PlayHover ::
        match PROJECTS cfg !! projectIdx b with
        | Some proj =>
            [LabelText (name proj); LabelShow true; label_position vp i; NavSync (Some i)]
        | None => []
        end
  end.
Proof.
  cbv zeta. unfold exec, highlightOrb, bind, get.
  assert (Hat : forall bs',
            bs' = unhover_previous (hoveredBlob w) (blobs w) ->
            match blob_at w idx with
            | None => blob_at (set_blobs bs' w) idx = None
            | Some (i, b) => exists b', blob_at (set_blobs bs' w) idx = Some (i, b') /\
                                        projectIdx b' = projectIdx b
            end).
  { intros bs' ->. unfold blob_at. destruct idx as [i|]; [|reflexivity].
    cbn [blobs set_blobs].
    destruct (blobs w !! i) as [b|] eqn:Hb.
    - destruct (unhover_previous_is_Some (hoveredBlob w) (blobs w) i) as [b' Hb'];
        [rewrite Hb; eexists; reflexivity|].
      rewrite Hb'. exists b'. split; [reflexivity|].
      destruct (unhover_previous_lookup _ _ _ _ Hb') as (b0 & Hb0 & Hp). congruence.
    - destruct (unhover_previous (hoveredBlob w) (blobs w) !! i) as [b'|] eqn:Hb';
        [|reflexivity].
      destruct (unhover_previous_lookup _ _ _ _ Hb') as (b0 & Hb0 & _). congruence. }
  specialize (Hat _ eq_refl).
  destruct (hoveredBlob w) as [p|] eqn:Hp; cbn [unhover_previous] in *;
    unfold update_blob, modify, ret; cbn [fst snd].
  - destruct (blob_at w idx) as [[i b]|].
    + destruct Hat as (b' & -> & Hpi). cbn.
      unfold project_name. rewrite Hpi.
      destruct (PROJECTS cfg !! projectIdx b); cbn;
        [unfold label_position; destruct (projected vp i) as [[wx wy] wz]; cbn|];
        rewrite <- ?app_assoc; auto.
    + rewrite Hat. cbn. rewrite Hp. auto.
  - clear Hat. destruct (blob_at w idx) as [[i b]|].
    + cbn. unfold project_name.
      destruct (PROJECTS cfg !! projectIdx b); cbn;
        [unfold label_position; destruct (projected vp i) as [[wx wy] wz]; cbn|];
        rewrite <- ?app_assoc; auto.
    + cbn. rewrite Hp. auto.
Qed.

(** After the previous orb is unhovered, no orb is hovered. *)
Lemma unhover_previous_none w i :
  resolver_tracks w -> hovered_in (unhover_previous (hoveredBlob w) (blobs w)) i = false.
Proof.
  intros Inv. destruct (hovered_in (unhover_previous (hoveredBlob w) (blobs w)) i) eqn:Hi;
    [exfalso|reflexivity].
  destruct (hoveredBlob w) as [p|] eqn:Hp; cbn [unhover_previous] in Hi.
  - destruct (decide (i = p)) as [->|Hne].
    + rewrite hovered_in_unhover in Hi. discriminate.
    + rewrite hovered_in_alter_ne in Hi by exact Hne.
      apply Inv in Hi. congruence.
  - apply Inv in Hi. congruence.
Qed.

Lemma highlight_tracks vp cfg idx w :
  resolver_tracks w -> resolver_tracks (exec (highlightOrb vp cfg idx) w).
Proof.
  intros Inv i. unfold hovered_at.
  destruct (highlight_state vp cfg idx w) as (_ & _ & H).
  destruct (blob_at w idx) as [[k b]|]; destruct H as (Hbs & Hhb & _); rewrite Hbs, Hhb.
  - intros Hi. destruct (decide (i = k)) as [->|Hne]; [reflexivity|exfalso].
    rewrite hovered_in_alter_ne in Hi by exact Hne.
    rewrite unhover_previous_none in Hi by exact Inv. discriminate.
  - intros Hi. rewrite unhover_previous_none in Hi by exact Inv. discriminate.
Qed.

Lemma highlight_panelState vp cfg idx w :
  panelState (exec (highlightOrb vp cfg idx) w) = panelState w.
Proof. apply highlight_state. Qed.

Lemma highlight_length vp cfg idx w :
  length (blobs (exec (highlightOrb vp cfg idx) w)) = length (blobs w).
Proof.
  destruct (highlight_state vp cfg idx w) as (_ & _ & H).
  destruct (blob_at w idx) as [[k b]|]; destruct H as (-> & _);
    rewrite ?length_alter, length_unhover_previous; reflexivity.
Qed.

(** ** One key press *)

(** An arrow key with the panel closed: the index moves, then the orb at
    the new index is highlighted. *)
Lemma onKeyNav_arrow vp cfg (e : KeyEvent) d :
  panelOpen (panelState (page d)) = false ->
  let n := length (blobs (page d)) in
  forall next,
    (steps_forward e /\
     next = js_mod (option_map (fun i => (i + 1)%nat) (nav_number d)) n) \/
    (steps_back e /\
     next = js_mod (option_map (fun i => (i + n - 1)%nat) (nav_number d)) n) ->
    onKeyNav vp cfg e d
    = zoom page set_page (highlightOrb vp cfg next)
        (exec (assign_navIdx next) (exec (call PreventDefault) d)).
Proof.
  intros Hp n next H. unfold onKeyNav, bind, get. rewrite Hp.
  destruct H as [[Hf ->]|[[Hnf Hb] ->]].
  - unfold steps_forward in Hf. rewrite Hf. reflexivity.
  - rewrite Hnf, Hb. reflexivity.
Qed.

(** Any other key leaves the page alone. *)
Lemma onKeyNav_other vp cfg (e : KeyEvent) d :
  ~ steps_forward e -> ~ steps_back e ->
  page (exec (onKeyNav vp cfg e) d) = page d /\
  navNaN (exec (onKeyNav vp cfg e) d) = navNaN d.
Proof.
  intros Hf Hb. unfold exec, onKeyNav, bind, get.
  destruct (panelOpen (panelState (page d))); [split; reflexivity|].
  unfold steps_forward, steps_back in *.
  destruct (key_is e "ArrowRight" || key_is e "ArrowDown"); [contradiction Hf; reflexivity|].
  destruct (key_is e "ArrowLeft" || key_is e "ArrowUp"); [contradiction Hb; auto|].
  destruct (key_is e "Enter"); split; reflexivity.
Qed.

Lemma steps_cases (e : KeyEvent) :
  steps_forward e \/ steps_back e \/ (~ steps_forward e /\ ~ steps_back e).
Proof.
  unfold steps_forward, steps_back.
  destruct (key_is e "ArrowRight" || key_is e "ArrowDown");
    destruct (key_is e "ArrowLeft" || key_is e "ArrowUp"); intuition congruence.
Qed.

(** The page a key press leaves, in terms of [highlightOrb]. *)
Lemma onKeyNav_page vp cfg (e : KeyEvent) d :
  panelOpen (panelState (page d)) = false ->
  page (exec (onKeyNav vp cfg e) d) = page d \/
  exists next w1,
    panelState w1 = panelState (page d) /\ blobs w1 = blobs (page d) /\
    hoveredBlob w1 = hoveredBlob (page d) /\ effects w1 = effects (page d) /\
    page (exec (onKeyNav vp cfg e) d) = exec (highlightOrb vp cfg next) w1.
Proof.
  intros Hp.
  assert (Harrow : forall next,
            onKeyNav vp cfg e d
            = zoom page set_page (highlightOrb vp cfg next)
                (exec (assign_navIdx next) (exec (call PreventDefault) d)) ->
            exists next w1,
              panelState w1 = panelState (page d) /\ blobs w1 = blobs (page d) /\
              hoveredBlob w1 = hoveredBlob (page d) /\ effects w1 = effects (page d) /\
              page (exec (onKeyNav vp cfg e) d) = exec (highlightOrb vp cfg next) w1).
  { intros next Hrun.
    exists next, (page (exec (assign_navIdx next) (exec (call PreventDefault) d))).
    split; [destruct next; reflexivity|].
    split; [destruct next; reflexivity|].
    split; [destruct next; reflexivity|].
    split; [destruct next; reflexivity|].
    unfold exec at 1. rewrite Hrun. unfold zoom, exec.
    destruct (highlightOrb vp cfg next _) as [r w2]. reflexivity. }
  destruct (steps_cases e) as [Hf|[Hb|[Hnf Hnb]]].
  - right. apply (Harrow _ (onKeyNav_arrow vp cfg e d Hp _ (or_introl (conj Hf eq_refl)))).
  - right. apply (Harrow _ (onKeyNav_arrow vp cfg e d Hp _ (or_intror (conj Hb eq_refl)))).
  - left. apply onKeyNav_other; assumption.
Qed.

Lemma set_page_tracks w w1 :
  blobs w1 = blobs w -> hoveredBlob w1 = hoveredBlob w ->
  resolver_tracks w -> resolver_tracks w1.
Proof.
  intros Hb Hh Inv i. unfold hovered_at. rewrite Hb, Hh. apply Inv.
Qed.

(** One browsing event keeps the panel closed and the resolver tracking. *)
Lemma listener_tracks vp cfg (ev : InputEvent) d :
  browsing ev ->
  panelOpen (panelState (page d)) = false -> resolver_tracks (page d) ->
  panelOpen (panelState (page (exec (listener vp cfg ev) d))) = false /\
  resolver_tracks (page (exec (listener vp cfg ev) d)).
Proof.
  intros Hev Hp Inv. destruct ev as [e|e|e|e]; cbn [browsing] in Hev; try contradiction;
    cbn [listener].
  - assert (Hpage : page (exec (zoom page set_page (onPointerMove cfg e)) d)
                    = exec (pointerMove_browse cfg e) (page d)).
    { unfold exec, zoom. rewrite onPointerMove_closed by exact Hp.
      destruct (pointerMove_browse cfg e (page d)); reflexivity. }
    rewrite Hpage. split.
    + rewrite browse_panelState. exact Hp.
    + apply browse_tracks. exact Inv.
  - destruct (onKeyNav_page vp cfg e d Hp)
      as [->|(next & w1 & Hps & Hbs & Hhb & _ & ->)]; [auto|].
    split.
    + rewrite highlight_panelState, Hps. exact Hp.
    + apply highlight_tracks. apply (set_page_tracks (page d)); assumption.
Qed.

End ControlsFacts.

(** X20: Pointer and keyboard share one hover: with the panel closed, after any
    sequence of pointer moves and key presses (Enter apart) that starts
    with every hovered orb known to the resolver, at most one orb is
    hovered, and it is the resolver's [hoveredBlob]. *)
Theorem pointer_and_keys_hover_one
    (vp : Viewport) (cfg : Config) (evs : list InputEvent) (d : Desk) :
  Forall browsing evs ->
  panelOpen (panelState (page d)) = false -> resolver_tracks (page d) ->
  let d' := handle vp cfg evs d in
  one_hovered (page d') /\
  forall i, hovered_at (page d') i = true -> hoveredBlob (page d') = Some i.
Proof.
  intros Hevs Hp Inv d'.
  assert (H : panelOpen (panelState (page d')) = false /\ resolver_tracks (page d')).
  { subst d'. unfold handle. revert d Hp Inv.
    induction Hevs as [|ev evs Hev Hevs IH]; intros d Hp Inv; cbn [fold_left]; [auto|].
    destruct (listener_tracks vp cfg ev d Hev Hp Inv) as (Hp' & Inv').
    apply IH; assumption. }
  destruct H as (_ & Inv'). split; [|exact Inv'].
  intros i j Hi Hj. apply (tracks_exclusive (page d') i j Inv' Hi Hj).
Qed.

Lemma pointer_and_keys_hover_one_witness :
  let evs := [PointerMove (mkPointerEvent 10 20 [mkHit 1 (0, 0, 0)%R]);
              KeyDown (mkKeyEvent "ArrowRight");
              KeyDown (mkKeyEvent "ArrowUp");
              PointerMove (mkPointerEvent 30 20 [mkHit 0 (1, 2, 3)%R])] in
  Forall browsing evs /\
  one_hovered (page (handle centred_viewport two_projects evs (desk_of two_orbs))).
Proof.
  intros evs.
  assert (Hevs : Forall browsing evs) by (repeat constructor).
  split; [exact Hevs|].
  apply (pointer_and_keys_hover_one centred_viewport two_projects evs (desk_of two_orbs) Hevs).
  - reflexivity.
  - intros i Hi. destruct i as [|[|i]]; discriminate Hi.
Defined.

Section ArrowKeys.

Implicit Types (vp : Viewport) (cfg : Config) (w : World) (d : Desk) (b : Blob).
Implicit Types (bs : list Blob) (i j k p n : nat) (e : KeyEvent).

(** Highlighting an orb that exists and has a project. *)
Lemma highlight_valid vp cfg w i :
  (i < length (blobs w))%nat -> valid_projects cfg w -> resolver_tracks w ->
  let w' := exec (highlightOrb vp cfg (Some i)) w in
  result (highlightOrb vp cfg (Some i)) w = inr tt /\
  hoveredBlob w' = Some i /\
  (forall k, hovered_at w' k = true <-> k = i) /\
  cues_played w w' = 1%nat /\
  valid_projects cfg w' /\ navIdx w' = navIdx w.
Proof.
  intros Hi Hv Inv w'.
  destruct (lookup_lt_is_Some_2 _ _ Hi) as [b Hb].
  assert (Hpb : (projectIdx b < length (PROJECTS cfg))%nat).
  { unfold valid_projects in Hv. rewrite Forall_lookup in Hv. exact (Hv i b Hb). }
  destruct (lookup_lt_is_Some_2 _ _ Hpb) as [proj Hproj].
  destruct (highlight_state vp cfg (Some i) w) as (_ & Hnav & H).
  unfold blob_at in H. rewrite Hb, Hproj in H. destruct H as (Hbs & Hhb & Hfx).
  fold w' in Hbs, Hhb, Hfx, Hnav.
  split; [|split; [exact Hhb|split; [|split; [|split; [|exact Hnav]]]]].
  - unfold result, highlightOrb, bind, get.
    assert (Hat : exists b', unhover_previous (hoveredBlob w) (blobs w) !! i = Some b' /\
                             projectIdx b' = projectIdx b).
    { destruct (unhover_previous_is_Some (hoveredBlob w) (blobs w) i) as [b' Hb'];
        [rewrite Hb; eexists; reflexivity|].
      exists b'. split; [exact Hb'|].
      destruct (unhover_previous_lookup _ _ _ _ Hb') as (b0 & Hb0 & Hp). congruence. }
    destruct Hat as (b' & Hb' & Hpi).
    destruct (hoveredBlob w) as [p|]; cbn [unhover_previous] in Hb';
      unfold update_blob, modify, ret, blob_at; cbn [fst snd blobs set_blobs];
      rewrite Hb'; cbn; unfold project_name; rewrite Hpi, Hproj; cbn;
      destruct (projected vp i) as [[wx wy] wz]; reflexivity.
  - intros k. unfold hovered_at. rewrite Hbs. split.
    + intros Hk. destruct (decide (k = i)) as [->|Hne]; [reflexivity|exfalso].
      rewrite hovered_in_alter_ne in Hk by exact Hne.
      rewrite unhover_previous_none in Hk by exact Inv. discriminate.
    + intros ->. apply hovered_in_set_true. rewrite length_unhover_previous. exact Hi.
  - rewrite (cues_played_app _ _ _ Hfx). unfold label_position.
    destruct (projected vp i) as [[wx wy] wz]. reflexivity.
  - unfold valid_projects. rewrite Hbs.
    apply Forall_alter; [|intros b' _ Hb'; exact Hb'].
    destruct (hoveredBlob w) as [p|]; cbn [unhover_previous]; [|exact Hv].
    apply Forall_alter; [exact Hv|]. intros b' _ Hb'. exact Hb'.
Qed.

(** One arrow key on a ready page. *)
Lemma arrow_step vp cfg e d (target : nat) :
  keys_ready cfg d ->
  let n := length (blobs (page d)) in
  (steps_forward e /\ target = ((navIdx (page d) + 1) mod n)%nat) \/
  (steps_back e /\ target = ((navIdx (page d) + n - 1) mod n)%nat) ->
  let d' := exec (onKeyNav vp cfg e) d in
  result (onKeyNav vp cfg e) d = inr tt /\
  keys_ready cfg d' /\
  length (blobs (page d')) = n /\
  navIdx (page d') = target /\ (target < n)%nat /\
  hoveredBlob (page d') = Some target /\
  (forall k, hovered_at (page d') k = true <-> k = target) /\
  cues_played (page d) (page d') = 1%nat /\
  calls d' = calls d ++ [PreventDefault].
Proof.
  intros (Hp & Hnan & Hne & Hv & Inv) n Hkey d'.
  assert (Hn : (0 < n)%nat).
  { subst n. destruct (blobs (page d)); [contradiction|cbn; lia]. }
  assert (Ht : (target < n)%nat).
  { destruct Hkey as [[_ ->]|[_ ->]]; apply Nat.mod_upper_bound; lia. }
  assert (Hnext : (steps_forward e /\
            Some target = js_mod (option_map (fun i => (i + 1)%nat) (nav_number d)) n) \/
           (steps_back e /\
            Some target = js_mod (option_map (fun i => (i + n - 1)%nat) (nav_number d)) n)).
  { unfold nav_number. rewrite Hnan. cbn [option_map]. unfold js_mod.
    destruct n as [|n']; [lia|].
    destruct Hkey as [[Hf ->]|[Hb ->]]; [left|right]; split; auto. }
  pose proof (onKeyNav_arrow vp cfg e d Hp (Some target) Hnext) as Hrun.
  set (d1 := exec (assign_navIdx (Some target)) (exec (call PreventDefault) d)) in *.
  assert (Hw1 : blobs (page d1) = blobs (page d) /\ hoveredBlob (page d1) = hoveredBlob (page d) /\
                panelState (page d1) = panelState (page d) /\
                effects (page d1) = effects (page d) /\ navIdx (page d1) = target /\
                calls d1 = calls d ++ [PreventDefault] /\ navNaN d1 = false)
    by (repeat split).
  destruct Hw1 as (Hb1 & Hh1 & Hp1 & Hf1 & Hn1 & Hc1 & Hnan1).
  assert (Hv1 : valid_projects cfg (page d1)) by (unfold valid_projects; rewrite Hb1; exact Hv).
  assert (Inv1 : resolver_tracks (page d1))
    by (apply (set_page_tracks (page d)); assumption).
  assert (Hi1 : (target < length (blobs (page d1)))%nat) by (rewrite Hb1; exact Ht).
  destruct (highlight_valid vp cfg (page d1) target Hi1 Hv1 Inv1)
    as (Hres & Hhb & Hhov & Hcue & Hv' & Hnav').
  assert (Hd' : d' = set_page (exec (highlightOrb vp cfg (Some target)) (page d1)) d1).
  { subst d'. unfold exec at 1. rewrite Hrun. unfold zoom, exec.
    destruct (highlightOrb vp cfg (Some target) (page d1)); reflexivity. }
  assert (Hpage : page d' = exec (highlightOrb vp cfg (Some target)) (page d1))
    by (rewrite Hd'; reflexivity).
  assert (Hlen : length (blobs (page d')) = n)
    by (rewrite Hpage, highlight_length, Hb1; reflexivity).
  split; [|split; [|split; [exact Hlen|split; [|split; [exact Ht|split; [|split; [|split]]]]]]].
  - unfold result. rewrite Hrun. unfold zoom. unfold result in Hres.
    destruct (highlightOrb vp cfg (Some target) (page d1)) as [r w2].
    cbn [fst] in Hres |- *. exact Hres.
  - unfold keys_ready. rewrite Hpage.
    split; [rewrite highlight_panelState, Hp1; exact Hp|].
    split; [rewrite Hd'; exact Hnan1|].
    split; [|split; [exact Hv'|apply highlight_tracks; exact Inv1]].
    intros Hnil. rewrite <- Hpage in Hnil. rewrite Hnil in Hlen. cbn in Hlen. lia.
  - rewrite Hpage, Hnav'. exact Hn1.
  - rewrite Hpage. exact Hhb.
  - rewrite Hpage. exact Hhov.
  - rewrite Hpage. unfold cues_played in *. rewrite <- Hf1. exact Hcue.
  - rewrite Hd'. exact Hc1.
Qed.

Lemma mod_forward_back (a n : nat) :
  (a < n)%nat -> (((a + 1) mod n + n - 1) mod n = a)%nat.
Proof.
  intros Ha.
  replace ((a + 1) mod n + n - 1)%nat with ((a + 1) mod n + (n - 1))%nat by lia.
  rewrite Nat.Div0.add_mod_idemp_l.
  replace (a + 1 + (n - 1))%nat with (a + 1 * n)%nat by lia.
  rewrite Nat.Div0.mod_add. apply Nat.mod_small. exact Ha.
Qed.

Lemma mod_back_forward (a n : nat) :
  (a < n)%nat -> (((a + n - 1) mod n + 1) mod n = a)%nat.
Proof.
  intros Ha.
  rewrite Nat.Div0.add_mod_idemp_l.
  replace (a + n - 1 + 1)%nat with (a + 1 * n)%nat by lia.
  rewrite Nat.Div0.mod_add. apply Nat.mod_small. exact Ha.
Qed.

End ArrowKeys.

(** X21: An arrow key with the panel closed, [navIdx] a number, on a page
    with at least one orb whose blobs all name existing projects, starting
    from a state where every hovered orb is the resolver's [hoveredBlob]:
    ArrowRight or ArrowDown moves the selection one orb forward, ArrowLeft
    or ArrowUp one back, wrapping around at the ends.  The listener
    completes, the selected orb becomes the only hovered orb and the
    resolver's [hoveredBlob], and the hover cue is played once, also when
    the selection lands on the orb that was hovered already. *)
Theorem arrow_key_selects (vp : Viewport) (cfg : Config) (e : KeyEvent) (d : Desk) :
  panelOpen (panelState (page d)) = false -> navNaN d = false ->
  blobs (page d) <> [] -> valid_projects cfg (page d) -> resolver_tracks (page d) ->
  steps_forward e \/ steps_back e ->
  let n := length (blobs (page d)) in
  let d' := exec (onKeyNav vp cfg e) d in
  result (onKeyNav vp cfg e) d = inr tt /\
  (steps_forward e -> navIdx (page d') = ((navIdx (page d) + 1) mod n)%nat) /\
  (steps_back e -> navIdx (page d') = ((navIdx (page d) + n - 1) mod n)%nat) /\
  (navIdx (page d') < n)%nat /\
  hoveredBlob (page d') = Some (navIdx (page d')) /\
  (forall k, hovered_at (page d') k = true <-> k = navIdx (page d')) /\
  cues_played (page d) (page d') = 1%nat.
Proof.
  intros Hp Hnan Hne Hv Inv Hkey n d'.
  assert (Hready : keys_ready cfg d) by (repeat split; assumption).
  assert (Hex : exists target,
            (steps_forward e /\ target = ((navIdx (page d) + 1) mod n)%nat) \/
            (steps_back e /\ target = ((navIdx (page d) + n - 1) mod n)%nat)).
  { destruct Hkey as [Hf|Hb]; eexists; [left|right]; split; eauto. }
  destruct Hex as (target & Htarget).
  destruct (arrow_step vp cfg e d target Hready Htarget)
    as (Hres & _ & _ & Hnav & Ht & Hhb & Hhov & Hcue & _).
  fold d' in Hnav, Hhb, Hhov, Hcue. rewrite Hnav.
  split; [exact Hres|].
  split; [|split; [|split; [exact Ht|split; [exact Hhb|split; [exact Hhov|exact Hcue]]]]].
  - intros Hf. destruct Htarget as [[_ ->]|[[Hnf _] _]]; [reflexivity|].
    unfold steps_forward in Hf. congruence.
  - intros [Hnf _]. destruct Htarget as [[Hf _]|[_ ->]]; [|reflexivity].
    unfold steps_forward in Hf. congruence.
Qed.

Lemma arrow_key_selects_witness :
  let e := mkKeyEvent "ArrowLeft" in
  let d' := exec (onKeyNav centred_viewport two_projects e) (desk_of two_orbs) in
  steps_back e /\
  navIdx (page d') = 1%nat /\ hoveredBlob (page d') = Some 1%nat.
Proof.
  intros e d'.
  assert (Hb : steps_back e) by (split; reflexivity).
  split; [exact Hb|].
  destruct (arrow_key_selects centred_viewport two_projects e (desk_of two_orbs))
    as (_ & _ & Hback & _ & Hhb & _).
  - reflexivity.
  - reflexivity.
  - discriminate.
  - repeat constructor.
  - intros i Hi. destruct i as [|[|i]]; discriminate Hi.
  - right. exact Hb.
  - fold d' in Hback, Hhb. rewrite Hhb. split; [|f_equal]; apply (Hback Hb).
Defined.

(** X22: Forward and back cancel: with the panel closed, [navIdx] a number
    below the number of orbs, blobs that all name existing projects, and
    starting from a state where every hovered orb is the resolver's
    [hoveredBlob], a forward arrow key followed by a back arrow key (or the
    other way round) selects the orb selected before, makes it the only
    hovered orb and the resolver's [hoveredBlob], and plays the hover cue
    twice. *)
Theorem arrow_keys_round_trip
    (vp : Viewport) (cfg : Config) (fwd back : KeyEvent) (d : Desk) :
  panelOpen (panelState (page d)) = false -> navNaN d = false ->
  valid_projects cfg (page d) -> resolver_tracks (page d) ->
  (navIdx (page d) < length (blobs (page d)))%nat ->
  steps_forward fwd -> steps_back back ->
  forall evs, evs = [KeyDown fwd; KeyDown back] \/ evs = [KeyDown back; KeyDown fwd] ->
  let d' := handle vp cfg evs d in
  navIdx (page d') = navIdx (page d) /\
  hoveredBlob (page d') = Some (navIdx (page d)) /\
  (forall k, hovered_at (page d') k = true <-> k = navIdx (page d)) /\
  cues_played (page d) (page d') = 2%nat.
Proof.
  intros Hp Hnan Hv Inv Hnav Hf Hb evs Hevs d'.
  set (n := length (blobs (page d))) in *.
  assert (Hne : blobs (page d) <> []).
  { intros Hnil. subst n. rewrite Hnil in Hnav. cbn in Hnav. lia. }
  assert (Hready : keys_ready cfg d) by (repeat split; assumption).
  assert (Hcues : forall w0 w1 w2,
            cues_played w0 w1 = 1%nat -> cues_played w1 w2 = 1%nat ->
            cues_played w0 w2 = 2%nat).
  { unfold cues_played. intros w0 w1 w2 H1 H2. lia. }
  destruct Hevs as [-> | ->]; subst d'; unfold handle; cbn [fold_left listener].
  - destruct (arrow_step vp cfg fwd d _ Hready (or_introl (conj Hf eq_refl)))
      as (_ & Hready1 & Hlen1 & Hnav1 & _ & _ & _ & Hcue1 & _).
    set (d1 := exec (onKeyNav vp cfg fwd) d) in *.
    destruct (arrow_step vp cfg back d1 _ Hready1 (or_intror (conj Hb eq_refl)))
      as (_ & _ & _ & Hnav2 & _ & Hhb2 & Hhov2 & Hcue2 & _).
    rewrite Hlen1, Hnav1 in Hnav2, Hhb2, Hhov2. fold n in Hnav2, Hhb2, Hhov2.
    rewrite mod_forward_back in Hnav2, Hhb2, Hhov2 by exact Hnav.
    split; [exact Hnav2|]. split; [exact Hhb2|]. split; [exact Hhov2|].
    apply (Hcues _ _ _ Hcue1 Hcue2).
  - destruct (arrow_step vp cfg back d _ Hready (or_intror (conj Hb eq_refl)))
      as (_ & Hready1 & Hlen1 & Hnav1 & _ & _ & _ & Hcue1 & _).
    set (d1 := exec (onKeyNav vp cfg back) d) in *.
    destruct (arrow_step vp cfg fwd d1 _ Hready1 (or_introl (conj Hf eq_refl)))
      as (_ & _ & _ & Hnav2 & _ & Hhb2 & Hhov2 & Hcue2 & _).
    rewrite Hlen1, Hnav1 in Hnav2, Hhb2, Hhov2. fold n in Hnav2, Hhb2, Hhov2.
    rewrite mod_back_forward in Hnav2, Hhb2, Hhov2 by exact Hnav.
    split; [exact Hnav2|]. split; [exact Hhb2|]. split; [exact Hhov2|].
    apply (Hcues _ _ _ Hcue1 Hcue2).
Qed.

Lemma arrow_keys_round_trip_witness :
  let evs := [KeyDown (mkKeyEvent "ArrowDown"); KeyDown (mkKeyEvent "ArrowUp")] in
  let d' := handle centred_viewport two_projects evs (desk_of two_orbs) in
  steps_forward (mkKeyEvent "ArrowDown") /\ steps_back (mkKeyEvent "ArrowUp") /\
  navIdx (page d') = 0%nat /\ hoveredBlob (page d') = Some 0%nat.
Proof.
  intros evs d'.
  assert (Hf : steps_forward (mkKeyEvent "ArrowDown")) by reflexivity.
  assert (Hb : steps_back (mkKeyEvent "ArrowUp")) by (split; reflexivity).
  split; [exact Hf|]. split; [exact Hb|].
  destruct (arrow_keys_round_trip centred_viewport two_projects
              (mkKeyEvent "ArrowDown") (mkKeyEvent "ArrowUp") (desk_of two_orbs))
    with (evs := evs) as (Hnav & Hhb & _).
  - reflexivity.
  - reflexivity.
  - repeat constructor.
  - intros i Hi. destruct i as [|[|i]]; discriminate Hi.
  - cbn. lia.
  - exact Hf.
  - exact Hb.
  - left. reflexivity.
  - split; [exact Hnav|exact Hhb].
Defined.

Section ClickAndTap.

Implicit Types (vp : Viewport) (cfg : Config) (w : World) (d : Desk) (b : Blob).
Implicit Types (i j k p n : nat) (e : PointerEvent).

(** The pointer-move listener on the desk: the page moves as
    [onPointerMove] says, the calls and the keyboard selection stay. *)
Lemma pointer_listener cfg e d :
  panelOpen (panelState (page d)) = false ->
  let d' := exec (zoom page set_page (onPointerMove cfg e)) d in
  page d' = exec (pointerMove_browse cfg e) (page d) /\
  calls d' = calls d /\ navNaN d' = navNaN d.
Proof.
  intros Hp. cbv zeta. unfold exec, zoom. rewrite onPointerMove_closed by exact Hp.
  destruct (pointerMove_browse cfg e (page d)); repeat split.
Qed.

(** What a click calls, by the resolver's [hoveredBlob]. *)
Lemma onClick_closed (c : ClickEvent) d :
  panelOpen (panelState (page d)) = false ->
  calls (exec (onClick c) d)
  = calls d ++
    match hoveredBlob (page d) with
    | Some p =>
        match blobs (page d) !! p with
        | Some b => [PlayClick; OpenProject (Some (projectIdx b))]
        | None => []
        end
    | None => []
    end.
Proof.
  intros Hp. unfold exec, onClick, bind, get. rewrite Hp.
  destruct (hoveredBlob (page d)) as [p|]; [|cbn; rewrite app_nil_r; reflexivity].
  destruct (blobs (page d) !! p) as [b|]; cbn; [|rewrite app_nil_r; reflexivity].
  rewrite <- app_assoc. reflexivity.
Qed.

(** What a tap calls, by the orb under it. *)
Lemma onTouchTap_closed (t : Touch) (rest : list Touch) d :
  panelOpen (panelState (page d)) = false ->
  let d' := exec (onTouchTap (mkTouchEvent (Some (t :: rest)))) d in
  page d' = page d /\
  calls d'
  = calls d ++
    match touchHits t with
    | hit :: _ =>
        match find_blob (object hit) (blobs (page d)) with
        | Some (_, b) => [PlayClick; OpenProject (Some (projectIdx b))]
        | None => []
        end
    | [] => []
    end.
Proof.
  intros Hp. cbv zeta. unfold exec, onTouchTap, bind, get. cbn [changedTouches].
  rewrite Hp.
  destruct (touchHits t) as [|hit hs]; [cbn; rewrite app_nil_r; auto|].
  destruct (find_blob (object hit) (blobs (page d))) as [[j b]|]; cbn;
    [rewrite <- app_assoc|rewrite app_nil_r]; auto.
Qed.

(** After a browse-mode pointer move the resolver's blob is the nearest orb
    when the ray met one, and no blob when it met nothing. *)
Lemma browse_resolves cfg e w :
  (hits e = [] -> hoveredBlob (exec (pointerMove_browse cfg e) w) = None) /\
  (forall hit rest j b,
      hits e = hit :: rest -> find_blob (object hit) (blobs w) = Some (j, b) ->
      hoveredBlob (exec (pointerMove_browse cfg e) w) = Some j /\
      projectIdx <$> blobs (exec (pointerMove_browse cfg e) w) !! j = Some (projectIdx b)).
Proof.
  split.
  - intros He. apply (browse_leave cfg e w He).
  - intros hit rest j b He Hf. split.
    + apply browse_hoveredBlob_nearest. unfold nearest_orb. rewrite He, Hf. reflexivity.
    + rewrite browse_projectIdx. apply find_blob_Some in Hf as [-> _]. reflexivity.
Qed.

(** The calls of a pointer move followed by a click, by what the move
    leaves in [hoveredBlob]. *)
Lemma point_and_click_calls vp cfg e (c : ClickEvent) d :
  panelOpen (panelState (page d)) = false ->
  let w1 := exec (pointerMove_browse cfg e) (page d) in
  calls (handle vp cfg [PointerMove e; Click c] d)
  = calls d ++
    match hoveredBlob w1 with
    | Some p =>
        match projectIdx <$> blobs w1 !! p with
        | Some k => [PlayClick; OpenProject (Some k)]
        | None => []
        end
    | None => []
    end.
Proof.
  intros Hp w1. unfold handle. cbn [fold_left listener].
  destruct (pointer_listener cfg e d Hp) as (Hpage & Hcalls & _).
  set (d1 := exec (zoom page set_page (onPointerMove cfg e)) d) in *.
  assert (Hp1 : panelOpen (panelState (page d1)) = false)
    by (rewrite Hpage, browse_panelState; exact Hp).
  rewrite (onClick_closed c d1 Hp1), Hcalls, Hpage. fold w1.
  destruct (hoveredBlob w1) as [p|]; [|reflexivity].
  destruct (blobs w1 !! p) as [b|]; reflexivity.
Qed.

End ClickAndTap.

(** X23: A click opens what the pointer is on: with the panel closed, after a
    pointer move whose ray first meets the hit mesh of an orb, a click calls
    [playClick()] and then [openProject] with that orb's project index,
    whether or not the hover transition completed; after a pointer move
    whose ray meets nothing, a click calls nothing. *)
Theorem click_opens_pointed_orb
    (vp : Viewport) (cfg : Config) (e : PointerEvent) (c : ClickEvent) (d : Desk) :
  panelOpen (panelState (page d)) = false ->
  let d' := handle vp cfg [PointerMove e; Click c] d in
  (hits e = [] -> calls d' = calls d) /\
  (forall hit rest j b,
      hits e = hit :: rest -> find_blob (object hit) (blobs (page d)) = Some (j, b) ->
      calls d' = calls d ++ [PlayClick; OpenProject (Some (projectIdx b))]).
Proof.
  intros Hp d'. subst d'. rewrite (point_and_click_calls vp cfg e c d Hp). cbv zeta.
  destruct (browse_resolves cfg e (page d)) as (Hnone & Hsome).
  split.
  - intros He. rewrite (Hnone He). apply app_nil_r.
  - intros hit rest j b He Hf.
    destruct (Hsome hit rest j b He Hf) as (-> & ->). reflexivity.
Qed.

Lemma click_opens_pointed_orb_witness :
  let e := mkPointerEvent 10 20 [mkHit 1 (0, 0, 0)%R] in
  let d' := handle centred_viewport two_projects [PointerMove e; Click (mkClickEvent false)]
              (desk_of two_orbs) in
  panelOpen (panelState (page (desk_of two_orbs))) = false /\
  calls d' = [PlayClick; OpenProject (Some 1%nat)].
Proof.
  intros e d'. split; [reflexivity|].
  destruct (click_opens_pointed_orb centred_viewport two_projects e (mkClickEvent false)
              (desk_of two_orbs) eq_refl) as (_ & Hopen).
  apply (Hopen (mkHit 1 (0, 0, 0)%R) [] 1%nat (idle_blob 1)); reflexivity.
Defined.

(** X24: A tap is a pointer move and a click without the hover: with the panel
    closed, when the ray of the tap meets nothing or first meets the hit
    mesh of an orb, the tap makes the calls that a pointer move to the same
    place followed by a click makes, but leaves the page as it is: no orb
    hovered, no cue, no label. *)
Theorem tap_is_point_and_click
    (vp : Viewport) (cfg : Config) (e : PointerEvent) (c : ClickEvent)
    (t : Touch) (rest : list Touch) (d : Desk) :
  panelOpen (panelState (page d)) = false ->
  touchHits t = hits e ->
  hits e = [] \/ (exists j, nearest_orb e (page d) = Some j) ->
  let tapped := exec (onTouchTap (mkTouchEvent (Some (t :: rest)))) d in
  calls tapped = calls (handle vp cfg [PointerMove e; Click c] d) /\
  page tapped = page d.
Proof.
  intros Hp Ht Hray tapped.
  destruct (onTouchTap_closed t rest d Hp) as (Hpage & Hcalls).
  fold tapped in Hpage, Hcalls. split; [|exact Hpage].
  rewrite (point_and_click_calls vp cfg e c d Hp). cbv zeta.
  destruct (browse_resolves cfg e (page d)) as (Hnone & Hsome).
  rewrite Hcalls, Ht.
  destruct Hray as [He|[j Hj]].
  - rewrite (Hnone He), He. reflexivity.
  - destruct (nearest_orb_Some e (page d) j Hj) as (hit & hs & b & He & Hf).
    destruct (Hsome hit hs j b He Hf) as (-> & ->). rewrite He, Hf. reflexivity.
Qed.

Lemma tap_is_point_and_click_witness :
  let e := mkPointerEvent 10 20 [mkHit 1 (0, 0, 0)%R] in
  let t := mkTouch false [mkHit 1 (0, 0, 0)%R] in
  let tapped := exec (onTouchTap (mkTouchEvent (Some [t]))) (desk_of two_orbs) in
  (exists j, nearest_orb e (page (desk_of two_orbs)) = Some j) /\
  calls tapped
  = calls (handle centred_viewport two_projects [PointerMove e; Click (mkClickEvent false)]
             (desk_of two_orbs)) /\
  page tapped = two_orbs.
Proof.
  intros e t tapped.
  assert (Hray : exists j, nearest_orb e (page (desk_of two_orbs)) = Some j)
    by (exists 1%nat; reflexivity).
  split; [exact Hray|].
  apply (tap_is_point_and_click centred_viewport two_projects e (mkClickEvent false) t []
           (desk_of two_orbs)).
  - reflexivity.
  - reflexivity.
  - right. exact Hray.
Defined.

Section KeysWithoutOrbs.

Implicit Types (vp : Viewport) (cfg : Config) (w : World) (d : Desk) (e : KeyEvent).

Lemma blob_at_NaN w : blob_at w None = None.
Proof. reflexivity. Qed.

(** Highlighting an index at which there is no blob throws and leaves the
    trace alone. *)
Lemma highlight_undefined vp cfg idx w :
  blob_at w idx = None ->
  result (highlightOrb vp cfg idx) w
  = inl (TypeError "Cannot set properties of undefined (setting 'hovered')") /\
  effects (exec (highlightOrb vp cfg idx) w) = effects w /\
  length (blobs (exec (highlightOrb vp cfg idx) w)) = length (blobs w).
Proof.
  intros Hat.
  destruct (highlight_state vp cfg idx w) as (_ & _ & H). rewrite Hat in H.
  destruct H as (_ & _ & Hfx). split; [|split; [exact Hfx|apply highlight_length]].
  assert (Hat' : blob_at (set_blobs (unhover_previous (hoveredBlob w) (blobs w)) w) idx = None).
  { unfold blob_at in *. destruct idx as [i|]; [|reflexivity]. cbn [blobs set_blobs].
    destruct (blobs w !! i) as [b|] eqn:Hb; [discriminate|].
    destruct (unhover_previous (hoveredBlob w) (blobs w) !! i) as [b'|] eqn:Hb'; [|reflexivity].
    destruct (unhover_previous_lookup _ _ _ _ Hb') as (b0 & Hb0 & _). congruence. }
  unfold result, highlightOrb, bind, get.
  destruct (hoveredBlob w) as [p|]; cbn [unhover_previous] in Hat';
    unfold update_blob, modify, ret; cbn [fst snd].
  - rewrite Hat'. reflexivity.
  - rewrite Hat. reflexivity.
Qed.

(** An arrow key when the index is NaN or there is no blob. *)
Lemma arrow_undefined vp cfg e d :
  panelOpen (panelState (page d)) = false ->
  navNaN d = true \/ blobs (page d) = [] ->
  steps_forward e \/ steps_back e ->
  let d' := exec (onKeyNav vp cfg e) d in
  result (onKeyNav vp cfg e) d
  = inl (TypeError "Cannot set properties of undefined (setting 'hovered')") /\
  navNaN d' = true /\
  panelState (page d') = panelState (page d) /\
  length (blobs (page d')) = length (blobs (page d)) /\
  effects (page d') = effects (page d) /\
  calls d' = calls d ++ [PreventDefault].
Proof.
  intros Hp Hnan Hkey d'.
  set (n := length (blobs (page d))).
  assert (Hmod : forall f, js_mod (option_map f (nav_number d)) n = None).
  { intros f. unfold nav_number, js_mod. destruct Hnan as [-> | Hnil]; [reflexivity|].
    subst n. rewrite Hnil. destruct (navNaN d); reflexivity. }
  assert (Hnext : (steps_forward e /\
            None = js_mod (option_map (fun i => (i + 1)%nat) (nav_number d)) n) \/
           (steps_back e /\
            None = js_mod (option_map (fun i => (i + n - 1)%nat) (nav_number d)) n)).
  { destruct Hkey as [Hf|Hb]; [left|right]; split; auto; symmetry; apply Hmod. }
  pose proof (onKeyNav_arrow vp cfg e d Hp None Hnext) as Hrun.
  set (d1 := exec (assign_navIdx None) (exec (call PreventDefault) d)) in *.
  destruct (highlight_undefined vp cfg None (page d1) (blob_at_NaN _)) as (Hres & Hfx & Hlen).
  assert (Hd' : d' = set_page (exec (highlightOrb vp cfg None) (page d1)) d1).
  { subst d'. unfold exec at 1. rewrite Hrun. unfold zoom, exec.
    destruct (highlightOrb vp cfg None (page d1)); reflexivity. }
  split; [|rewrite Hd'; cbn [page set_page navNaN calls]; repeat split].
  - unfold result. rewrite Hrun. unfold zoom. unfold result in Hres.
    destruct (highlightOrb vp cfg None (page d1)) as [r w2].
    cbn [fst] in Hres |- *. exact Hres.
  - apply highlight_panelState.
  - exact Hlen.
  - exact Hfx.
Qed.

(** Once the index is NaN, a browsing event leaves it NaN. *)
Lemma listener_NaN vp cfg (ev : InputEvent) d :
  browsing ev ->
  panelOpen (panelState (page d)) = false -> navNaN d = true ->
  panelOpen (panelState (page (exec (listener vp cfg ev) d))) = false /\
  navNaN (exec (listener vp cfg ev) d) = true.
Proof.
  intros Hev Hp Hnan. destruct ev as [e|e|e|e]; cbn [browsing] in Hev; try contradiction;
    cbn [listener].
  - destruct (pointer_listener cfg e d Hp) as (Hpage & _ & Hn).
    rewrite Hn, Hpage, browse_panelState. auto.
  - destruct (steps_cases e) as [Hf|[Hb|[Hnf Hnb]]].
    + destruct (arrow_undefined vp cfg e d Hp (or_introl Hnan) (or_introl Hf))
        as (_ & Hn & Hps & _). rewrite Hn, Hps. auto.
    + destruct (arrow_undefined vp cfg e d Hp (or_introl Hnan) (or_intror Hb))
        as (_ & Hn & Hps & _). rewrite Hn, Hps. auto.
    + destruct (onKeyNav_other vp cfg e d Hnf Hnb) as (-> & ->). auto.
Qed.

Lemma enter_is_no_arrow e :
  key_is e "Enter" = true -> ~ steps_forward e /\ ~ steps_back e.
Proof.
  unfold steps_forward, steps_back, key_is. intros H.
  apply String.eqb_eq in H. rewrite H. cbn. split; [|intros [_ Hb]]; discriminate.
Qed.

End KeysWithoutOrbs.

(** X25: Arrow keys on a page without orbs: [navIdx % blobs.length] is NaN, so
    the arrow key throws a [TypeError] at [blobs[NaN].hovered] without
    playing a cue, and [navIdx] stays NaN through every later pointer move
    and key press; Enter then calls [openProject(NaN)]. *)
Theorem arrow_keys_without_orbs
    (vp : Viewport) (cfg : Config) (e enter : KeyEvent) (evs : list InputEvent) (d : Desk) :
  panelOpen (panelState (page d)) = false -> blobs (page d) = [] ->
  steps_forward e \/ steps_back e ->
  Forall browsing evs -> key_is enter "Enter" = true ->
  let d1 := exec (onKeyNav vp cfg e) d in
  let d2 := handle vp cfg evs d1 in
  result (onKeyNav vp cfg e) d
  = inl (TypeError "Cannot set properties of undefined (setting 'hovered')") /\
  effects (page d1) = effects (page d) /\
  nav_number d1 = None /\ nav_number d2 = None /\
  calls (exec (onKeyNav vp cfg enter) d2)
  = calls d2 ++ [PreventDefault; PlayClick; OpenProject None].
Proof.
  intros Hp Hnil Hkey Hevs Henter d1 d2.
  destruct (arrow_undefined vp cfg e d Hp (or_intror Hnil) Hkey)
    as (Hres & Hnan1 & Hps1 & _ & Hfx & _).
  fold d1 in Hnan1, Hps1, Hfx.
  assert (Hp1 : panelOpen (panelState (page d1)) = false) by (rewrite Hps1; exact Hp).
  assert (H2 : panelOpen (panelState (page d2)) = false /\ navNaN d2 = true).
  { subst d2. unfold handle. clearbody d1. clear - Hevs Hp1 Hnan1. revert d1 Hp1 Hnan1.
    induction Hevs as [|ev evs Hev Hevs IH]; intros d1 Hp1 Hnan1; cbn [fold_left]; [auto|].
    destruct (listener_NaN vp cfg ev d1 Hev Hp1 Hnan1) as (Hp' & Hnan').
    apply IH; assumption. }
  destruct H2 as (Hp2 & Hnan2).
  split; [exact Hres|]. split; [exact Hfx|].
  split; [unfold nav_number; rewrite Hnan1; reflexivity|].
  split; [unfold nav_number; rewrite Hnan2; reflexivity|].
  destruct (enter_is_no_arrow enter Henter) as (Hnf & Hnb).
  unfold exec, onKeyNav, bind, get. rewrite Hp2.
  unfold steps_forward, steps_back in Hnf, Hnb.
  destruct (key_is enter "ArrowRight" || key_is enter "ArrowDown");
    [contradiction Hnf; reflexivity|].
  destruct (key_is enter "ArrowLeft" || key_is enter "ArrowUp");
    [contradiction Hnb; auto|].
  rewrite Henter. unfold nav_number. rewrite Hnan2. cbn.
  rewrite <- !app_assoc. reflexivity.
Qed.

Lemma arrow_keys_without_orbs_witness :
  let d1 := exec (onKeyNav centred_viewport two_projects (mkKeyEvent "ArrowRight"))
              (desk_of empty_world) in
  let d2 := handle centred_viewport two_projects [KeyDown (mkKeyEvent "ArrowLeft")] d1 in
  blobs (page (desk_of empty_world)) = [] /\
  nav_number d2 = None /\
  calls (exec (onKeyNav centred_viewport two_projects (mkKeyEvent "Enter")) d2)
  = calls d2 ++ [PreventDefault; PlayClick; OpenProject None].
Proof.
  intros d1 d2. split; [reflexivity|].
  destruct (arrow_keys_without_orbs centred_viewport two_projects
              (mkKeyEvent "ArrowRight") (mkKeyEvent "Enter")
              [KeyDown (mkKeyEvent "ArrowLeft")] (desk_of empty_world))
    as (_ & _ & _ & Hnan & Hcalls).
  - reflexivity.
  - reflexivity.
  - left. reflexivity.
  - repeat constructor.
  - reflexivity.
  - split; [exact Hnan|exact Hcalls].
Defined.

(* ================================================================== *)
(** * Properties of the sound module *)
(* ================================================================== *)

Section SoundInvariants.

Local Open Scope R_scope.

Implicit Types (br : Browser) (a : Audio) (c : SoundCall) (now : R) (v : Voice).

Lemma ensureCtx_consistent br a : audio_consistent a -> audio_consistent (ensureCtx br a).
Proof.
  intros Ha. pose proof Ha as (H0 & H1 & H2 & H3). unfold ensureCtx.
  destruct (ctx a) as [c|] eqn:Hc; [exact Ha|].
  destruct (H0 eq_refl) as (Hg & Hn & Hv).
  split; [|split; [|split]]; cbn.
  - discriminate.
  - intros _. rewrite Hn. split; [discriminate|reflexivity].
  - exact H2.
  - exact H3.
Qed.

Lemma ensureCtx_ctx br a : ctx (ensureCtx br a) <> None.
Proof. unfold ensureCtx. destruct (ctx a) eqn:Hc; cbn; congruence. Qed.

(** Adding a voice that has a stop time. *)
Lemma add_voice_consistent v a :
  ctx a <> None -> stopTime v <> None ->
  audio_consistent a -> audio_consistent (add_voice v a).
Proof.
  intros Hc Hs (H0 & H1 & H2 & H3). unfold add_voice.
  split; [|split; [|split]]; cbn.
  - intros Hn. contradiction.
  - exact H1.
  - intros i w Hi Hw.
    destruct (decide (i < length (voices a))%nat) as [Hlt|Hge].
    + rewrite lookup_app_l in Hi by exact Hlt. apply (H2 i w Hi Hw).
    + rewrite lookup_app_r in Hi by lia.
      destruct (i - length (voices a))%nat; cbn in Hi; [|discriminate].
      injection Hi as <-. contradiction.
  - intros o1 o2 Ho. destruct (H3 o1 o2 Ho) as (-> & v1 & v2 & L1 & L2 & Rest).
    split; [reflexivity|]. exists v1, v2.
    split; [apply lookup_app_l_Some; exact L1|].
    split; [apply lookup_app_l_Some; exact L2|exact Rest].
Qed.

Lemma silenced_false a : silenced a = false -> muted a = false /\ ctx a <> None.
Proof.
  unfold silenced. destruct (muted a); [discriminate|].
  destruct (ctx a); [split; congruence|discriminate].
Qed.

Lemma startAmbient_consistent br now a :
  audio_consistent a -> audio_consistent (startAmbient br now a).
Proof.
  intros Ha. unfold startAmbient.
  pose proof (ensureCtx_consistent br a Ha) as Ha1.
  pose proof Ha1 as (H0 & H1 & H2 & H3).
  pose proof (ensureCtx_ctx br a) as Hc.
  set (a1 := ensureCtx br a) in *. cbv zeta.
  destruct (ambientOsc a1) as [[o1 o2]|] eqn:Ho; [exact Ha1|].
  split; [|split; [|split]]; cbn.
  - intros Hn. contradiction.
  - exact H1.
  - intros i w Hi Hw.
    destruct (decide (i < length (voices a1))%nat) as [Hlt|Hge].
    + rewrite lookup_app_l in Hi by exact Hlt.
      destruct (H2 i w Hi Hw) as (p1 & p2 & Hp & _). congruence.
    + rewrite lookup_app_r in Hi by lia.
      exists (length (voices a1)), (S (length (voices a1))). split; [reflexivity|].
      destruct (i - length (voices a1))%nat as [|[|k]] eqn:Hk; cbn in Hi;
        [left|right|discriminate]; lia.
  - intros p1 p2 [= <- <-]. split; [reflexivity|].
    eexists. eexists.
    split; [rewrite lookup_app_r, Nat.sub_diag by lia; reflexivity|].
    split; [rewrite lookup_app_r by lia;
            replace (S (length (voices a1)) - length (voices a1))%nat with 1%nat by lia;
            reflexivity|].
    repeat split.
Qed.

Lemma stopAmbient_consistent now a :
  audio_consistent a -> audio_consistent (stopAmbient now a).
Proof.
  intros Ha. pose proof Ha as (H0 & H1 & H2 & H3). unfold stopAmbient.
  destruct (ambientOsc a) as [[o1 o2]|] eqn:Ho; [|exact Ha].
  destruct (H3 o1 o2 eq_refl) as (-> & v1 & v2 & L1 & L2 & _).
  split; [|split; [|split]]; cbn.
  - intros Hn. destruct (H0 Hn) as (_ & _ & Hv). rewrite Hv in L1. discriminate.
  - exact H1.
  - intros i w Hi Hw. exfalso.
    destruct (decide (i = S o1)) as [->|Hne2].
    + rewrite list_lookup_alter_eq in Hi.
      destruct (alter (set_stopTime now) o1 (voices a) !! S o1); cbn in Hi; [|discriminate].
      injection Hi as <-. discriminate.
    + rewrite list_lookup_alter_ne in Hi by congruence.
      destruct (decide (i = o1)) as [->|Hne1].
      * rewrite list_lookup_alter_eq, L1 in Hi. cbn in Hi. injection Hi as <-. discriminate.
      * rewrite list_lookup_alter_ne in Hi by congruence.
        destruct (H2 i w Hi Hw) as (p1 & p2 & [= <- <-] & [Hp|Hp]); congruence.
  - discriminate.
Qed.

Lemma cue_consistent (play : R -> Audio -> Audio) now a :
  (exists v, stopTime v <> None /\
     forall a', play now a' = if silenced a' then a' else add_voice v a') ->
  audio_consistent a -> audio_consistent (play now a).
Proof.
  intros (v & Hs & Hplay) Ha. rewrite Hplay.
  destruct (silenced a) eqn:Hq; [exact Ha|].
  apply add_voice_consistent; [apply (silenced_false a Hq)|exact Hs|exact Ha].
Qed.

Lemma playHover_consistent now a : audio_consistent a -> audio_consistent (playHover now a).
Proof.
  intros Ha. unfold playHover. destruct (silenced a) eqn:Hq; [exact Ha|].
  cbv zeta. apply add_voice_consistent.
  - cbn. apply (silenced_false a Hq).
  - discriminate.
  - destruct Ha as (H0 & H1 & H2 & H3). repeat split; cbn; try assumption.
    + apply (H0 H).
    + apply (H0 H).
    + apply (H0 H).
    + apply (H1 H).
    + apply (H1 H).
    + apply (H3 _ _ H).
    + apply (H3 _ _ H).
Qed.

Lemma toggleMute_consistent a : audio_consistent a -> audio_consistent (snd (toggleMute a)).
Proof.
  intros (H0 & H1 & H2 & H3). unfold toggleMute. cbn [snd].
  split; [|split; [|split]]; cbn.
  - intros Hn. destruct (H0 Hn) as (-> & Hc & Hv). auto.
  - intros Hn. destruct (H1 Hn) as (Hg & Hc). split; [|exact Hc].
    destruct (masterGain a); [discriminate|contradiction].
  - exact H2.
  - exact H3.
Qed.

Lemma resume_consistent a :
  audio_consistent a ->
  audio_consistent
    match ctx a with
    | Some c =>
        if suspended c
        then mkAudio (random a) (Some (mkAudioContext false)) (masterGain a)
                     (ambientOsc a) (muted a) (voices a) (contexts a)
        else a
    | None => a
    end.
Proof.
  intros Ha. destruct (ctx a) as [c|] eqn:Hc; [|exact Ha].
  destruct (suspended c); [|exact Ha].
  destruct Ha as (H0 & H1 & H2 & H3).
  split; [|split; [|split]]; cbn.
  - discriminate.
  - intros _. apply H1. congruence.
  - exact H2.
  - exact H3.
Qed.

Lemma sound_call_consistent br a c :
  audio_consistent a -> audio_consistent (sound_call br a c).
Proof.
  intros Ha. unfold sound_call. destruct (fn c).
  - apply startAmbient_consistent, Ha.
  - apply stopAmbient_consistent, Ha.
  - apply playHover_consistent, Ha.
  - apply (cue_consistent playClick); [|exact Ha].
    exists (mkVoice triangle 900 (Some (200, at_time c + 0.15))
              0.1 (Some (0.001, at_time c + 0.2)) (at_time c) (Some (at_time c + 0.25))).
    split; [discriminate|intros a'; reflexivity].
  - apply (cue_consistent playClose); [|exact Ha].
    exists (mkVoice sine 400 (Some (150, at_time c + 0.2))
              0.06 (Some (0.001, at_time c + 0.25)) (at_time c) (Some (at_time c + 0.3))).
    split; [discriminate|intros a'; reflexivity].
  - apply toggleMute_consistent, Ha.
  - unfold resumeAudio. cbv zeta.
    apply startAmbient_consistent, resume_consistent, ensureCtx_consistent, Ha.
Qed.

Lemma sound_calls_consistent br (cs : list SoundCall) a :
  audio_consistent a -> audio_consistent (sound_calls br cs a).
Proof.
  unfold sound_calls. revert a.
  induction cs as [|c cs IH]; intros a Ha; cbn [fold_left]; [exact Ha|].
  apply IH, sound_call_consistent, Ha.
Qed.

Lemma loaded_consistent (g : Rng) : audio_consistent (loaded g).
Proof.
  unfold loaded. split; [|split; [|split]]; cbn.
  - auto.
  - intros H. contradiction.
  - intros i v Hi. discriminate.
  - discriminate.
Qed.

(** ** The context *)

Lemma startAmbient_ctx br now a : ctx (startAmbient br now a) <> None.
Proof.
  unfold startAmbient. cbv zeta. pose proof (ensureCtx_ctx br a) as Hc.
  destruct (ambientOsc (ensureCtx br a)) as [[o1 o2]|]; exact Hc.
Qed.

Lemma resumeAudio_ctx br now a : ctx (resumeAudio br now a) <> None.
Proof. unfold resumeAudio. cbv zeta. apply startAmbient_ctx. Qed.

(** The calls that do not open the context leave it as it is. *)
Lemma sound_call_ctx_kept br a c :
  opens_context (fn c) = false -> ctx (sound_call br a c) = ctx a.
Proof.
  unfold sound_call. destruct (fn c); cbn [opens_context]; try discriminate; intros _.
  - unfold stopAmbient. destruct (ambientOsc a) as [[o1 o2]|]; reflexivity.
  - unfold playHover. destruct (silenced a); reflexivity.
  - unfold playClick. destruct (silenced a); reflexivity.
  - unfold playClose. destruct (silenced a); reflexivity.
  - reflexivity.
Qed.

Lemma sound_call_ctx_opened br a c :
  opens_context (fn c) = true -> ctx (sound_call br a c) <> None.
Proof.
  unfold sound_call. destruct (fn c); cbn [opens_context]; try discriminate; intros _.
  - apply startAmbient_ctx.
  - apply resumeAudio_ctx.
Qed.

(** A call opens the context only if it is [startAmbient] or
    [resumeAudio]; no call closes it. *)
Lemma sound_call_ctx br a c :
  (ctx a <> None -> ctx (sound_call br a c) <> None) /\
  (ctx a = None -> (ctx (sound_call br a c) <> None <-> opens_context (fn c) = true)).
Proof.
  destruct (opens_context (fn c)) eqn:Ho.
  - pose proof (sound_call_ctx_opened br a c Ho). tauto.
  - rewrite (sound_call_ctx_kept br a c Ho). split; [tauto|].
    intros ->. split; [contradiction|discriminate].
Qed.

End SoundInvariants.

(** X26: The audio context is created once and only by [startAmbient] or
    [resumeAudio]: after any sequence of calls on the freshly loaded module
    at most one context was constructed, a context exists exactly when one of
    these two was called, and as long as it does not exist no oscillator was
    created: until then every cue is silent. *)
Theorem audio_context_once (br : Browser) (g : Rng) (cs : list SoundCall) :
  let a := sound_calls br cs (loaded g) in
  (contexts a <= 1)%nat /\
  (ctx a <> None <-> contexts a = 1%nat) /\
  (ctx a <> None <-> Exists (fun c => opens_context (fn c) = true) cs) /\
  (ctx a = None -> voices a = [] /\ masterGain a = None).
Proof.
  intros a.
  pose proof (sound_calls_consistent br cs (loaded g) (loaded_consistent g))
    as (H0 & H1 & _ & _).
  fold a in H0, H1.
  assert (Hopen : forall a0,
            ctx (sound_calls br cs a0) <> None <->
            ctx a0 <> None \/ Exists (fun c => opens_context (fn c) = true) cs).
  { unfold sound_calls. clear. induction cs as [|c cs IH]; intros a0; cbn [fold_left].
    - rewrite Exists_nil. tauto.
    - rewrite IH, Exists_cons.
      destruct (sound_call_ctx br a0 c) as (Hkeep & Hnew).
      destruct (ctx a0) as [k|] eqn:Hc.
      + split; [intros _; left; discriminate|intros _; left; apply Hkeep; discriminate].
      + specialize (Hnew eq_refl). rewrite Hnew. split; [tauto|].
        intros [Hf|H]; [contradiction|tauto]. }
  destruct (ctx a) as [k|] eqn:Hc.
  - destruct H1 as (Hg & Hn); [discriminate|].
    split; [lia|]. split; [split; [intros _; exact Hn|discriminate]|].
    split; [|discriminate].
    pose proof (Hopen (loaded g)) as Ho. fold a in Ho. rewrite Hc in Ho.
    split.
    + intros Hs. apply Ho in Hs. destruct Hs as [Hl|He]; [contradiction Hl; reflexivity|exact He].
    + discriminate.
  - destruct (H0 eq_refl) as (Hg & Hn & Hv).
    split; [lia|]. split; [split; [contradiction|lia]|].
    split; [|auto].
    pose proof (Hopen (loaded g)) as Ho. fold a in Ho. rewrite Hc in Ho.
    split; [contradiction|].
    intros He. exfalso. apply (proj2 Ho); [right; exact He|reflexivity].
Qed.

(** X27: At most one drone plays: after any sequence of calls on the freshly
    loaded module, the oscillators that were never told to stop are the two
    of [ambientOsc], a pair at 80 Hz and 120.5 Hz; every other oscillator,
    cues and earlier drones alike, has a stop time. *)
Theorem ambient_drone_pair (br : Browser) (g : Rng) (cs : list SoundCall) :
  let a := sound_calls br cs (loaded g) in
  (forall i v, voices a !! i = Some v -> stopTime v = None ->
     exists o1 o2, ambientOsc a = Some (o1, o2) /\ (i = o1 \/ i = o2)) /\
  (forall o1 o2, ambientOsc a = Some (o1, o2) ->
     o2 = S o1 /\
     exists v1 v2,
       voices a !! o1 = Some v1 /\ voices a !! o2 = Some v2 /\
       stopTime v1 = None /\ stopTime v2 = None /\
       frequency v1 = 80%R /\ frequency v2 = 120.5%R).
Proof.
  intros a.
  pose proof (sound_calls_consistent br cs (loaded g) (loaded_consistent g))
    as (_ & _ & H2 & H3).
  split; [exact H2|exact H3].
Qed.

Section MuteAndGain.

Local Open Scope R_scope.

Implicit Types (br : Browser) (a : Audio) (c : SoundCall) (now : R).

Lemma ensureCtx_open br a : ctx a <> None -> ensureCtx br a = a.
Proof. unfold ensureCtx. destruct (ctx a); [reflexivity|contradiction]. Qed.

Lemma startAmbient_gain br now a :
  ctx a <> None ->
  masterGain (startAmbient br now a) = masterGain a /\
  muted (startAmbient br now a) = muted a.
Proof.
  intros Hc. unfold startAmbient. rewrite (ensureCtx_open br a Hc). cbv zeta.
  destruct (ambientOsc a) as [[o1 o2]|]; split; reflexivity.
Qed.

Lemma resumeAudio_gain br now a :
  ctx a <> None ->
  masterGain (resumeAudio br now a) = masterGain a /\
  muted (resumeAudio br now a) = muted a.
Proof.
  intros Hc. unfold resumeAudio. rewrite (ensureCtx_open br a Hc). cbv zeta.
  destruct (ctx a) as [k|] eqn:Hk; [|contradiction].
  destruct (suspended k).
  - apply (startAmbient_gain br now
             (mkAudio (random a) (Some (mkAudioContext false)) (masterGain a)
                      (ambientOsc a) (muted a) (voices a) (contexts a))).
    discriminate.
  - apply startAmbient_gain. rewrite Hk. discriminate.
Qed.

(** With a context, every call but [toggleMute] leaves [masterGain] and
    [muted] alone, and [toggleMute] sets the one by the other. *)
Lemma sound_call_gain br a c :
  ctx a <> None -> masterGain a <> None ->
  gain_follows_mute a \/ fn c = ToggleMute ->
  gain_follows_mute (sound_call br a c) /\ masterGain (sound_call br a c) <> None.
Proof.
  intros Hc Hg Hfollow. unfold sound_call.
  assert (Hkeep : forall a',
            masterGain a' = masterGain a -> muted a' = muted a ->
            fn c <> ToggleMute ->
            gain_follows_mute a' /\ masterGain a' <> None).
  { intros a' H1 H2 Hn. destruct Hfollow as [Hf|Ht]; [|contradiction].
    unfold gain_follows_mute in *. rewrite H1, H2. auto. }
  destruct (fn c) eqn:Hfn.
  - destruct (startAmbient_gain br (at_time c) a Hc) as (H1 & H2).
    apply Hkeep; [exact H1|exact H2|discriminate].
  - apply Hkeep; [| |discriminate];
      unfold stopAmbient; destruct (ambientOsc a) as [[o1 o2]|]; reflexivity.
  - apply Hkeep; [| |discriminate];
      unfold playHover; destruct (silenced a); reflexivity.
  - apply Hkeep; [| |discriminate];
      unfold playClick; destruct (silenced a); reflexivity.
  - apply Hkeep; [| |discriminate];
      unfold playClose; destruct (silenced a); reflexivity.
  - unfold toggleMute, gain_follows_mute. cbn.
    destruct (masterGain a); [split; [reflexivity|discriminate]|contradiction].
  - destruct (resumeAudio_gain br (at_time c) a Hc) as (H1 & H2).
    apply Hkeep; [exact H1|exact H2|discriminate].
Qed.

Lemma sound_calls_gain br (cs : list SoundCall) a :
  ctx a <> None -> masterGain a <> None -> gain_follows_mute a ->
  gain_follows_mute (sound_calls br cs a).
Proof.
  unfold sound_calls. revert a.
  induction cs as [|c cs IH]; intros a Hc Hg Hf; cbn [fold_left]; [exact Hf|].
  destruct (sound_call_gain br a c Hc Hg (or_introl Hf)) as (Hf' & Hg').
  apply IH; [|exact Hg'|exact Hf'].
  apply (proj1 (sound_call_ctx br a c)), Hc.
Qed.

Lemma sound_calls_app br (cs1 cs2 : list SoundCall) a :
  sound_calls br (cs1 ++ cs2) a = sound_calls br cs2 (sound_calls br cs1 a).
Proof. unfold sound_calls. apply fold_left_app. Qed.

(** Calls that do not open the context leave the module without one. *)
Lemma sound_calls_closed br (cs : list SoundCall) a :
  Forall (fun c => opens_context (fn c) = false) cs ->
  ctx a = None -> ctx (sound_calls br cs a) = None.
Proof.
  unfold sound_calls. intros Hcs. revert a.
  induction Hcs as [|c cs Hc Hcs IH]; intros a Ha; cbn [fold_left]; [exact Ha|].
  apply IH. rewrite (sound_call_ctx_kept br a c Hc). exact Ha.
Qed.

End MuteAndGain.

(** X28: Mute controls the master gain once it was toggled with a context:
    after a [toggleMute] that found an audio context, [masterGain.gain] is 0
    while [muted] is set and 0.25 while it is not, whatever is called
    afterwards. *)
Theorem master_gain_follows_mute
    (br : Browser) (g : Rng) (pre post : list SoundCall) (t : R) :
  ctx (sound_calls br pre (loaded g)) <> None ->
  gain_follows_mute
    (sound_calls br (pre ++ mkSoundCall ToggleMute t :: post) (loaded g)).
Proof.
  intros Hc. rewrite sound_calls_app.
  set (a1 := sound_calls br pre (loaded g)) in *.
  pose proof (sound_calls_consistent br pre (loaded g) (loaded_consistent g))
    as (_ & H1 & _ & _).
  fold a1 in H1. destruct (H1 Hc) as (Hg & _).
  change (sound_calls br (mkSoundCall ToggleMute t :: post) a1)
    with (sound_calls br post (sound_call br a1 (mkSoundCall ToggleMute t))).
  destruct (sound_call_gain br a1 (mkSoundCall ToggleMute t) Hc Hg (or_intror eq_refl))
    as (Hf & Hg').
  apply sound_calls_gain; [|exact Hg'|exact Hf].
  apply (proj1 (sound_call_ctx br a1 (mkSoundCall ToggleMute t))), Hc.
Qed.

Lemma master_gain_follows_mute_witness :
  let pre := [mkSoundCall ResumeAudio 0; mkSoundCall PlayHoverFn 1] in
  let post := [mkSoundCall PlayClickFn 3; mkSoundCall StopAmbient 4] in
  let a := sound_calls (mkBrowser true) (pre ++ mkSoundCall ToggleMute 2 :: post)
             (loaded constant_rng) in
  ctx (sound_calls (mkBrowser true) pre (loaded constant_rng)) <> None /\
  masterGain a = Some 0%R /\ muted a = true.
Proof.
  intros pre post a.
  assert (Hc : ctx (sound_calls (mkBrowser true) pre (loaded constant_rng)) <> None)
    by discriminate.
  split; [exact Hc|].
  pose proof (master_gain_follows_mute (mkBrowser true) constant_rng pre post 2 Hc) as Hf.
  fold a in Hf. unfold gain_follows_mute in Hf.
  assert (Hm : muted a = true) by reflexivity.
  rewrite Hm in Hf. split; [exact Hf|exact Hm].
Defined.

(** X29: Muting before the first gesture does not silence the drone: when
    [muted] was set while no audio context existed, [resumeAudio] creates
    the context with [masterGain.gain] at 0.25 and starts the ambient
    drone, although [muted] is still set. *)
Theorem mute_before_first_gesture
    (br : Browser) (g : Rng) (pre : list SoundCall) (now : R) :
  Forall (fun c => opens_context (fn c) = false) pre ->
  let a := sound_calls br pre (loaded g) in
  muted a = true ->
  let a' := resumeAudio br now a in
  muted a' = true /\ masterGain a' = Some 0.25%R /\
  ambientOsc a' = Some (0%nat, 1%nat) /\
  (forall v, In v (voices a') -> stopTime v = None /\ startTime v = now) /\
  ~ gain_follows_mute a'.
Proof.
  intros Hpre a Hm a'.
  assert (Hc : ctx a = None)
    by (apply sound_calls_closed; [exact Hpre|reflexivity]).
  pose proof (sound_calls_consistent br pre (loaded g) (loaded_consistent g))
    as (H0 & _ & _ & H3).
  fold a in H0, H3. destruct (H0 Hc) as (Hg & Hn & Hv).
  assert (Ho : ambientOsc a = None).
  { destruct (ambientOsc a) as [[o1 o2]|] eqn:Ho; [|reflexivity].
    destruct (H3 o1 o2 eq_refl) as (_ & v1 & _ & L1 & _). rewrite Hv in L1. discriminate. }
  assert (Ha' : a' = mkAudio (random a) (Some (mkAudioContext false)) (Some 0.25%R)
                        (Some (0%nat, 1%nat)) true
                        [mkVoice sine 80 None 0.03 None now None;
                         mkVoice sine 120.5 None 0.03 None now None] 1).
  { subst a'. unfold resumeAudio, startAmbient, ensureCtx. rewrite Hc. cbn.
    destruct (startsSuspended br); cbn; rewrite Ho, Hm, Hv, Hn; reflexivity. }
  rewrite Ha'. cbn.
  split; [reflexivity|]. split; [reflexivity|]. split; [reflexivity|].
  split.
  - intros v [<-|[<-|[]]]; split; reflexivity.
  - unfold gain_follows_mute. cbn. intros [= H]. lra.
Qed.

Lemma mute_before_first_gesture_witness :
  let pre := [mkSoundCall PlayHoverFn 0; mkSoundCall ToggleMute 1] in
  let a' := resumeAudio (mkBrowser true) 2 (sound_calls (mkBrowser true) pre
                                              (loaded constant_rng)) in
  Forall (fun c => opens_context (fn c) = false) pre /\
  muted a' = true /\ masterGain a' = Some 0.25%R.
Proof.
  intros pre a'.
  assert (Hpre : Forall (fun c => opens_context (fn c) = false) pre)
    by (repeat constructor).
  split; [exact Hpre|].
  destruct (mute_before_first_gesture (mkBrowser true) constant_rng pre 2 Hpre eq_refl)
    as (H1 & H2 & _).
  split; [exact H1|exact H2].
Defined.
